(** * Excel SQL assistant: the string, storage and export utilities

    A shallow embedding of the utility classes of the add-in
    (OpenAIService, MockDataGenerator, SQLValidator, ExportManager,
    SchemaManager, QueryHistoryManager) and of the fallback SQL
    generator of the task pane, with the properties their description
    states about them and further properties of the code: round trips,
    invariants of the stores, what the validator and the formatters
    keep and what they never report.

    Conventions of the embedding.
    - A JavaScript string is a list of characters.  The case maps are
      those of JavaScript on ASCII text, which [plainText] tells: a
      property that compares letter cases is stated for such text.  The
      whitespace class of [\s] and [trim] is tab, line feed, vertical
      tab, form feed, carriage return and space, and the word class of
      [\b] is [A-Za-z0-9_].
    - A JavaScript number that is compared or sliced with is a rational
      or one of the three values that are none; a number that is only
      printed is an integer, or is given by its printed text.
    - [Date.now()] and [Math.random()] are inputs of the functions that
      read them: one input for each reading.
    - A stored JSON text is represented by the value it parses to.
      Whether [setItem] stores or throws is an input of each function
      that writes; a writer that catches what [setItem] throws leaves
      the item as it was, one that does not throws it on. *)

From Stdlib Require Import Ascii String DecimalString.
From Stdlib Require Import List ZArith NArith QArith Qround Bool Arith Lia.
Import ListNotations.

Local Open Scope list_scope.
Local Open Scope nat_scope.

(** ** JavaScript strings *)

Module JS.

Definition jsstring := list ascii.

(** A string literal. *)
Definition str (s : string) : jsstring := list_ascii_of_string s.

Definition code (c : ascii) : N := N_of_ascii c.

Definition inRange (lo hi : N) (c : ascii) : bool :=
  ((lo <=? code c) && (code c <=? hi))%N.

Definition isUpper (c : ascii) : bool := inRange 65 90 c.
Definition isLower (c : ascii) : bool := inRange 97 122 c.
Definition isDigit (c : ascii) : bool := inRange 48 57 c.

(** [\s] *)
Definition isSpace (c : ascii) : bool :=
  inRange 9 13 c || (code c =? 32)%N.

(** [\w] *)
Definition isWordChar (c : ascii) : bool :=
  isUpper c || isLower c || isDigit c || (code c =? 95)%N.

Definition toLowerChar (c : ascii) : ascii :=
  if isUpper c then ascii_of_N (code c + 32) else c.

Definition toUpperChar (c : ascii) : ascii :=
  if isLower c then ascii_of_N (code c - 32) else c.

Definition toLowerCase (s : jsstring) : jsstring := map toLowerChar s.
Definition toUpperCase (s : jsstring) : jsstring := map toUpperChar s.

Definition eqs (a b : jsstring) : bool :=
  if list_eq_dec ascii_dec a b then true else false.

(** [s.startsWith(p)] *)
Fixpoint startsWith (s p : jsstring) : bool :=
  match p, s with
  | [], _ => true
  | _ :: _, [] => false
  | a :: p', b :: s' => Ascii.eqb a b && startsWith s' p'
  end.

(** [s.includes(p)] *)
Fixpoint includes (s p : jsstring) : bool :=
  startsWith s p ||
  match s with
  | [] => false
  | _ :: s' => includes s' p
  end.

Fixpoint dropWhile {A} (f : A -> bool) (l : list A) : list A :=
  match l with
  | [] => []
  | x :: l' => if f x then dropWhile f l' else l
  end.

Definition trimStart (s : jsstring) : jsstring := dropWhile isSpace s.
Definition trimEnd (s : jsstring) : jsstring := rev (dropWhile isSpace (rev s)).

(** [s.trim()] *)
Definition trim (s : jsstring) : jsstring := trimEnd (trimStart s).

(** [endsWith] *)
Definition endsWith (s p : jsstring) : bool := startsWith (rev s) (rev p).

(** [parts.join(sep)] *)
Fixpoint join (sep : jsstring) (parts : list jsstring) : jsstring :=
  match parts with
  | [] => []
  | [p] => p
  | p :: rest => p ++ sep ++ join sep rest
  end.

Definition LF : ascii := "010"%char.
Definition CR : ascii := "013"%char.

(** A character of 7-bit ASCII, and a text made of such characters: on
    these the case conversions below are those of JavaScript. *)
Definition isASCII (c : ascii) : bool := (code c <? 128)%N.
Definition plainText (s : jsstring) : bool := forallb isASCII s.

(** A JavaScript number: a finite value, as the rational it is, one of
    the two infinities, or NaN. *)
Inductive number :=
| Num (q : Q)
| PlusInfinity
| MinusInfinity
| NaN.

(** A number in a condition: zero and NaN count as false. *)
Definition truthy (n : number) : bool :=
  match n with
  | Num q => negb (Qeq_bool q 0)
  | PlusInfinity | MinusInfinity => true
  | NaN => false
  end.

(** [length > n] for the length of an array. *)
Definition lengthExceeds (length : nat) (n : number) : bool :=
  match n with
  | Num q => negb (Qle_bool (inject_Z (Z.of_nat length)) q)
  | MinusInfinity => true
  | PlusInfinity | NaN => false
  end.

(** The integer part of a finite number: rounding toward zero. *)
Definition truncate (q : Q) : Z :=
  if Qle_bool 0 q then Qfloor q else Qceiling q.

(** The decimal text of an integer, as [String(n)] and template
    literals print it (for magnitudes below 10^21, where JavaScript
    switches to exponent notation). *)
Definition numberToString (z : Z) : jsstring :=
  str (NilZero.string_of_int (Z.to_int z)).

End JS.

Import JS.

(** The outcome of a method that may throw an [Error] with a message. *)
Inductive result (A : Type) :=
| Ok (a : A)
| Throw (message : jsstring).
Arguments Ok {A} a.
Arguments Throw {A} message.

(** ** MockDataGenerator (src/utils/mockDataGenerator.ts) *)

Module MockData.

(** A value held in a generated row.  Numbers are exact rationals;
    [CDate y m d] is the calendar date handed to [new Date(y, m, d)]. *)
Inductive cell :=
| CStr (s : jsstring)
| CNum (q : Q)
| CDate (y m d : Z)
| CUndefined.

(** An object literal: its keys in insertion order. *)
Definition row := list (jsstring * cell).

(** The result is an array of objects or, when formatted for Excel, an
    array of arrays. *)
Inductive output :=
| Objects (rows : list row)
| Arrays (rows : list (list cell)).

Definition outputLength (o : output) : nat :=
  match o with
  | Objects rows => length rows
  | Arrays rows => length rows
  end.

(** The optional flags are read for truthiness only; [maxRows] is
    absent or a number. *)
Record MockDataOptions := {
  includeHeaders : bool;
  formatForExcel : bool;
  maxRows : option number
}.

(** [options = {}] *)
Definition defaultOptions : MockDataOptions :=
  {| includeHeaders := false; formatForExcel := false; maxRows := None |}.

Record carrier := {
  name : jsstring;
  type : jsstring;
  region : jsstring;
  rating : Q
}.

Definition carriers : list carrier := [
  {| name := str "FedEx"; type := str "Express"; region := str "North America"; rating := 4.8 |};
  {| name := str "UPS"; type := str "Ground"; region := str "North America"; rating := 4.6 |};
  {| name := str "DHL"; type := str "International"; region := str "Global"; rating := 4.7 |};
  {| name := str "USPS"; type := str "Standard"; region := str "North America"; rating := 4.2 |};
  {| name := str "Amazon Logistics"; type := str "E-commerce"; region := str "North America"; rating := 4.5 |}
].

Definition origins : list jsstring := map str [
  "New York, NY"; "Los Angeles, CA"; "Chicago, IL"; "Houston, TX"; "Phoenix, AZ";
  "Philadelphia, PA"; "San Antonio, TX"; "San Diego, CA"; "Dallas, TX"; "San Jose, CA"
]%string.

Definition destinations : list jsstring := map str [
  "Miami, FL"; "Seattle, WA"; "Denver, CO"; "Boston, MA"; "Atlanta, GA";
  "Las Vegas, NV"; "Portland, OR"; "Austin, TX"; "Nashville, TN"; "Charlotte, NC"
]%string.

Definition serviceTypes : list jsstring :=
  map str ["Express"; "Ground"; "Air Freight"; "Ocean Freight"; "Rail"]%string.

(** *** The query classifiers *)

Definition isCarrierAnalysisQuery (sql : jsstring) : bool :=
  includes sql (str "carrier") &&
  (includes sql (str "group by") || includes sql (str "sum(") || includes sql (str "count(")).

Definition isTimeSeriesQuery (sql : jsstring) : bool :=
  includes sql (str "quarter") || includes sql (str "year") ||
  includes sql (str "month") || includes sql (str "date").

Definition isRouteAnalysisQuery (sql : jsstring) : bool :=
  includes sql (str "origin") || includes sql (str "destination") || includes sql (str "route").

Definition isPerformanceMetricsQuery (sql : jsstring) : bool :=
  includes sql (str "delivery_time") || includes sql (str "performance") || includes sql (str "rating").

Definition isCostAnalysisQuery (sql : jsstring) : bool :=
  includes sql (str "cost") &&
  (includes sql (str "sum(") || includes sql (str "avg(") || includes sql (str "total")).

Definition isTrendAnalysisQuery (sql : jsstring) : bool :=
  includes sql (str "trend") || includes sql (str "window") || includes sql (str "over(").

(** *** Formatting *)

(** [data.slice(0, n)]: the end is the integer part of [n], counted
    from the end of the array when it is negative. *)
Definition slice0 {A} (data : list A) (n : number) : list A :=
  match n with
  | Num q =>
      let k := truncate q in
      if (k <? 0)%Z then firstn (Z.to_nat (Z.of_nat (length data) + k)) data
      else firstn (Z.to_nat k) data
  | PlusInfinity => data
  | MinusInfinity | NaN => []
  end.

(** [row[header]] *)
Fixpoint getField (r : row) (header : jsstring) : cell :=
  match r with
  | [] => CUndefined
  | (k, v) :: r' => if eqs k header then v else getField r' header
  end.

Definition limitAndFormatData (data : list row) (options : MockDataOptions) : output :=
  let result :=
    match maxRows options with
    | Some n =>
        if truthy n && lengthExceeds (length data) n
        then slice0 data n else data
    | None => data
    end in
  if formatForExcel options then
    if includeHeaders options then
      let headers := map fst (hd [] result) in
      Arrays (map CStr headers :: map (fun r => map (getField r) headers) result)
    else Arrays (map (map snd) result)
  else Objects result.

(** The rows [limitAndFormatData] keeps: its variable [result] after
    the row limit. *)
Definition limitRows (data : list row) (options : MockDataOptions) : list row :=
  match maxRows options with
  | Some n =>
      if truthy n && lengthExceeds (length data) n
      then slice0 data n else data
  | None => data
  end.

(** A row limit of one or more. *)
Definition oneOrMore (n : number) : bool :=
  match n with
  | Num q => Qle_bool 1 q
  | PlusInfinity => true
  | MinusInfinity | NaN => false
  end.

(** The header row counts as a row of the output. *)
Definition headerRows (options : MockDataOptions) : nat :=
  if formatForExcel options && includeHeaders options then 1 else 0.

(** *** The generators

    [entropy k] stands for the outcome of the [k]-th call of
    [Math.random()]: a multiple of 2^-53 in [0, 1). *)

Section Generators.

Variable entropy : nat -> N.

Definition Math_random (k : nat) : Q :=
  Z.of_N (entropy k mod 2 ^ 53) # (2 ^ 53).

(** Computations that draw random numbers: the index of the next draw
    is threaded through. *)
Definition Rand (A : Type) : Type := nat -> A * nat.

Definition ret {A} (a : A) : Rand A := fun k => (a, k).

Definition bind {A B} (m : Rand A) (f : A -> Rand B) : Rand B :=
  fun k => let (a, k') := m k in f a k'.

Notation "x <- m ;; f" := (bind m (fun x => f))
  (at level 61, m at next level, right associativity).

Definition random : Rand Q := fun k => (Math_random k, S k).

Fixpoint mapM {A B} (f : A -> Rand B) (l : list A) : Rand (list B) :=
  match l with
  | [] => ret []
  | x :: l' => y <- f x ;; ys <- mapM f l' ;; ret (y :: ys)
  end.

Definition Math_round (q : Q) : Q := inject_Z (Qfloor (q + 0.5)).
Definition Math_floor (q : Q) : nat := Z.to_nat (Qfloor q).

(** [arr[Math.floor(Math.random() * arr.length)]] *)
Definition pick {A} (arr : list A) (d : A) : Rand A :=
  r <- random ;;
  ret (nth (Math_floor (r * inject_Z (Z.of_nat (length arr)))) arr d).

Definition noCarrier : carrier :=
  {| name := []; type := []; region := []; rating := 0 |}.

Definition generateCarrierAnalysisData (options : MockDataOptions) : Rand output :=
  data <- mapM (fun c =>
    r1 <- random ;; r2 <- random ;; r3 <- random ;;
    ret [ (str "carrier", CStr (name c));
          (str "total_cost", CNum (Math_round (r1 * 200000 + 50000)));
          (str "total_shipments", CNum (Math_round (r2 * 100 + 20)));
          (str "avg_cost_per_shipment", CNum (Math_round (r3 * 2000 + 500)));
          (str "service_type", CStr (type c));
          (str "region", CStr (region c));
          (str "rating", CNum (rating c)) ]) carriers ;;
  ret (limitAndFormatData data options).

Definition generateTimeSeriesData (options : MockDataOptions) : Rand output :=
  let quarters := map str ["Q1 2025"; "Q2 2025"; "Q3 2025"; "Q4 2025"]%string in
  data <- mapM (fun quarter =>
    r1 <- random ;; r2 <- random ;; r3 <- random ;;
    top <- pick carriers noCarrier ;;
    ret [ (str "quarter", CStr quarter);
          (str "year", CNum 2025);
          (str "total_cost", CNum (Math_round (r1 * 300000 + 100000)));
          (str "total_shipments", CNum (Math_round (r2 * 150 + 50)));
          (str "avg_delivery_time", CNum (Math_round (r3 * 5 + 2)));
          (str "top_carrier", CStr (name top)) ]) quarters ;;
  ret (limitAndFormatData data options).

Definition generateRouteAnalysisData (options : MockDataOptions) : Rand output :=
  data <- mapM (fun origin =>
    destination <- pick destinations [] ;;
    r1 <- random ;; r2 <- random ;; r3 <- random ;; r4 <- random ;;
    ret [ (str "origin", CStr origin);
          (str "destination", CStr destination);
          (str "distance_miles", CNum (Math_round (r1 * 2000 + 500)));
          (str "avg_cost", CNum (Math_round (r2 * 3000 + 500)));
          (str "total_shipments", CNum (Math_round (r3 * 50 + 10)));
          (str "cost_per_mile", CNum (Math_round ((r4 * 2 + 0.5) * 100) / 100)) ])
    (firstn 5 origins) ;;
  ret (limitAndFormatData data options).

Definition generatePerformanceMetricsData (options : MockDataOptions) : Rand output :=
  data <- mapM (fun c =>
    r1 <- random ;; r2 <- random ;; r3 <- random ;; r4 <- random ;;
    ret [ (str "carrier", CStr (name c));
          (str "avg_delivery_time_days", CNum (Math_round ((r1 * 3 + 1) * 10) / 10));
          (str "on_time_delivery_rate", CNum (Math_round ((r2 * 20 + 80) * 10) / 10));
          (str "customer_rating", CNum (rating c));
          (str "total_shipments", CNum (Math_round (r3 * 200 + 50)));
          (str "cost_per_mile", CNum (Math_round ((r4 * 1.5 + 0.3) * 100) / 100)) ]) carriers ;;
  ret (limitAndFormatData data options).

Definition costRow (category : string) (total percentage : Q) : row :=
  [ (str "cost_category", CStr (str category));
    (str "total_cost", CNum total);
    (str "percentage", CNum percentage) ].

Definition generateCostAnalysisData (options : MockDataOptions) : Rand output :=
  let data := [
    costRow "Freight Charges" 450000 65;
    costRow "Fuel Surcharges" 85000 12;
    costRow "Accessorial Charges" 62000 9;
    costRow "Insurance" 35000 5;
    costRow "Customs & Duties" 28000 4;
    costRow "Other Charges" 15000 2 ] in
  ret (limitAndFormatData data options).

(** The callback of [months.map] adds to [runningTotal], which lives
    outside it: the total is threaded from one month to the next. *)
Fixpoint trendRows (months : list jsstring) (index : nat) (runningTotal : Q)
  : Rand (list row) :=
  match months with
  | [] => ret []
  | month :: rest =>
      r1 <- random ;;
      let monthlyCost := Math_round (r1 * 50000 + 20000) in
      let runningTotal := (runningTotal + monthlyCost)%Q in
      growth <- (if 0 <? index
                 then r2 <- random ;; ret (Math_round ((r2 * 20 - 5) * 10) / 10)%Q
                 else ret 0%Q) ;;
      rows <- trendRows rest (S index) runningTotal ;;
      ret ([ (str "month", CStr month);
             (str "monthly_cost", CNum monthlyCost);
             (str "running_total", CNum runningTotal);
             (str "month_number", CNum (inject_Z (Z.of_nat index + 1)));
             (str "growth_rate", CNum growth) ] :: rows)
  end.

Definition generateTrendAnalysisData (options : MockDataOptions) : Rand output :=
  let months := map str ["Jan"; "Feb"; "Mar"; "Apr"; "May"; "Jun"]%string in
  data <- trendRows months 0 0 ;;
  ret (limitAndFormatData data options).

Definition generateBasicFreightData (options : MockDataOptions) : Rand output :=
  data <- mapM (fun i =>
    c <- pick carriers noCarrier ;;
    origin <- pick origins [] ;;
    destination <- pick destinations [] ;;
    r1 <- random ;; r2 <- random ;; r3 <- random ;; r4 <- random ;; r5 <- random ;;
    service <- pick serviceTypes [] ;;
    r6 <- random ;;
    status <- pick (map str ["Delivered"; "In Transit"; "Pending"]%string) [] ;;
    ret [ (str "id", CNum (inject_Z (Z.of_nat i + 1)));
          (str "carrier", CStr (name c));
          (str "origin", CStr origin);
          (str "destination", CStr destination);
          (str "cost", CNum (Math_round (r1 * 5000 + 500)));
          (str "weight", CNum (Math_round ((r2 * 100 + 10) * 10) / 10));
          (str "shipment_date",
             CDate 2025 (Z.of_nat (Math_floor (r3 * 12))) (Z.of_nat (Math_floor (r4 * 28)) + 1));
          (str "quarter",
             CStr (str "Q" ++ numberToString (Z.of_nat (Math_floor (r5 * 4)) + 1) ++ str " 2025"));
          (str "year", CNum 2025);
          (str "service_type", CStr service);
          (str "delivery_time_days", CNum (Math_round (r6 * 7 + 1)));
          (str "status", CStr status) ]) (seq 0 10) ;;
  ret (limitAndFormatData data options).

Definition generateDataFromSQL (sql : jsstring) (options : MockDataOptions) : Rand output :=
  let lowerSQL := toLowerCase sql in
  if isCarrierAnalysisQuery lowerSQL then generateCarrierAnalysisData options
  else if isTimeSeriesQuery lowerSQL then generateTimeSeriesData options
  else if isRouteAnalysisQuery lowerSQL then generateRouteAnalysisData options
  else if isPerformanceMetricsQuery lowerSQL then generatePerformanceMetricsData options
  else if isCostAnalysisQuery lowerSQL then generateCostAnalysisData options
  else if isTrendAnalysisQuery lowerSQL then generateTrendAnalysisData options
  else generateBasicFreightData options.

(** *** The selection as the description words it: a priority list of
    categories, each with a rule on the substrings of the lowercased
    query; the first category whose rule holds wins. *)

Inductive category :=
| CarrierAnalysis | TimeSeries | RouteAnalysis
| PerformanceMetrics | CostAnalysis | TrendAnalysis.

Definition priorityOrder : list category :=
  [CarrierAnalysis; TimeSeries; RouteAnalysis; PerformanceMetrics; CostAnalysis; TrendAnalysis].

(** The number of rows of each canned dataset; [None] is the basic
    freight dataset. *)
Definition rowCount (c : option category) : nat :=
  match c with
  | Some CarrierAnalysis => 5
  | Some TimeSeries => 4
  | Some RouteAnalysis => 5
  | Some PerformanceMetrics => 5
  | Some CostAnalysis => 6
  | Some TrendAnalysis => 6
  | None => 10
  end.

(** The rule of a category as a table: every text of [allOf] must
    occur in the query, and one of [anyOf] at least. *)
Record rule := {
  allOf : list string;
  anyOf : list string
}.

Definition ruleOf (c : category) : rule :=
  match c with
  | CarrierAnalysis =>
      {| allOf := ["carrier"]; anyOf := ["group by"; "sum("; "count("] |}
  | TimeSeries =>
      {| allOf := []; anyOf := ["quarter"; "year"; "month"; "date"] |}
  | RouteAnalysis =>
      {| allOf := []; anyOf := ["origin"; "destination"; "route"] |}
  | PerformanceMetrics =>
      {| allOf := []; anyOf := ["delivery_time"; "performance"; "rating"] |}
  | CostAnalysis =>
      {| allOf := ["cost"]; anyOf := ["sum("; "avg("; "total"] |}
  | TrendAnalysis =>
      {| allOf := []; anyOf := ["trend"; "window"; "over("] |}
  end%string.

Definition holds (r : rule) (lowerSQL : jsstring) : bool :=
  forallb (fun text => includes lowerSQL (str text)) (allOf r)
  && existsb (fun text => includes lowerSQL (str text)) (anyOf r).

Definition datasetOf (c : category) : MockDataOptions -> Rand output :=
  match c with
  | CarrierAnalysis => generateCarrierAnalysisData
  | TimeSeries => generateTimeSeriesData
  | RouteAnalysis => generateRouteAnalysisData
  | PerformanceMetrics => generatePerformanceMetricsData
  | CostAnalysis => generateCostAnalysisData
  | TrendAnalysis => generateTrendAnalysisData
  end.

Definition firstMatch (lowerSQL : jsstring) : option category :=
  find (fun c => holds (ruleOf c) lowerSQL) priorityOrder.

Definition selectedDataset (sql : jsstring) : MockDataOptions -> Rand output :=
  match firstMatch (toLowerCase sql) with
  | Some c => datasetOf c
  | None => generateBasicFreightData
  end.

(** *** Data for joins *)

Definition generateCarrierFreightJoinedData (options : MockDataOptions) : Rand output :=
  data <- mapM (fun c =>
    r1 <- random ;; r2 <- random ;; r3 <- random ;; r4 <- random ;;
    ret [ (str "carrier_name", CStr (name c));
          (str "carrier_type", CStr (type c));
          (str "carrier_region", CStr (region c));
          (str "carrier_rating", CNum (rating c));
          (str "total_freight_cost", CNum (Math_round (r1 * 200000 + 50000)));
          (str "total_shipments", CNum (Math_round (r2 * 100 + 20)));
          (str "avg_cost_per_shipment", CNum (Math_round (r3 * 2000 + 500)));
          (str "performance_score", CNum (Math_round ((r4 * 20 + 80) * 10) / 10)) ])
    carriers ;;
  ret (limitAndFormatData data options).

Definition generateRouteFreightJoinedData (options : MockDataOptions) : Rand output :=
  data <- mapM (fun origin =>
    destination <- pick destinations [] ;;
    r1 <- random ;; r2 <- random ;; r3 <- random ;; r4 <- random ;; r5 <- random ;;
    ret [ (str "origin", CStr origin);
          (str "destination", CStr destination);
          (str "route_distance", CNum (Math_round (r1 * 2000 + 500)));
          (str "typical_cost", CNum (Math_round (r2 * 3000 + 500)));
          (str "actual_avg_cost", CNum (Math_round (r3 * 3000 + 500)));
          (str "cost_variance", CNum (Math_round ((r4 * 1000 - 500) * 10) / 10));
          (str "shipment_count", CNum (Math_round (r5 * 50 + 10))) ])
    (firstn 5 origins) ;;
  ret (limitAndFormatData data options).

Definition generateJoinedData (sql : jsstring) (options : MockDataOptions) : Rand output :=
  let lowerSQL := toLowerCase sql in
  if includes lowerSQL (str "carriers") && includes lowerSQL (str "freight_data")
  then generateCarrierFreightJoinedData options
  else if includes lowerSQL (str "routes") && includes lowerSQL (str "freight_data")
  then generateRouteFreightJoinedData options
  else generateDataFromSQL sql options.

(** A generator whose rows do not depend on the options and all have
    the same keys, each once: [n] rows under the keys [keys]. *)
Definition uniformRows (g : MockDataOptions -> Rand output) (n : nat) : Prop :=
  forall k, exists data keys,
    (forall options, fst (g options k) = limitAndFormatData data options)
    /\ length data = n
    /\ NoDup keys
    /\ Forall (fun r => map fst r = keys) data.

End Generators.

End MockData.

(** ** ExportManager: the CSV writer *)

Module ExportManager.

(** A cell of [data: any[][]].  A number and an object are given by
    the text [String] prints for them ([42], [0.5], [1e+21],
    [[object Object]]): the writers below read nothing else of them. *)
Inductive value :=
| VNull
| VUndefined
| VString (s : jsstring)
| VNumber (printed : jsstring)
| VBoolean (b : bool)
| VObject (printed : jsstring).

(** [String(value)] *)
Definition String_ (v : value) : jsstring :=
  match v with
  | VNull => str "null"
  | VUndefined => str "undefined"
  | VString s => s
  | VNumber printed => printed
  | VBoolean true => str "true"
  | VBoolean false => str "false"
  | VObject printed => printed
  end.

Definition comma : ascii := ","%char.
Definition quote : ascii := "034"%char.

(** The global replace of every double quote by two. *)
Fixpoint doubleQuotes (s : jsstring) : jsstring :=
  match s with
  | [] => []
  | c :: s' =>
      if Ascii.eqb c quote then quote :: quote :: doubleQuotes s'
      else c :: doubleQuotes s'
  end.

Definition escapeCSV (v : value) : jsstring :=
  match v with
  | VNull | VUndefined => []
  | _ =>
      let stringValue := String_ v in
      if includes stringValue [comma] || includes stringValue [quote]
         || includes stringValue [LF]
      then quote :: doubleQuotes stringValue ++ [quote]
      else stringValue
  end.

(** One line of the file: [row.map(cell => this.escapeCSV(cell)).join(',') + '\n'] *)
Definition csvLine (row : list value) : jsstring :=
  join [comma] (map escapeCSV row) ++ [LF].

Record Metadata := {
  generatedAt : jsstring;
  executionTime : option Z
}.

Record ExportData := {
  sql : jsstring;
  question : jsstring;
  data : option (list (list value));
  metadata : option Metadata
}.

Record ExportOptions := {
  includeHeaders : bool;
  includeMetadata : bool
}.

(** The text handed to [downloadFile]. [nowISO] is
    [new Date().toISOString()]. *)
Definition exportToCSV (nowISO : jsstring) (d : ExportData) (options : ExportOptions)
  : result jsstring :=
  match data d with
  | None | Some [] => Throw (str "No data to export")
  | Some (headers :: rest) =>
      let meta :=
        if includeMetadata options then
          str "# SQL Query: " ++ sql d ++ [LF] ++
          str "# Question: " ++ question d ++ [LF] ++
          str "# Generated: " ++
            (match metadata d with
             | Some m => if eqs (generatedAt m) [] then nowISO else generatedAt m
             | None => nowISO
             end) ++ [LF] ++
          (match metadata d with
           | Some {| executionTime := Some t |} =>
               if (t =? 0)%Z then []
               else str "# Execution Time: " ++ numberToString t ++ str "ms" ++ [LF]
           | _ => []
           end) ++ [LF]
        else [] in
      if includeHeaders options
      then Ok (meta ++ csvLine headers ++ concat (map csvLine rest))
      else Ok (meta ++ concat (map csvLine (headers :: rest)))
  end.

(** *** Reading a field back

    The reader of the comma-separated format the writer targets: a field
    that opens with a double quote runs to its closing quote, a doubled
    quote inside standing for one; any other field is taken literally
    and may hold no comma, quote or line feed. *)

Fixpoint unquote (s : jsstring) : option jsstring :=
  match s with
  | [] => None
  | c :: rest =>
      if Ascii.eqb c quote then
        match rest with
        | [] => Some []
        | c' :: rest' =>
            if Ascii.eqb c' quote then option_map (cons quote) (unquote rest')
            else None
        end
      else option_map (cons c) (unquote rest)
  end.

Definition isSpecial (c : ascii) : bool :=
  Ascii.eqb c comma || Ascii.eqb c quote || Ascii.eqb c LF.

Definition unescapeCSV (field : jsstring) : option jsstring :=
  match field with
  | c :: rest =>
      if Ascii.eqb c quote then unquote rest
      else if existsb isSpecial field then None else Some field
  | [] => Some []
  end.

(** What a reader is to recover from the field written for a value. *)
Definition fieldText (v : value) : jsstring :=
  match v with
  | VNull | VUndefined => []
  | _ => String_ v
  end.

Definition consField (f : jsstring) (r : list jsstring * jsstring) :=
  (f :: fst r, snd r).

(** Reading a whole line: fields up to the line feed that ends the
    record.  [readQuoted] is inside a quoted field, [readPlain] inside an
    unquoted one; [acc] is the text of the field read so far, reversed. *)
Fixpoint readLine (s : jsstring) (inQuotes atStart : bool) (acc : jsstring)
  : option (list jsstring * jsstring) :=
  match s with
  | [] => None
  | c :: rest =>
      if inQuotes then
        if Ascii.eqb c quote then
          match rest with
          | c' :: rest' =>
              if Ascii.eqb c' quote then readLine rest' true false (quote :: acc)
              else if Ascii.eqb c' comma then
                option_map (consField (rev acc)) (readLine rest' false true [])
              else if Ascii.eqb c' LF then Some ([rev acc], rest')
              else None
          | [] => None
          end
        else readLine rest true false (c :: acc)
      else
        if Ascii.eqb c quote then
          if atStart then readLine rest true false [] else None
        else if Ascii.eqb c comma then
          option_map (consField (rev acc)) (readLine rest false true [])
        else if Ascii.eqb c LF then Some ([rev acc], rest)
        else readLine rest false false (c :: acc)
  end.

(** *** The standard reader

    The reader of RFC 4180 as CSV libraries implement it: a record ends
    at a line break outside quotes, and a line break is a line feed, a
    carriage return, or the two in a row.  A field that opens with a
    double quote runs to its closing quote, a doubled quote inside
    standing for one; any other field runs up to the next comma or line
    break. *)

(** The characters a field may not hold outside quotes. *)
Definition endsField (c : ascii) : bool :=
  Ascii.eqb c comma || Ascii.eqb c LF || Ascii.eqb c CR.

(** One field, given whole. *)
Definition unescapeStandard (field : jsstring) : option jsstring :=
  match field with
  | c :: rest =>
      if Ascii.eqb c quote then unquote rest
      else if existsb (fun x => endsField x || Ascii.eqb x quote) field then None
      else Some field
  | [] => Some []
  end.

(** The text after a carriage return that ended a record. *)
Definition afterCR (s : jsstring) : jsstring :=
  match s with
  | c :: rest => if Ascii.eqb c LF then rest else s
  | [] => []
  end.

(** The first record of a text and what follows it. *)
Fixpoint readRecord (s : jsstring) (inQuotes atStart : bool) (acc : jsstring)
  : option (list jsstring * jsstring) :=
  match s with
  | [] => None
  | c :: rest =>
      if inQuotes then
        if Ascii.eqb c quote then
          match rest with
          | c' :: rest' =>
              if Ascii.eqb c' quote then readRecord rest' true false (quote :: acc)
              else if Ascii.eqb c' comma then
                option_map (consField (rev acc)) (readRecord rest' false true [])
              else if Ascii.eqb c' LF then Some ([rev acc], rest')
              else if Ascii.eqb c' CR then Some ([rev acc], afterCR rest')
              else None
          | [] => None
          end
        else readRecord rest true false (c :: acc)
      else
        if Ascii.eqb c quote then
          if atStart then readRecord rest true false [] else None
        else if Ascii.eqb c comma then
          option_map (consField (rev acc)) (readRecord rest false true [])
        else if Ascii.eqb c LF then Some ([rev acc], rest)
        else if Ascii.eqb c CR then Some ([rev acc], afterCR rest)
        else readRecord rest false false (c :: acc)
  end.

(** The test [escapeCSV] makes before it quotes. *)
Definition quoted (stringValue : jsstring) : bool :=
  includes stringValue [comma] || includes stringValue [quote]
  || includes stringValue [LF].

(** A text that holds no carriage return, or is quoted by [escapeCSV]
    anyway. *)
Definition noBareCR (stringValue : jsstring) : bool :=
  negb (includes stringValue [CR]) || quoted stringValue.

(** *** The HTML writer of [exportToExcel] *)

(** [s.replace(/c/g, by)] for a pattern of one character. *)
Definition replaceChar (c : ascii) (replacement : jsstring) (s : jsstring) : jsstring :=
  flat_map (fun x => if Ascii.eqb x c then replacement else [x]) s.

Definition ampersand : ascii := "&"%char.
Definition lessThan : ascii := "<"%char.
Definition greaterThan : ascii := ">"%char.
Definition apostrophe : ascii := "'"%char.

Definition escapeHTML (v : value) : jsstring :=
  match v with
  | VNull | VUndefined => []
  | _ =>
      replaceChar apostrophe (str "&#39;")
        (replaceChar quote (str "&quot;")
           (replaceChar greaterThan (str "&gt;")
              (replaceChar lessThan (str "&lt;")
                 (replaceChar ampersand (str "&amp;") (String_ v)))))
  end.

(** The five replaces of [escapeHTML], one after the other. *)
Definition fivePasses (s : jsstring) : jsstring :=
  replaceChar apostrophe (str "&#39;")
    (replaceChar quote (str "&quot;")
       (replaceChar greaterThan (str "&gt;")
          (replaceChar lessThan (str "&lt;")
             (replaceChar ampersand (str "&amp;") s)))).

(** The reader of the five entities [escapeHTML] writes.  [skip]
    counts the characters of an entity still to pass over. *)
Fixpoint unescapeHTMLFrom (skip : nat) (s : jsstring) : jsstring :=
  match s with
  | [] => []
  | c :: s' =>
      match skip with
      | S k => unescapeHTMLFrom k s'
      | 0 =>
          if Ascii.eqb c ampersand then
            if startsWith s' (str "amp;") then ampersand :: unescapeHTMLFrom 4 s'
            else if startsWith s' (str "lt;") then lessThan :: unescapeHTMLFrom 3 s'
            else if startsWith s' (str "gt;") then greaterThan :: unescapeHTMLFrom 3 s'
            else if startsWith s' (str "quot;") then quote :: unescapeHTMLFrom 5 s'
            else if startsWith s' (str "#39;") then apostrophe :: unescapeHTMLFrom 4 s'
            else c :: unescapeHTMLFrom 0 s'
          else c :: unescapeHTMLFrom 0 s'
      end
  end.

Definition unescapeHTML (s : jsstring) : jsstring := unescapeHTMLFrom 0 s.

(** The characters with a meaning in HTML text and attribute values. *)
Definition isMarkup (c : ascii) : bool :=
  Ascii.eqb c lessThan || Ascii.eqb c greaterThan
  || Ascii.eqb c quote || Ascii.eqb c apostrophe.

(** The entity written for a character, or the character itself. *)
Definition entity (c : ascii) : jsstring :=
  if Ascii.eqb c ampersand then str "&amp;"
  else if Ascii.eqb c lessThan then str "&lt;"
  else if Ascii.eqb c greaterThan then str "&gt;"
  else if Ascii.eqb c quote then str "&quot;"
  else if Ascii.eqb c apostrophe then str "&#39;"
  else [c].

(** *** Reading a whole file back *)

Fixpoint readLines (fuel : nat) (s : jsstring) : option (list (list jsstring)) :=
  match s with
  | [] => Some []
  | _ :: _ =>
      match fuel with
      | 0 => None
      | S fuel' =>
          match readLine s false true [] with
          | Some (fields, rest) => option_map (cons fields) (readLines fuel' rest)
          | None => None
          end
      end
  end.

(** Every line takes at least one character, so the length of the
    text bounds the number of lines. *)
Definition readCSV (s : jsstring) : option (list (list jsstring)) :=
  readLines (length s) s.

(** *** [extractTableName] *)

Fixpoint takeWhile {A} (f : A -> bool) (l : list A) : list A :=
  match l with
  | [] => []
  | x :: l' => if f x then x :: takeWhile f l' else []
  end.

(** A literal matched under the [i] flag. *)
Fixpoint startsWithNoCase (s p : jsstring) : bool :=
  match p, s with
  | [], _ => true
  | _ :: _, [] => false
  | a :: p', b :: s' =>
      Ascii.eqb (toUpperChar a) (toUpperChar b) && startsWithNoCase s' p'
  end.

(** The literal occurs in the text, letter case aside. *)
Fixpoint includesNoCase (s p : jsstring) : bool :=
  startsWithNoCase s p ||
  match s with
  | [] => false
  | _ :: s' => includesNoCase s' p
  end.

(** The pattern tried at the head of the text: the letters FROM in any
    case, whitespace, and the word that follows, which is the capture. *)
Definition tableNameAt (s : jsstring) : option jsstring :=
  if startsWithNoCase s (str "FROM") then
    let rest := skipn 4 s in
    let afterSpace := dropWhile isSpace rest in
    if length afterSpace <? length rest then
      match takeWhile isWordChar afterSpace with
      | [] => None
      | name => Some name
      end
    else None
  else None.

(** [sql.match(...)] finds the leftmost position where the pattern
    matches. *)
Fixpoint extractTableName (sql : jsstring) : option jsstring :=
  match tableNameAt sql with
  | Some name => Some name
  | None =>
      match sql with
      | [] => None
      | _ :: sql' => extractTableName sql'
      end
  end.

End ExportManager.

(** ** localStorage

    What [localStorage.getItem(key)] yields for a key that holds JSON:
    nothing (or the empty text, which the code treats alike), a text
    that [JSON.parse] rejects, or the text of a value. *)

Inductive stored (A : Type) :=
| Missing
| Corrupt
| Json (v : A).
Arguments Missing {A}.
Arguments Corrupt {A}.
Arguments Json {A} v.

(** What [localStorage.setItem] does with one call: it stores the text,
    or it throws (the quota is exceeded, the storage is switched off).
    Which of the two is for the environment to say, call by call: it is
    an input of every function that writes. *)
Inductive writing :=
| Accepted
| Refused (message : jsstring).

(** A write inside [try { ... } catch (error) { console.error(...) }]:
    a refused write leaves the item as it was. *)
Definition guardedWrite {A} (w : writing) (v : A) (item : stored A) : stored A :=
  match w with
  | Accepted => Json v
  | Refused _ => item
  end.

(** [array.find(test)] followed by an assignment to a field of the item
    found: the first item that passes the test is changed in place; when
    there is none the array is not touched. *)
Fixpoint updateFirst {A} (test : A -> bool) (change : A -> A) (l : list A)
  : option (list A) :=
  match l with
  | [] => None
  | x :: l' =>
      if test x then Some (change x :: l')
      else option_map (cons x) (updateFirst test change l')
  end.

(** ** QueryHistoryManager (src/utils/queryHistory.ts) *)

Module QueryHistory.

Record QueryHistoryItem := {
  id : jsstring;
  question : jsstring;
  sql : jsstring;
  timestamp : Z;
  isFavorite : bool;
  category : option jsstring;
  tags : option (list jsstring);
  executionTime : option Z;
  success : bool;
  errorMessage : option jsstring
}.

(** The item under [STORAGE_KEY]. *)
Definition store := stored (list QueryHistoryItem).

Definition getHistory (st : store) : list QueryHistoryItem :=
  match st with
  | Missing => []
  | Corrupt => []
  | Json history => history
  end.

Definition saveHistory (history : list QueryHistoryItem) (w : writing) (st : store)
  : store :=
  guardedWrite w history st.

Definition sqlKeywords : list jsstring := map str
  ["select"; "from"; "where"; "group by"; "order by"; "join"; "union"; "cte"; "window"]%string.

Definition domainTerms : list jsstring := map str
  ["carrier"; "cost"; "freight"; "delivery"; "quarter"; "performance"; "route"]%string.

(** The tags come out in the order they were added to the set; the two
    word lists share no entry. *)
Definition extractTags (question sql : jsstring) : list jsstring :=
  let text := toLowerCase (question ++ str " " ++ sql) in
  filter (includes text) sqlKeywords ++ filter (includes text) domainTerms.

(** [history.splice(n)] leaves the first [n] items in the array. *)
Definition spliceFrom {A} (n : nat) (l : list A) : list A := firstn n l.

(** [freshId] is the outcome of [generateId()], [now] of [Date.now()],
    [w] of the [setItem] of [saveHistory]. *)
Definition addQuery (freshId : jsstring) (now : Z)
    (question sql : jsstring) (success : bool)
    (executionTime : option Z) (errorMessage : option jsstring)
    (w : writing) (st : store) : store * jsstring :=
  let history := getHistory st in
  let newItem := {|
    id := freshId;
    question := question;
    sql := sql;
    timestamp := now;
    isFavorite := false;
    category := None;
    tags := Some (extractTags question sql);
    executionTime := executionTime;
    success := success;
    errorMessage := errorMessage
  |} in
  let history := newItem :: history in
  let history := if 100 <? length history then spliceFrom 100 history else history in
  (saveHistory history w st, id newItem).

(** *** Search, deletion, favourites *)

Definition searchHistory (query : jsstring) (st : store) : list QueryHistoryItem :=
  let history := getHistory st in
  let lowerQuery := toLowerCase query in
  filter (fun item =>
            includes (toLowerCase (question item)) lowerQuery
            || includes (toLowerCase (sql item)) lowerQuery
            || match tags item with
               | Some ts => existsb (fun tag => includes (toLowerCase tag) lowerQuery) ts
               | None => false
               end)
         history.

(** [item.category === category]; an item without category matches no
    text. *)
Definition hasCategory (category' : jsstring) (item : QueryHistoryItem) : bool :=
  match category item with
  | Some c => eqs c category'
  | None => false
  end.

Definition getHistoryByCategory (category' : jsstring) (st : store)
  : list QueryHistoryItem :=
  filter (hasCategory category') (getHistory st).

Definition deleteQuery (id' : jsstring) (w : writing) (st : store) : store :=
  let history := getHistory st in
  let filtered := filter (fun item => negb (eqs (id item) id')) history in
  saveHistory filtered w st.

Definition clearHistory (w : writing) (st : store) : store := saveHistory [] w st.

Definition setFavorite (b : bool) (item : QueryHistoryItem) : QueryHistoryItem :=
  {| id := id item; question := question item; sql := sql item;
     timestamp := timestamp item; isFavorite := b; category := category item;
     tags := tags item; executionTime := executionTime item;
     success := success item; errorMessage := errorMessage item |}.

Definition setCategory (c : option jsstring) (item : QueryHistoryItem) : QueryHistoryItem :=
  {| id := id item; question := question item; sql := sql item;
     timestamp := timestamp item; isFavorite := isFavorite item; category := c;
     tags := tags item; executionTime := executionTime item;
     success := success item; errorMessage := errorMessage item |}.

Definition toggleFavorite (id' : jsstring) (w : writing) (st : store) : store :=
  let history := getHistory st in
  match updateFirst (fun h => eqs (id h) id')
                    (fun item => setFavorite (negb (isFavorite item)) item) history with
  | Some history => saveHistory history w st
  | None => st
  end.

Definition getFavorites (st : store) : list QueryHistoryItem :=
  filter isFavorite (getHistory st).

Definition addToFavorites (id' : jsstring) (w : writing) (st : store) : store :=
  toggleFavorite id' w st.

Definition removeFromFavorites (id' : jsstring) (w : writing) (st : store) : store :=
  toggleFavorite id' w st.

(** *** Categories *)

Record QueryCategory := {
  cid : jsstring;
  cname : jsstring;
  color : jsstring;
  cdescription : option jsstring
}.

(** The item under [CATEGORIES_KEY]. *)
Definition categoryStore := stored (list QueryCategory).

Definition cat (i n c d : string) : QueryCategory :=
  {| cid := str i; cname := str n; color := str c; cdescription := Some (str d) |}.

Definition getDefaultCategories : list QueryCategory := [
  cat "carrier-analysis" "Carrier Analysis" "#0078d4" "Carrier performance and cost analysis";
  cat "cost-analysis" "Cost Analysis" "#107c10" "Cost breakdown and optimization";
  cat "time-series" "Time Series" "#d83b01" "Trends and seasonal analysis";
  cat "performance" "Performance Metrics" "#b4009e" "Delivery and service metrics";
  cat "route-analysis" "Route Analysis" "#ff8c00" "Route optimization and efficiency";
  cat "general" "General Queries" "#6b69d6" "General freight data queries" ].

Definition getCategories (cs : categoryStore) : list QueryCategory :=
  match cs with
  | Missing => getDefaultCategories
  | Corrupt => getDefaultCategories
  | Json categories => categories
  end.

Definition saveCategories (categories : list QueryCategory) (w : writing)
    (cs : categoryStore) : categoryStore :=
  guardedWrite w categories cs.

(** [category] is the argument without its id, [freshId] the outcome
    of [generateId()]. *)
Definition addCategory (freshId : jsstring) (name color : jsstring)
    (description : option jsstring) (w : writing) (cs : categoryStore)
  : categoryStore * jsstring :=
  let categories := getCategories cs in
  let newCategory :=
    {| cid := freshId; cname := name; color := color; cdescription := description |} in
  (saveCategories (categories ++ [newCategory]) w cs, cid newCategory).

Definition updateQueryCategory (queryId categoryId : jsstring) (w : writing)
    (st : store) : store :=
  let history := getHistory st in
  match updateFirst (fun h => eqs (id h) queryId)
                    (setCategory (Some categoryId)) history with
  | Some history => saveHistory history w st
  | None => st
  end.

(** [wc] is the outcome of the write of the categories, [wh] of the
    write of the history that follows. *)
Definition deleteCategory (categoryId : jsstring) (wc wh : writing)
    (cs : categoryStore) (st : store) : categoryStore * store :=
  let categories := getCategories cs in
  let filtered := filter (fun c => negb (eqs (cid c) categoryId)) categories in
  let cs := saveCategories filtered wc cs in
  let history := getHistory st in
  let history :=
    map (fun item => if hasCategory categoryId item then setCategory None item else item)
        history in
  (cs, saveHistory history wh st).

End QueryHistory.

(** ** SchemaManager *)

Module Schema.

Record DatabaseColumn := {
  cname : jsstring;
  ctype : jsstring;
  nullable : bool;
  cdescription : option jsstring;
  defaultValue : option jsstring;
  constraints : option (list jsstring)
}.

Inductive ReferentialAction := CASCADE | SET_NULL | RESTRICT.

Record ForeignKey := {
  column : jsstring;
  referencesTable : jsstring;
  referencesColumn : jsstring;
  onDelete : option ReferentialAction;
  onUpdate : option ReferentialAction
}.

Record DatabaseTable := {
  tname : jsstring;
  tdescription : option jsstring;
  columns : list DatabaseColumn;
  primaryKey : option jsstring;
  indexes : option (list jsstring);
  foreignKeys : option (list ForeignKey)
}.

Record DatabaseSchema := {
  id : jsstring;
  name : jsstring;
  description : option jsstring;
  tables : list DatabaseTable;
  createdAt : Z;
  updatedAt : Z;
  isDefault : option bool;
  version : jsstring
}.

(** The two keys of the manager: [STORAGE_KEY] holds the JSON text of
    the schema array, [DEFAULT_SCHEMA_KEY] the id of the default one. *)
Record store := {
  schemasItem : stored (list DatabaseSchema);
  defaultSchemaItem : option jsstring
}.

Definition col (n t : string) (nullable : bool) (d : string) : DatabaseColumn :=
  {| cname := str n; ctype := str t; nullable := nullable;
     cdescription := Some (str d); defaultValue := None; constraints := None |}.

Definition table (n d : string) (cols : list DatabaseColumn) : DatabaseTable :=
  {| tname := str n; tdescription := Some (str d); columns := cols;
     primaryKey := Some (str "id"); indexes := None; foreignKeys := None |}.

(** [created] and [updated] are the two readings of [Date.now()]. *)
Definition createDefaultSchema (created updated : Z) : DatabaseSchema := {|
  id := str "default-freight-schema";
  name := str "Freight Analytics";
  description := Some (str "Default schema for freight and logistics analysis");
  tables := [
    table "freight_data" "Main freight shipment data" [
      col "id" "INT" false "Primary key";
      col "carrier" "VARCHAR(50)" false "Carrier name";
      col "origin" "VARCHAR(100)" false "Origin location";
      col "destination" "VARCHAR(100)" false "Destination location";
      col "cost" "DECIMAL(10,2)" false "Shipment cost";
      col "weight" "DECIMAL(8,2)" true "Shipment weight";
      col "shipment_date" "DATE" false "Shipment date";
      col "quarter" "VARCHAR(10)" false "Quarter";
      col "year" "INT" false "Year";
      col "service_type" "VARCHAR(50)" true "Service type";
      col "delivery_time_days" "INT" true "Delivery time in days";
      col "status" "VARCHAR(20)" false "Shipment status" ];
    table "carriers" "Carrier information" [
      col "id" "INT" false "Primary key";
      col "name" "VARCHAR(50)" false "Carrier name";
      col "type" "VARCHAR(20)" true "Carrier type";
      col "region" "VARCHAR(50)" true "Service region";
      col "rating" "DECIMAL(3,2)" true "Customer rating" ];
    table "routes" "Route information" [
      col "id" "INT" false "Primary key";
      col "origin" "VARCHAR(100)" false "Origin location";
      col "destination" "VARCHAR(100)" false "Destination location";
      col "distance_miles" "INT" true "Distance in miles";
      col "typical_cost" "DECIMAL(10,2)" true "Typical cost for route" ] ];
  createdAt := created;
  updatedAt := updated;
  isDefault := Some true;
  version := str "1.0"
|}.

(** What one call of [getSchemas] meets: the two readings of
    [Date.now()] that [createDefaultSchema] takes, should it be called,
    and what [setItem] does, should [saveSchemas] be called. *)
Record access := {
  createdNow : Z;
  updatedNow : Z;
  saving : writing
}.

Definition saveSchemas (schemas : list DatabaseSchema) (w : writing) (st : store)
  : store :=
  {| schemasItem := guardedWrite w schemas (schemasItem st);
     defaultSchemaItem := defaultSchemaItem st |}.

Definition getSchemas (e : access) (st : store) : store * list DatabaseSchema :=
  match schemasItem st with
  | Corrupt => (st, [createDefaultSchema (createdNow e) (updatedNow e)])
  | Missing | Json [] =>
      let schemas := [createDefaultSchema (createdNow e) (updatedNow e)] in
      (saveSchemas schemas (saving e) st, schemas)
  | Json schemas => (st, schemas)
  end.

(** Whether the list that [getSchemas] returns is what the store holds
    afterwards: the store held schemas, or it held none and the write
    of the built-in one is accepted. *)
Definition persisted (e : access) (st : store) : bool :=
  match schemasItem st with
  | Corrupt => false
  | Missing | Json [] =>
      match saving e with
      | Accepted => true
      | Refused _ => false
      end
  | Json (_ :: _) => true
  end.

Definition getSchema (e : access) (id' : jsstring) (st : store)
  : store * option DatabaseSchema :=
  let (st, schemas) := getSchemas e st in
  (st, find (fun s => eqs (id s) id') schemas).

(** [setItem] is called with no guard here: a refused write is thrown
    on to the caller. *)
Definition setDefaultSchema (id' : jsstring) (w : writing) (st : store)
  : store * result unit :=
  match w with
  | Accepted => ({| schemasItem := schemasItem st; defaultSchemaItem := Some id' |}, Ok tt)
  | Refused message => (st, Throw message)
  end.

(** An id the store holds under [DEFAULT_SCHEMA_KEY] counts when it is
    not the empty text.  [e] is what the first call of [getSchemas]
    meets, [e'] what the second meets when there is one. *)
Definition getDefaultSchema (e e' : access) (st : store) : store * DatabaseSchema :=
  let fallback e st :=
    let (st, schemas) := getSchemas e st in
    (st, hd (createDefaultSchema (createdNow e) (updatedNow e)) schemas) in
  match defaultSchemaItem st with
  | Some (c :: defaultId) =>
      match getSchema e (c :: defaultId) st with
      | (st, Some schema) => (st, schema)
      | (st, None) => fallback e' st
      end
  | _ => fallback e st
  end.

Definition lastSchemaMessage : jsstring := str "Cannot delete the last schema".

(** [w] is the outcome of the write of the schemas, [wd] of the write
    of the default id that may follow. *)
Definition deleteSchema (e : access) (w wd : writing) (id' : jsstring) (st : store)
  : store * result unit :=
  let (st, schemas) := getSchemas e st in
  let filtered := filter (fun s => negb (eqs (id s) id')) schemas in
  match filtered with
  | [] => (st, Throw lastSchemaMessage)
  | first :: _ =>
      let st := saveSchemas filtered w st in
      match defaultSchemaItem st with
      | Some defaultId =>
          if eqs defaultId id' then setDefaultSchema (id first) wd st
          else (st, Ok tt)
      | None => (st, Ok tt)
      end
  end.

(** *** Creating and copying schemas *)

(** The argument of [createSchema]: a schema without id, timestamps
    and version. *)
Record SchemaDraft := {
  draftName : jsstring;
  draftDescription : option jsstring;
  draftTables : list DatabaseTable;
  draftIsDefault : option bool
}.

(** [freshId] is the outcome of [generateId()]; [e] is what
    [getSchemas] meets, [created] and [updated] are the two readings of
    the clock that follow and [w] the outcome of the write. *)
Definition createSchema (freshId : jsstring) (e : access) (created updated : Z)
    (w : writing) (schema : SchemaDraft) (st : store) : store * jsstring :=
  let (st, schemas) := getSchemas e st in
  let newSchema := {|
    id := freshId;
    name := draftName schema;
    description := draftDescription schema;
    tables := draftTables schema;
    createdAt := created;
    updatedAt := updated;
    isDefault := draftIsDefault schema;
    version := str "1.0"
  |} in
  (saveSchemas (schemas ++ [newSchema]) w st, id newSchema).

Definition notFoundMessage : jsstring := str "Schema not found".

(** An absent description is printed by the template literal as the
    word for the absent value. *)
Definition descriptionText (d : option jsstring) : jsstring :=
  match d with
  | Some d => d
  | None => str "undefined"
  end.

Definition duplicateSchema (freshId : jsstring) (e e' : access) (created updated : Z)
    (w : writing) (id' newName : jsstring) (st : store) : store * result jsstring :=
  match getSchema e id' st with
  | (st, None) => (st, Throw notFoundMessage)
  | (st, Some original) =>
      let duplicated := {|
        draftName := newName;
        draftDescription := Some (descriptionText (description original) ++ str " (Copy)");
        draftTables := tables original;
        draftIsDefault := None
      |} in
      let (st, newId) := createSchema freshId e' created updated w duplicated st in
      (st, Ok newId)
  end.

(** *** Tables *)

Definition setTables (ts : list DatabaseTable) (updated : Z) (s : DatabaseSchema)
  : DatabaseSchema :=
  {| id := id s; name := name s; description := description s; tables := ts;
     createdAt := createdAt s; updatedAt := updated; isDefault := isDefault s;
     version := version s |}.

(** [updated] is the [Date.now()] written to [updatedAt], [w] the
    outcome of the write. *)
Definition addTable (e : access) (updated : Z) (w : writing) (schemaId : jsstring)
    (table : DatabaseTable) (st : store) : store * result unit :=
  let (st, schemas) := getSchemas e st in
  match updateFirst (fun s => eqs (id s) schemaId)
                    (fun s => setTables (tables s ++ [table]) updated s) schemas with
  | None => (st, Throw notFoundMessage)
  | Some schemas => (saveSchemas schemas w st, Ok tt)
  end.

Definition deleteTable (e : access) (updated : Z) (w : writing)
    (schemaId tableName : jsstring) (st : store) : store * result unit :=
  let (st, schemas) := getSchemas e st in
  match updateFirst (fun s => eqs (id s) schemaId)
                    (fun s => setTables
                                (filter (fun t => negb (eqs (tname t) tableName)) (tables s))
                                updated s)
                    schemas with
  | None => (st, Throw notFoundMessage)
  | Some schemas => (saveSchemas schemas w st, Ok tt)
  end.

(** *** [validateSchema] *)

(** [!text.trim()] *)
Definition blank (text : jsstring) : bool :=
  match trim text with
  | [] => true
  | _ :: _ => false
  end.

(** The loop over the columns of one table; [columnNames] is the set
    of the names seen so far. *)
Fixpoint columnErrors (tableName : jsstring) (columnNames : list jsstring)
    (cols : list DatabaseColumn) : list jsstring :=
  match cols with
  | [] => []
  | column :: rest =>
      let nameErrors :=
        if blank (cname column)
        then [str "Column name is required in table " ++ tableName]
        else if existsb (eqs (cname column)) columnNames
        then [str "Duplicate column name " ++ cname column ++ str " in table " ++ tableName]
        else [] in
      let columnNames :=
        if blank (cname column) || existsb (eqs (cname column)) columnNames
        then columnNames else cname column :: columnNames in
      let typeErrors :=
        if blank (ctype column)
        then [str "Column type is required for " ++ cname column
                ++ str " in table " ++ tableName]
        else [] in
      nameErrors ++ typeErrors ++ columnErrors tableName columnNames rest
  end.

(** The loop over the tables; [tableNames] is the set of the names
    seen so far. *)
Fixpoint tableErrors (tableNames : list jsstring) (ts : list DatabaseTable)
  : list jsstring :=
  match ts with
  | [] => []
  | table :: rest =>
      let nameErrors :=
        if blank (tname table) then [str "Table name is required"]
        else if existsb (eqs (tname table)) tableNames
        then [str "Duplicate table name: " ++ tname table]
        else [] in
      let tableNames :=
        if blank (tname table) || existsb (eqs (tname table)) tableNames
        then tableNames else tname table :: tableNames in
      let emptyErrors :=
        match columns table with
        | [] => [str "Table " ++ tname table ++ str " must have at least one column"]
        | _ :: _ => []
        end in
      nameErrors ++ emptyErrors ++ columnErrors (tname table) [] (columns table)
        ++ tableErrors tableNames rest
  end.

Record SchemaValidation := {
  isValid : bool;
  errors : list jsstring
}.

Definition validateSchema (schema : DatabaseSchema) : SchemaValidation :=
  let errors :=
    (if blank (name schema) then [str "Schema name is required"] else [])
    ++ (match tables schema with
        | [] => [str "Schema must have at least one table"]
        | _ :: _ => []
        end)
    ++ tableErrors [] (tables schema) in
  {| isValid := Nat.eqb (length errors) 0; errors := errors |}.

(** What [validateSchema] asks of a schema. *)
Definition wellFormedColumn (c : DatabaseColumn) : Prop :=
  blank (cname c) = false /\ blank (ctype c) = false.

Definition wellFormedTable (t : DatabaseTable) : Prop :=
  blank (tname t) = false
  /\ columns t <> []
  /\ NoDup (map cname (columns t))
  /\ Forall wellFormedColumn (columns t).

Definition wellFormed (schema : DatabaseSchema) : Prop :=
  blank (name schema) = false
  /\ tables schema <> []
  /\ NoDup (map tname (tables schema))
  /\ Forall wellFormedTable (tables schema).

End Schema.

(** ** SQLValidator

    The embedding covers the tokenizer and everything that writes to
    [errors], hence [isValid].  The arrays [warnings], [suggestions] and
    [performanceHints] are filled by code that never touches [errors]
    and are left out. *)

Module SQLValidator.

Inductive tokenType :=
| keyword | identifier | string_ | number | operator | punctuation | comment.

Definition tokenType_eqb (a b : tokenType) : bool :=
  match a, b with
  | keyword, keyword | identifier, identifier | string_, string_
  | number, number | operator, operator | punctuation, punctuation
  | comment, comment => true
  | _, _ => false
  end.

Record SQLToken := {
  type : tokenType;
  value : jsstring;
  line : nat;
  column : nat
}.

Inductive severity := error | warning | info.

Record ValidationError := {
  kind : severity;
  message : jsstring;
  errorLine : option nat;
  errorColumn : option nat;
  suggestion : option jsstring
}.

Record ValidationResult := {
  isValid : bool;
  errors : list ValidationError
}.

Definition SQL_KEYWORDS : list jsstring := map str [
  "SELECT"; "FROM"; "WHERE"; "GROUP BY"; "ORDER BY"; "HAVING"; "JOIN"; "LEFT JOIN"; "RIGHT JOIN";
  "INNER JOIN"; "OUTER JOIN"; "UNION"; "UNION ALL"; "WITH"; "AS"; "ON"; "AND"; "OR"; "IN";
  "BETWEEN"; "LIKE"; "IS NULL"; "IS NOT NULL"; "LIMIT"; "OFFSET"; "DISTINCT"; "COUNT"; "SUM";
  "AVG"; "MAX"; "MIN"; "CASE"; "WHEN"; "THEN"; "ELSE"; "END"; "OVER"; "PARTITION BY"; "ROW_NUMBER";
  "RANK"; "DENSE_RANK"; "LAG"; "LEAD"; "FIRST_VALUE"; "LAST_VALUE"
]%string.

(** [arr.includes(x)] *)
Definition arrayIncludes (arr : list jsstring) (x : jsstring) : bool :=
  existsb (eqs x) arr.

(** [sql.split('\n')] *)
Fixpoint splitLines (s : jsstring) (cur : jsstring) : list jsstring :=
  match s with
  | [] => [rev cur]
  | c :: s' =>
      if Ascii.eqb c LF then rev cur :: splitLines s' []
      else splitLines s' (c :: cur)
  end.

(** [s.split(/\s+/)]: the pieces between maximal runs of whitespace,
    the empty pieces at the two ends included. *)
Fixpoint splitSpaces (s : jsstring) (cur : jsstring) (inGap : bool) : list jsstring :=
  match s with
  | [] => [rev cur]
  | c :: s' =>
      if isSpace c then
        if inGap then splitSpaces s' [] true
        else rev cur :: splitSpaces s' [] true
      else splitSpaces s' (c :: cur) false
  end.

Definition nonEmpty (s : jsstring) : bool :=
  match s with [] => false | _ :: _ => true end.

Definition inSet (set : string) (c : ascii) : bool :=
  existsb (Ascii.eqb c) (str set).

(** [/^[0-9]+(\.[0-9]+)?$/] *)
Definition isNumberWord (w : jsstring) : bool :=
  let afterDigits := dropWhile isDigit w in
  match w with
  | [] => false
  | c :: _ =>
      isDigit c &&
      match afterDigits with
      | [] => true
      | dot :: frac => Ascii.eqb dot "."%char && nonEmpty frac && forallb isDigit frac
      end
  end.

Definition apostrophe : ascii := "'"%char.

(** The chain of tests that types a word. *)
Definition classify (word : jsstring) : tokenType :=
  if arrayIncludes SQL_KEYWORDS (toUpperCase word) then keyword
  else if isNumberWord word then number
  else if startsWith word [apostrophe] && endsWith word [apostrophe] then string_
  else if nonEmpty word && forallb (inSet "+-*/=<>!") word then operator
  else if nonEmpty word && forallb (inSet "(),;.") word then punctuation
  else identifier.

(** The inner loop over the words of one line. *)
Fixpoint tokenizeWords (words : list jsstring) (lineNum column : nat) : list SQLToken :=
  match words with
  | [] => []
  | word :: rest =>
      if nonEmpty word then
        {| type := classify word; value := word; line := lineNum + 1; column := column |}
          :: tokenizeWords rest lineNum (column + length word + 1)
      else tokenizeWords rest lineNum column
  end.

(** The outer loop over the lines. *)
Fixpoint tokenizeLines (lines : list jsstring) (lineNum : nat) : list SQLToken :=
  match lines with
  | [] => []
  | l :: rest =>
      let trimmedLine := trim l in
      if negb (nonEmpty trimmedLine) then tokenizeLines rest (S lineNum)
      else if startsWith trimmedLine (str "--") then
        {| type := comment; value := trimmedLine; line := lineNum + 1; column := 1 |}
          :: tokenizeLines rest (S lineNum)
      else
        tokenizeWords (splitSpaces trimmedLine [] false) lineNum 1
          ++ tokenizeLines rest (S lineNum)
  end.

Definition tokenize (sql : jsstring) : list SQLToken :=
  tokenizeLines (splitLines sql []) 0.

Definition err (msg : string) (l c : option nat) (s : option string) : ValidationError :=
  {| kind := error; message := str msg; errorLine := l; errorColumn := c; suggestion := option_map str s |}.

Definition missingSelect : ValidationError :=
  err "Missing SELECT clause" None None
      (Some "Add a SELECT clause to specify which columns to retrieve"%string).

Definition missingFrom : ValidationError :=
  err "Missing FROM clause" None None
      (Some "Add a FROM clause to specify the table(s) to query"%string).

Definition unmatchedOpening : ValidationError :=
  err "Unmatched opening parenthesis" None None
      (Some "Check for missing closing parentheses"%string).

(** The state of the loop of [validateBasicSyntax]. *)
Record scan := {
  hasSelect : bool;
  hasFrom : bool;
  parenCount : Z;
  pushed : list ValidationError
}.

Definition scanToken (s : scan) (token : SQLToken) : scan :=
  match type token with
  | keyword =>
      if eqs (toUpperCase (value token)) (str "SELECT") then
        {| hasSelect := true; hasFrom := hasFrom s;
           parenCount := parenCount s; pushed := pushed s |}
      else if eqs (toUpperCase (value token)) (str "FROM") then
        {| hasSelect := hasSelect s; hasFrom := true;
           parenCount := parenCount s; pushed := pushed s |}
      else s
  | punctuation =>
      if eqs (value token) (str "(") then
        {| hasSelect := hasSelect s; hasFrom := hasFrom s;
           parenCount := parenCount s + 1; pushed := pushed s |}
      else if eqs (value token) (str ")") then
        let count := (parenCount s - 1)%Z in
        {| hasSelect := hasSelect s; hasFrom := hasFrom s;
           parenCount := count;
           pushed :=
             if (count <? 0)%Z
             then pushed s ++ [err "Unmatched closing parenthesis"
                                   (Some (line token)) (Some (column token)) None]
             else pushed s |}
      else s
  | _ => s
  end.

(** The errors [validateBasicSyntax] appends to [errors]. *)
Definition validateBasicSyntax (tokens : list SQLToken) (errors : list ValidationError)
  : list ValidationError :=
  let s := fold_left scanToken tokens
             {| hasSelect := false; hasFrom := false; parenCount := 0; pushed := errors |} in
  pushed s
    ++ (if hasSelect s then [] else [missingSelect])
    ++ (if hasFrom s then [] else [missingFrom])
    ++ (if (0 <? parenCount s)%Z then [unmatchedOpening] else []).

(** The errors [validateSQLStructure] appends to [errors]. *)
Definition validateSQLStructure (tokens : list SQLToken) (errors : list ValidationError)
  : list ValidationError :=
  let keywords :=
    map (fun t => toUpperCase (value t))
        (filter (fun t => tokenType_eqb (type t) keyword) tokens) in
  let keywordSequence := join (str " ") keywords in
  errors
    ++ (if includes keywordSequence (str "GROUP BY")
           && negb (includes keywordSequence (str "SELECT"))
        then [err "GROUP BY without SELECT" None None
                  (Some "GROUP BY must be used with SELECT"%string)] else [])
    ++ (if includes keywordSequence (str "HAVING")
           && negb (includes keywordSequence (str "GROUP BY"))
        then [err "HAVING without GROUP BY" None None
                  (Some "HAVING must be used with GROUP BY"%string)] else [])
    ++ (if includes keywordSequence (str "ORDER BY")
           && negb (includes keywordSequence (str "SELECT"))
        then [err "ORDER BY without SELECT" None None
                  (Some "ORDER BY must be used with SELECT"%string)] else []).

(** [validatePerformance], [validateAgainstSchema] and
    [validateBestPractices] leave [errors] as it is, whatever the
    schema. *)
Definition validateSQL (sql : jsstring) : ValidationResult :=
  let tokens := tokenize sql in
  let errors := validateBasicSyntax tokens [] in
  let errors := validateSQLStructure tokens errors in
  {| isValid := Nat.eqb (length errors) 0; errors := errors |}.

(** *** The formatter *)

(** ['  '.repeat(indentLevel)] *)
Fixpoint indent (indentLevel : nat) : jsstring :=
  match indentLevel with
  | 0 => []
  | S n => " "%char :: " "%char :: indent n
  end.

(** The loop of [formatSQL] over the lines, [indentLevel] being the
    level the line finds. *)
Fixpoint formatLines (lines : list jsstring) (indentLevel : nat) : list jsstring :=
  match lines with
  | [] => []
  | l :: rest =>
      let trimmed := trim l in
      if negb (nonEmpty trimmed) then [] :: formatLines rest indentLevel
      else if startsWith trimmed (str "--")
      then (indent indentLevel ++ trimmed) :: formatLines rest indentLevel
      else
        let upperLine := toUpperCase trimmed in
        let indentLevel :=
          if startsWith upperLine (str "END") || startsWith upperLine (str ")")
          then Nat.pred indentLevel else indentLevel in
        (indent indentLevel ++ trimmed)
          :: formatLines rest
               (if startsWith upperLine (str "CASE") || startsWith upperLine (str "(")
                then S indentLevel else indentLevel)
  end.

Definition formatSQL (sql : jsstring) : jsstring :=
  join [LF] (formatLines (splitLines sql []) 0).

(** *** Notions used to state what the validator does *)

(** [t.type === 'keyword' && t.value.toUpperCase() === word] *)
Definition isKeywordToken (word : jsstring) (t : SQLToken) : bool :=
  tokenType_eqb (type t) keyword && eqs (toUpperCase (value t)) word.

Definition havingWithoutGroupBy : ValidationError :=
  err "HAVING without GROUP BY" None None
      (Some "HAVING must be used with GROUP BY"%string).

(** The characters of a text that are not whitespace. *)
Definition solid (s : jsstring) : jsstring := filter (fun c => negb (isSpace c)) s.

(** What holds of every token. *)
Definition tokenOk (t : SQLToken) : Prop :=
  value t <> [] /\ 1 <= line t /\ 1 <= column t
  /\ match type t with
     | comment => startsWith (value t) (str "--") = true /\ trim (value t) = value t
     | other => solid (value t) = value t /\ other = classify (value t)
     end.

End SQLValidator.

(** ** OpenAIService *)

Module OpenAIService.

Record SQLGenerationOptions := {
  includeComments : bool;
  limitResults : option Z;
  preferCTEs : bool;
  includePerformanceHints : bool
}.

(** *** The regular expressions of [postProcessSQL] and [formatSQL]

    Each global replace is written as the scan the engine performs: try
    the pattern at the current position; on a match emit the
    replacement and go on after the match, otherwise copy one character.
    [fuel] bounds the number of steps; the length of the text is always
    enough, since every step consumes a character. *)

Definition backtick : ascii := "`"%char.
Definition fence : jsstring := [backtick; backtick; backtick].

(** A literal matched under the [i] flag. *)
Fixpoint startsWithCI (s p : jsstring) : bool :=
  match p, s with
  | [], _ => true
  | _ :: _, [] => false
  | a :: p', b :: s' =>
      Ascii.eqb (toUpperChar a) (toUpperChar b) && startsWithCI s' p'
  end.

(** The replace of the opening fence, followed by greedy whitespace, by
    the empty text. *)
Fixpoint removeOpeningFencesN (fuel : nat) (s : jsstring) : jsstring :=
  match fuel with
  | 0 => s
  | S fuel' =>
      if startsWithCI s (fence ++ str "sql")
      then removeOpeningFencesN fuel' (dropWhile isSpace (skipn 6 s))
      else match s with
           | [] => []
           | c :: s' => c :: removeOpeningFencesN fuel' s'
           end
  end.

Definition removeOpeningFences (s : jsstring) : jsstring :=
  removeOpeningFencesN (length s) s.

(** The replace of a fence followed only by whitespace up to the end of
    the text. *)
Fixpoint removeClosingFence (s : jsstring) : jsstring :=
  if startsWith s fence && forallb isSpace (skipn 3 s) then []
  else match s with
       | [] => []
       | c :: s' => c :: removeClosingFence s'
       end.

Definition isWordAt (c : option ascii) : bool :=
  match c with
  | Some c => isWordChar c
  | None => false
  end.

(** [\b] between two neighbouring positions; [None] is an end of the
    text. *)
Definition wordBoundary (before after : option ascii) : bool :=
  xorb (isWordAt before) (isWordAt after).

Definition lastChar (s : jsstring) : option ascii := hd_error (rev s).

(** The pattern [\bKEYWORD\b] tried at the head of [s], the character
    before it being [prev]: the text after the match. *)
Definition matchKeyword (kw : jsstring) (prev : option ascii) (s : jsstring)
  : option jsstring :=
  let rest := skipn (length kw) s in
  if wordBoundary prev (hd_error s) && startsWithCI s kw
     && wordBoundary (lastChar (firstn (length kw) s)) (hd_error rest)
  then Some rest else None.

Fixpoint replaceKeywordN (fuel : nat) (kw : jsstring) (prev : option ascii)
    (s : jsstring) : jsstring :=
  match fuel with
  | 0 => s
  | S fuel' =>
      match matchKeyword kw prev s with
      | Some rest =>
          LF :: kw ++
          replaceKeywordN fuel' kw (lastChar (firstn (length kw) s)) rest
      | None =>
          match s with
          | [] => []
          | c :: s' => c :: replaceKeywordN fuel' kw (Some c) s'
          end
      end
  end.

(** The scan from a position inside the text, [prev] being the
    character before it. *)
Definition replaceKeywordAt (kw : jsstring) (prev : option ascii) (s : jsstring)
  : jsstring :=
  replaceKeywordN (length s) kw prev s.

(** [formatted.replace(regex, `\n${keyword}`)] *)
Definition replaceKeyword (kw : jsstring) (s : jsstring) : jsstring :=
  replaceKeywordAt kw None s.

(** After a line feed: the greedy whitespace and the last line feed in
    it, if there is one; the text after that line feed. *)
Fixpoint afterBlank (s : jsstring) : option jsstring :=
  match s with
  | [] => None
  | c :: s' =>
      if isSpace c then
        match afterBlank s' with
        | Some rest => Some rest
        | None => if Ascii.eqb c LF then Some s' else None
        end
      else None
  end.

(** The replace of a line feed, whitespace and a line feed by one line
    feed. *)
Fixpoint collapseBlankLinesN (fuel : nat) (s : jsstring) : jsstring :=
  match fuel with
  | 0 => s
  | S fuel' =>
      match s with
      | [] => []
      | c :: s' =>
          if Ascii.eqb c LF then
            match afterBlank s' with
            | Some rest => LF :: collapseBlankLinesN fuel' rest
            | None => c :: collapseBlankLinesN fuel' s'
            end
          else c :: collapseBlankLinesN fuel' s'
      end
  end.

Definition collapseBlankLines (s : jsstring) : jsstring :=
  collapseBlankLinesN (length s) s.

Definition keywords : list jsstring := map str [
  "SELECT"; "FROM"; "WHERE"; "GROUP BY"; "ORDER BY"; "HAVING";
  "JOIN"; "LEFT JOIN"; "RIGHT JOIN"; "INNER JOIN"; "OUTER JOIN";
  "UNION"; "UNION ALL"; "WITH"; "AS"; "ON"; "AND"; "OR"; "IN";
  "BETWEEN"; "LIKE"; "IS NULL"; "IS NOT NULL"; "LIMIT"; "OFFSET"
]%string.

(** The loop [keywords.forEach] over a list of keywords. *)
Definition replaceAll (ks : list jsstring) (sql : jsstring) : jsstring :=
  fold_left (fun formatted keyword => replaceKeyword keyword formatted) ks sql.

Definition formatSQL (sql : jsstring) : jsstring :=
  let formatted := replaceAll keywords sql in
  let formatted := collapseBlankLines formatted in
  trim formatted.

(** The text before [formatSQL] is applied: fences removed, trimmed,
    and the limit appended when asked for and no [limit] is in the
    text. *)
Definition stripFences (sql : jsstring) : jsstring :=
  trim (removeClosingFence (removeOpeningFences sql)).

Definition limitText (digits : jsstring) : jsstring := str "LIMIT " ++ digits.

Definition limitClause (n : Z) : jsstring :=
  LF :: limitText (numberToString n).

Definition withLimit (processedSQL : jsstring) (options : SQLGenerationOptions) : jsstring :=
  match limitResults options with
  | Some n =>
      if negb (n =? 0)%Z && negb (includes (toLowerCase processedSQL) (str "limit"))
      then processedSQL ++ limitClause n
      else processedSQL
  | None => processedSQL
  end.

Definition postProcessSQL (sql : jsstring) (options : SQLGenerationOptions) : jsstring :=
  formatSQL (withLimit (stripFences sql) options).

(** *** Notions used to state what the post-processing does *)


(** The text holds the keyword as a word of its own, in any letter
    case: the pattern of [formatSQL] for it matches somewhere. *)
Fixpoint containsWordAt (kw : jsstring) (prev : option ascii) (s : jsstring) : bool :=
  match matchKeyword kw prev s with
  | Some _ => true
  | None =>
      match s with
      | [] => false
      | c :: s' => containsWordAt kw (Some c) s'
      end
  end.

Definition hasLimitClause (sql : jsstring) : bool :=
  containsWordAt (str "LIMIT") None sql.

(** A reply wrapped in a markdown code block. *)
Definition fenced (query : jsstring) : jsstring :=
  fence ++ str "sql" ++ LF :: query ++ LF :: fence.

(** A keyword made of capital letters and single spaces, starting
    with a letter: all the keywords of [formatSQL] are. *)
Definition plainKeyword (kw : jsstring) : bool :=
  match kw with
  | [] => false
  | c :: _ => isUpper c && forallb (fun x => isUpper x || Ascii.eqb x " "%char) kw
  end.


(** No backtick at all. *)
Definition tickless (s : jsstring) : bool :=
  forallb (fun c => negb (Ascii.eqb c backtick)) s.

(** Backticks only. *)
Definition allTicks (s : jsstring) : bool :=
  forallb (fun c => Ascii.eqb c backtick) s.

(** A replace that copies characters and, here and there, puts a
    text without backticks, not empty, in the place of a stretch of the
    input. *)
Inductive rewrites : jsstring -> jsstring -> Prop :=
| rewrites_nil : rewrites [] []
| rewrites_copy c s out :
    rewrites s out -> rewrites (c :: s) (c :: out)
| rewrites_subst s matched rest a out :
    s = matched ++ rest -> tickless a = true -> a <> [] ->
    rewrites rest out -> rewrites s (a ++ out).

(** Before every character of [y], the text [y] followed by a fence
    does not start with a fence. *)
Fixpoint clear (y : jsstring) : Prop :=
  match y with
  | [] => True
  | c :: y' => startsWith (y ++ fence) fence = false /\ clear y'
  end.

Definition options (limit : option Z) : SQLGenerationOptions :=
  {| includeComments := false; limitResults := limit;
     preferCTEs := false; includePerformanceHints := false |}.

(** *** The rate limiter *)

Record state := {
  requestCount : nat;
  lastRequestTime : Z
}.

Definition initial : state := {| requestCount := 0; lastRequestTime := 0 |}.

Definition RATE_LIMIT_DELAY : Z := 1000.

(** The delay handed to [setTimeout], if the method sleeps at all.
    [now] is its reading of [Date.now()]. *)
Definition enforceRateLimit (now : Z) (st : state) : option Z :=
  let timeSinceLastRequest := (now - lastRequestTime st)%Z in
  if (timeSinceLastRequest <? RATE_LIMIT_DELAY)%Z
  then Some (RATE_LIMIT_DELAY - timeSinceLastRequest)%Z
  else None.

(** What the completion endpoint does with a request: it fails, or it
    answers with a message whose content may be absent. *)
Inductive response :=
| ApiError (message : jsstring)
| ApiReply (content : option jsstring).

(** One call of [generateSQL] as the environment shapes it: the clock
    reading of [enforceRateLimit]; how far off the requested delay the
    request is issued, by the clock of [Date.now()] (a timer may fire
    late, and by that clock also early: the code does not read the
    clock again); how long the request took and its outcome. *)
Record call := {
  calledAt : Z;
  timerSlack : Z;
  latency : N;
  outcome : response
}.

(** The time at which [openai.chat.completions.create] is entered. *)
Definition requestStart (c : call) (st : state) : Z :=
  match enforceRateLimit (calledAt c) st with
  | Some delay => (calledAt c + delay + timerSlack c)%Z
  | None => (calledAt c + timerSlack c)%Z
  end.

(** The [Date.now()] read once the response has arrived. *)
Definition requestEnd (c : call) (st : state) : Z :=
  (requestStart c st + Z.of_N (latency c))%Z.

Definition generateSQL (c : call) (options : SQLGenerationOptions) (st : state)
  : state * result jsstring :=
  match outcome c with
  | ApiError message => (st, Throw (str "Failed to generate SQL: " ++ message))
  | ApiReply content =>
      let st := {| requestCount := S (requestCount st);
                   lastRequestTime := requestEnd c st |} in
      match option_map trim content with
      | Some (ch :: sql) => (st, Ok (postProcessSQL (ch :: sql) options))
      | _ => (st, Throw (str "Failed to generate SQL: No SQL generated from OpenAI"))
      end
  end.

(** A session: calls issued one after the other, each awaited before
    the next.  The trace lists, per call, the state it found and the
    time its request started. *)
Fixpoint session (st : state) (calls : list (call * SQLGenerationOptions))
  : list (state * Z) :=
  match calls with
  | [] => []
  | (c, options) :: rest =>
      (st, requestStart c st) :: session (fst (generateSQL c options st)) rest
  end.

(** The state a session leaves. *)
Fixpoint after (st : state) (calls : list (call * SQLGenerationOptions)) : state :=
  match calls with
  | [] => st
  | (c, options) :: rest => after (fst (generateSQL c options st)) rest
  end.

(** The endpoint answered, with or without content. *)
Definition replied (c : call) : bool :=
  match outcome c with
  | ApiReply _ => true
  | ApiError _ => false
  end.

(** A line feed, whitespace and a line feed somewhere in the text: an
    empty line, or one of whitespace only, between two lines. *)
Fixpoint hasBlankLine (s : jsstring) : bool :=
  match s with
  | [] => false
  | c :: s' =>
      (Ascii.eqb c LF && match afterBlank s' with Some _ => true | None => false end)
      || hasBlankLine s'
  end.

End OpenAIService.

(** ** The fallback SQL generator of the task pane (src/App.tsx) *)

Module App.

(** A template literal that spans several lines. *)
Definition text (lines : list string) : jsstring := join [LF] (map str lines).

Definition generateMockSQL (question : jsstring) : jsstring :=
  let lowerQuestion := toLowerCase question in
  if includes lowerQuestion (str "carrier") && includes lowerQuestion (str "cost") then
    text [
      "-- Carrier cost analysis";
      "SELECT ";
      "  carrier, ";
      "  SUM(cost) as total_cost,";
      "  COUNT(*) as shipments,";
      "  AVG(cost) as avg_cost_per_shipment";
      "FROM freight_data ";
      "WHERE quarter = 'Q1 2025' ";
      "GROUP BY carrier";
      "ORDER BY total_cost DESC" ]%string
  else if includes lowerQuestion (str "quarter") || includes lowerQuestion (str "q1") then
    text [
      "-- Quarterly analysis";
      "SELECT ";
      "  quarter,";
      "  carrier,";
      "  SUM(cost) as total_cost,";
      "  COUNT(*) as shipment_count";
      "FROM freight_data ";
      "WHERE quarter = 'Q1 2025' ";
      "GROUP BY quarter, carrier";
      "ORDER BY quarter, total_cost DESC" ]%string
  else if includes lowerQuestion (str "total") || includes lowerQuestion (str "sum") then
    text [
      "-- Total freight analysis";
      "SELECT ";
      "  SUM(cost) as total_freight_cost,";
      "  COUNT(*) as total_shipments,";
      "  AVG(cost) as avg_shipment_cost";
      "FROM freight_data ";
      "WHERE quarter = 'Q1 2025'" ]%string
  else if includes lowerQuestion (str "performance")
          || includes lowerQuestion (str "delivery") then
    text [
      "-- Performance metrics";
      "SELECT ";
      "  carrier,";
      "  AVG(delivery_time_days) as avg_delivery_time,";
      "  COUNT(*) as total_shipments,";
      "  SUM(CASE WHEN status = 'Delivered' THEN 1 ELSE 0 END) as delivered_shipments";
      "FROM freight_data ";
      "WHERE quarter = 'Q1 2025'";
      "GROUP BY carrier";
      "ORDER BY avg_delivery_time ASC" ]%string
  else
    text [
      "-- General freight data";
      "SELECT ";
      "  carrier,";
      "  quarter,";
      "  cost,";
      "  shipment_date,";
      "  service_type";
      "FROM freight_data ";
      "WHERE quarter = 'Q1 2025'";
      "ORDER BY shipment_date DESC";
      "LIMIT 100" ]%string.

End App.

(** * Properties *)

(** ** The mock data generator *)

Section MockDataFacts.

Import MockData.

Variable entropy : nat -> N.

Lemma mapM_length {A B} (f : A -> Rand B) (l : list A) (k : nat) :
  length (fst (mapM f l k)) = length l.
Proof.
  revert k. induction l as [|x l IH]; intros k; simpl; [reflexivity|].
  unfold bind. destruct (f x k) as [y k1]. specialize (IH k1).
  destruct (mapM f l k1) as [ys k2]. simpl in *. now rewrite IH.
Qed.

Lemma trendRows_length months index total k :
  length (fst (trendRows entropy months index total k)) = length months.
Proof.
  revert index total k.
  induction months as [|m months IH]; intros index total k; simpl; [reflexivity|].
  unfold bind, random.
  destruct (0 <? index); simpl;
    match goal with
    | |- context [trendRows entropy months ?i ?t ?k'] =>
        specialize (IH i t k'); destruct (trendRows entropy months i t k') as [rows k2]
    end; simpl in *; now rewrite IH.
Qed.

Lemma limitAndFormatData_default data :
  limitAndFormatData data defaultOptions = Objects data.
Proof. reflexivity. Qed.

(** With the default options every generator returns its rows as they
    are. *)
Lemma bind_mapM_default {A} (f : A -> Rand row) (l : list A) (k : nat) :
  fst (bind (mapM f l) (fun data => ret (limitAndFormatData data defaultOptions)) k)
  = Objects (fst (mapM f l k)).
Proof. unfold bind, ret. now destruct (mapM f l k). Qed.

Lemma dataset_rows (c : option category) (k : nat) :
  exists rows,
    fst (match c with
         | Some c => datasetOf entropy c
         | None => generateBasicFreightData entropy
         end defaultOptions k) = Objects rows
    /\ length rows = rowCount c.
Proof.
  destruct c as [[]|]; cbn [datasetOf rowCount];
    try (unfold generateCarrierAnalysisData, generateTimeSeriesData,
           generateRouteAnalysisData, generatePerformanceMetricsData,
           generateBasicFreightData;
         rewrite bind_mapM_default; eexists; split; [reflexivity|];
         now rewrite mapM_length).
  - eexists; split; reflexivity.
  - unfold generateTrendAnalysisData, bind, ret.
    match goal with
    | |- context [trendRows entropy ?m ?i ?t ?k'] =>
        pose proof (trendRows_length m i t k') as H;
        destruct (trendRows entropy m i t k') as [rows k2]
    end.
    eexists; split; [reflexivity|]. exact H.
Qed.

(** The classifiers of the source test what the table says. *)
Lemma classifiers_follow_table (lowerSQL : jsstring) :
  isCarrierAnalysisQuery lowerSQL = holds (ruleOf CarrierAnalysis) lowerSQL
  /\ isTimeSeriesQuery lowerSQL = holds (ruleOf TimeSeries) lowerSQL
  /\ isRouteAnalysisQuery lowerSQL = holds (ruleOf RouteAnalysis) lowerSQL
  /\ isPerformanceMetricsQuery lowerSQL = holds (ruleOf PerformanceMetrics) lowerSQL
  /\ isCostAnalysisQuery lowerSQL = holds (ruleOf CostAnalysis) lowerSQL
  /\ isTrendAnalysisQuery lowerSQL = holds (ruleOf TrendAnalysis) lowerSQL.
Proof.
  unfold isCarrierAnalysisQuery, isTimeSeriesQuery, isRouteAnalysisQuery,
    isPerformanceMetricsQuery, isCostAnalysisQuery, isTrendAnalysisQuery, holds.
  cbn [ruleOf allOf anyOf forallb existsb andb].
  rewrite !andb_true_r, !orb_false_r, !orb_assoc. repeat split; reflexivity.
Qed.

(** C2. [generateDataFromSQL] lowercases the query and selects by
    substring matching: the categories are tried in the order carrier
    analysis, time series, route analysis, performance metrics, cost
    analysis, trend analysis, each by its rule on the texts that occur
    in the lowercased query.  The result is the dataset of the first
    category whose rule holds and the basic freight dataset when none
    does.  The rules are these: carrier analysis asks for [carrier] and
    one of [group by], [sum(], [count(]; time series for one of
    [quarter], [year], [month], [date]; route analysis for one of
    [origin], [destination], [route]; performance metrics for one of
    [delivery_time], [performance], [rating]; cost analysis for [cost]
    and one of [sum(], [avg(], [total]; trend analysis for one of
    [trend], [window], [over(].  The basic freight dataset has ten
    rows, and with the default options the result is never empty. *)
Theorem generateDataFromSQL_first_match (sql : jsstring) :
  (forall options,
      generateDataFromSQL entropy sql options
      = match find (fun c => holds (ruleOf c) (toLowerCase sql))
                   [CarrierAnalysis; TimeSeries; RouteAnalysis;
                    PerformanceMetrics; CostAnalysis; TrendAnalysis] with
        | Some c => datasetOf entropy c options
        | None => generateBasicFreightData entropy options
        end)
  /\ (let l := toLowerCase sql in
      holds (ruleOf CarrierAnalysis) l
      = includes l (str "carrier")
        && (includes l (str "group by") || includes l (str "sum(")
            || includes l (str "count("))
      /\ holds (ruleOf TimeSeries) l
         = includes l (str "quarter") || includes l (str "year")
           || includes l (str "month") || includes l (str "date")
      /\ holds (ruleOf RouteAnalysis) l
         = includes l (str "origin") || includes l (str "destination")
           || includes l (str "route")
      /\ holds (ruleOf PerformanceMetrics) l
         = includes l (str "delivery_time") || includes l (str "performance")
           || includes l (str "rating")
      /\ holds (ruleOf CostAnalysis) l
         = includes l (str "cost")
           && (includes l (str "sum(") || includes l (str "avg(")
               || includes l (str "total"))
      /\ holds (ruleOf TrendAnalysis) l
         = includes l (str "trend") || includes l (str "window")
           || includes l (str "over("))
  /\ (forall k, exists rows,
        fst (generateBasicFreightData entropy defaultOptions k) = Objects rows
        /\ length rows = 10)
  /\ (forall k, exists rows,
        fst (generateDataFromSQL entropy sql defaultOptions k) = Objects rows
        /\ rows <> []).
Proof.
  assert (Hsel : forall options,
             generateDataFromSQL entropy sql options
             = selectedDataset entropy sql options).
  { intros options. unfold generateDataFromSQL, selectedDataset, firstMatch, priorityOrder.
    destruct (classifiers_follow_table (toLowerCase sql))
      as (-> & -> & -> & -> & -> & ->).
    cbn [find].
    destruct (holds (ruleOf CarrierAnalysis) _); [reflexivity|].
    destruct (holds (ruleOf TimeSeries) _); [reflexivity|].
    destruct (holds (ruleOf RouteAnalysis) _); [reflexivity|].
    destruct (holds (ruleOf PerformanceMetrics) _); [reflexivity|].
    destruct (holds (ruleOf CostAnalysis) _); [reflexivity|].
    destruct (holds (ruleOf TrendAnalysis) _); reflexivity. }
  split; [|split; [|split]].
  - intros options. rewrite Hsel. unfold selectedDataset, firstMatch, priorityOrder.
    now destruct (find _ _).
  - cbv zeta.
    destruct (classifiers_follow_table (toLowerCase sql))
      as (<- & <- & <- & <- & <- & <-).
    repeat split.
  - intros k. exact (dataset_rows None k).
  - intros k. rewrite Hsel. unfold selectedDataset.
    destruct (dataset_rows (firstMatch (toLowerCase sql)) k) as [rows [Hrows Hlen]].
    exists rows. split; [exact Hrows|].
    intros ->. destruct (firstMatch (toLowerCase sql)) as [[]|]; discriminate.
Qed.

End MockDataFacts.

(** ** The CSV writer *)

Section ExportFacts.

Import ExportManager.

Lemma startsWith_nil (s : jsstring) : startsWith s [] = true.
Proof. now destruct s. Qed.

Lemma includes_char (s : jsstring) (c : ascii) :
  includes s [c] = existsb (fun x => Ascii.eqb x c) s.
Proof.
  induction s as [|b s IH]; cbn [includes startsWith existsb]; [reflexivity|].
  now rewrite IH, startsWith_nil, andb_true_r, Ascii.eqb_sym.
Qed.

Lemma existsb_or {A} (f g : A -> bool) (l : list A) :
  existsb (fun x => f x || g x) l = existsb f l || existsb g l.
Proof.
  induction l as [|x l IH]; cbn [existsb]; [reflexivity|].
  rewrite IH. destruct (f x), (g x), (existsb f l); reflexivity.
Qed.

Lemma special_test (s : jsstring) :
  includes s [comma] || includes s [quote] || includes s [LF] = existsb isSpecial s.
Proof.
  rewrite !includes_char. unfold isSpecial. now rewrite !existsb_or.
Qed.

Lemma unquote_doubleQuotes (s : jsstring) :
  unquote (doubleQuotes s ++ [quote]) = Some s.
Proof.
  induction s as [|c s IH]; simpl; [reflexivity|].
  destruct (Ascii.eqb c quote) eqn:E; simpl.
  - apply Ascii.eqb_eq in E; subst c. simpl. now rewrite IH.
  - rewrite E, IH. reflexivity.
Qed.

Lemma escapeCSV_cases (v : value) :
  escapeCSV v =
    if existsb isSpecial (fieldText v)
    then quote :: doubleQuotes (fieldText v) ++ [quote]
    else fieldText v.
Proof.
  destruct v; try reflexivity; unfold escapeCSV, fieldText; now rewrite special_test.
Qed.

Lemma unescape_escape (v : value) :
  unescapeCSV (escapeCSV v) = Some (fieldText v).
Proof.
  rewrite escapeCSV_cases.
  destruct (existsb isSpecial (fieldText v)) eqn:E.
  - simpl. apply unquote_doubleQuotes.
  - destruct (fieldText v) as [|c s] eqn:F; [reflexivity|].
    unfold unescapeCSV. rewrite E.
    simpl in E. apply orb_false_iff in E as [E _].
    unfold isSpecial in E. apply orb_false_iff in E as [E _].
    apply orb_false_iff in E as [_ E]. now rewrite E.
Qed.

Lemma not_special (c : ascii) :
  isSpecial c = false ->
  Ascii.eqb c quote = false /\ Ascii.eqb c comma = false /\ Ascii.eqb c LF = false.
Proof.
  unfold isSpecial. intros H.
  apply orb_false_iff in H as [H Hlf]. apply orb_false_iff in H as [Hc Hq].
  now repeat split.
Qed.

Lemma readLine_plain_comma (s tail acc : jsstring) (atStart : bool) :
  existsb isSpecial s = false ->
  readLine (s ++ comma :: tail) false atStart acc
  = option_map (consField (rev acc ++ s)) (readLine tail false true []).
Proof.
  revert acc atStart. induction s as [|c s IH]; intros acc atStart H.
  - cbn. now rewrite app_nil_r.
  - cbn [existsb] in H. apply orb_false_iff in H as [Hc Hs].
    apply not_special in Hc as (Hq & Hcomma & Hlf).
    cbn [app readLine]. rewrite Hq, Hcomma, Hlf, (IH _ _ Hs).
    cbn [rev]. now rewrite <- app_assoc.
Qed.

Lemma readLine_plain_end (s tail acc : jsstring) (atStart : bool) :
  existsb isSpecial s = false ->
  readLine (s ++ LF :: tail) false atStart acc = Some ([rev acc ++ s], tail).
Proof.
  revert acc atStart. induction s as [|c s IH]; intros acc atStart H.
  - cbn. now rewrite app_nil_r.
  - cbn [existsb] in H. apply orb_false_iff in H as [Hc Hs].
    apply not_special in Hc as (Hq & Hcomma & Hlf).
    cbn [app readLine]. rewrite Hq, Hcomma, Hlf, (IH _ _ Hs).
    cbn [rev]. now rewrite <- app_assoc.
Qed.

Lemma readLine_quoted_comma (s tail acc : jsstring) :
  readLine (doubleQuotes s ++ quote :: comma :: tail) true false acc
  = option_map (consField (rev acc ++ s)) (readLine tail false true []).
Proof.
  revert acc. induction s as [|c s IH]; intros acc; simpl.
  - now rewrite app_nil_r.
  - destruct (Ascii.eqb c quote) eqn:E; simpl.
    + apply Ascii.eqb_eq in E; subst c. simpl. rewrite IH. simpl.
      now rewrite <- app_assoc.
    + rewrite E, IH. simpl. now rewrite <- app_assoc.
Qed.

Lemma readLine_quoted_end (s tail acc : jsstring) :
  readLine (doubleQuotes s ++ quote :: LF :: tail) true false acc
  = Some ([rev acc ++ s], tail).
Proof.
  revert acc. induction s as [|c s IH]; intros acc; simpl.
  - now rewrite app_nil_r.
  - destruct (Ascii.eqb c quote) eqn:E; simpl.
    + apply Ascii.eqb_eq in E; subst c. simpl. rewrite IH. simpl.
      now rewrite <- app_assoc.
    + rewrite E, IH. simpl. now rewrite <- app_assoc.
Qed.

Lemma readLine_field_comma (v : value) (tail : jsstring) :
  readLine (escapeCSV v ++ comma :: tail) false true []
  = option_map (consField (fieldText v)) (readLine tail false true []).
Proof.
  rewrite escapeCSV_cases. destruct (existsb isSpecial (fieldText v)) eqn:E.
  - cbn [app]. rewrite <- app_assoc. cbn [app readLine].
    change (Ascii.eqb quote quote) with true. cbn iota.
    now rewrite readLine_quoted_comma.
  - now rewrite (readLine_plain_comma _ _ _ _ E).
Qed.

Lemma readLine_field_end (v : value) (tail : jsstring) :
  readLine (escapeCSV v ++ LF :: tail) false true []
  = Some ([fieldText v], tail).
Proof.
  rewrite escapeCSV_cases. destruct (existsb isSpecial (fieldText v)) eqn:E.
  - cbn [app]. rewrite <- app_assoc. cbn [app readLine].
    change (Ascii.eqb quote quote) with true. cbn iota.
    now rewrite readLine_quoted_end.
  - now rewrite (readLine_plain_end _ _ _ _ E).
Qed.

Lemma csvLine_cons (v w : value) (row : list value) (tail : jsstring) :
  csvLine (v :: w :: row) ++ tail = escapeCSV v ++ comma :: (csvLine (w :: row) ++ tail).
Proof.
  unfold csvLine.
  change (join [comma] (map escapeCSV (v :: w :: row)))
    with (escapeCSV v ++ [comma] ++ join [comma] (map escapeCSV (w :: row))).
  now rewrite <- !app_assoc.
Qed.

Lemma readLine_csvLine (v : value) (row : list value) (tail : jsstring) :
  readLine (csvLine (v :: row) ++ tail) false true []
  = Some (map fieldText (v :: row), tail).
Proof.
  revert v. induction row as [|w row IH]; intros v.
  - unfold csvLine. cbn [map join]. rewrite <- app_assoc. apply readLine_field_end.
  - rewrite csvLine_cons, readLine_field_comma, IH. reflexivity.
Qed.

(** *** The standard reader on what the writer writes *)

Lemma quoted_test (s : jsstring) : quoted s = existsb isSpecial s.
Proof. apply special_test. Qed.

(** A text that [escapeCSV] leaves as it is and that holds no carriage
    return has no character that ends a field. *)
Lemma plain_field (s : jsstring) :
  quoted s = false -> noBareCR s = true ->
  existsb (fun x => endsField x || Ascii.eqb x quote) s = false.
Proof.
  unfold noBareCR. intros Hq. rewrite Hq, orb_false_r, quoted_test in *.
  rewrite includes_char. intros Hcr. apply negb_true_iff in Hcr.
  induction s as [|c s IH]; [reflexivity|].
  cbn [existsb] in *. apply orb_false_iff in Hq as [Hc Hs].
  apply orb_false_iff in Hcr as [Hc' Hs'].
  rewrite (IH Hs Hs'), orb_false_r.
  apply not_special in Hc as (Hquote & Hcomma & Hlf).
  unfold endsField. now rewrite Hquote, Hcomma, Hlf, Hc'.
Qed.

Lemma not_ending (c : ascii) :
  endsField c || Ascii.eqb c quote = false ->
  Ascii.eqb c quote = false /\ Ascii.eqb c comma = false
  /\ Ascii.eqb c LF = false /\ Ascii.eqb c CR = false.
Proof.
  unfold endsField. intros H.
  apply orb_false_iff in H as [H Hq]. apply orb_false_iff in H as [H Hcr].
  apply orb_false_iff in H as [Hc Hlf]. now repeat split.
Qed.

Lemma readRecord_plain_comma (s tail acc : jsstring) (atStart : bool) :
  existsb (fun x => endsField x || Ascii.eqb x quote) s = false ->
  readRecord (s ++ comma :: tail) false atStart acc
  = option_map (consField (rev acc ++ s)) (readRecord tail false true []).
Proof.
  revert acc atStart. induction s as [|c s IH]; intros acc atStart H.
  - cbn. now rewrite app_nil_r.
  - cbn [existsb] in H. apply orb_false_iff in H as [Hc Hs].
    apply not_ending in Hc as (Hq & Hcomma & Hlf & Hcr).
    cbn [app readRecord]. rewrite Hq, Hcomma, Hlf, Hcr, (IH _ _ Hs).
    cbn [rev]. now rewrite <- app_assoc.
Qed.

Lemma readRecord_plain_end (s tail acc : jsstring) (atStart : bool) :
  existsb (fun x => endsField x || Ascii.eqb x quote) s = false ->
  readRecord (s ++ LF :: tail) false atStart acc = Some ([rev acc ++ s], tail).
Proof.
  revert acc atStart. induction s as [|c s IH]; intros acc atStart H.
  - cbn. now rewrite app_nil_r.
  - cbn [existsb] in H. apply orb_false_iff in H as [Hc Hs].
    apply not_ending in Hc as (Hq & Hcomma & Hlf & Hcr).
    cbn [app readRecord]. rewrite Hq, Hcomma, Hlf, Hcr, (IH _ _ Hs).
    cbn [rev]. now rewrite <- app_assoc.
Qed.

Lemma readRecord_quoted_comma (s tail acc : jsstring) :
  readRecord (doubleQuotes s ++ quote :: comma :: tail) true false acc
  = option_map (consField (rev acc ++ s)) (readRecord tail false true []).
Proof.
  revert acc. induction s as [|c s IH]; intros acc; simpl.
  - now rewrite app_nil_r.
  - destruct (Ascii.eqb c quote) eqn:E; simpl.
    + apply Ascii.eqb_eq in E; subst c. simpl. rewrite IH. simpl.
      now rewrite <- app_assoc.
    + rewrite E, IH. simpl. now rewrite <- app_assoc.
Qed.

Lemma readRecord_quoted_end (s tail acc : jsstring) :
  readRecord (doubleQuotes s ++ quote :: LF :: tail) true false acc
  = Some ([rev acc ++ s], tail).
Proof.
  revert acc. induction s as [|c s IH]; intros acc; simpl.
  - now rewrite app_nil_r.
  - destruct (Ascii.eqb c quote) eqn:E; simpl.
    + apply Ascii.eqb_eq in E; subst c. simpl. rewrite IH. simpl.
      now rewrite <- app_assoc.
    + rewrite E, IH. simpl. now rewrite <- app_assoc.
Qed.

Lemma escapeCSV_quoted (v : value) :
  escapeCSV v =
    if quoted (fieldText v)
    then quote :: doubleQuotes (fieldText v) ++ [quote]
    else fieldText v.
Proof. rewrite quoted_test. apply escapeCSV_cases. Qed.

Lemma readRecord_field_comma (v : value) (tail : jsstring) :
  noBareCR (fieldText v) = true ->
  readRecord (escapeCSV v ++ comma :: tail) false true []
  = option_map (consField (fieldText v)) (readRecord tail false true []).
Proof.
  intros Hcr. rewrite escapeCSV_quoted. destruct (quoted (fieldText v)) eqn:E.
  - cbn [app]. rewrite <- app_assoc. cbn [app readRecord].
    change (Ascii.eqb quote quote) with true. cbn iota.
    now rewrite readRecord_quoted_comma.
  - now rewrite (readRecord_plain_comma _ _ _ _ (plain_field _ E Hcr)).
Qed.

Lemma readRecord_field_end (v : value) (tail : jsstring) :
  noBareCR (fieldText v) = true ->
  readRecord (escapeCSV v ++ LF :: tail) false true []
  = Some ([fieldText v], tail).
Proof.
  intros Hcr. rewrite escapeCSV_quoted. destruct (quoted (fieldText v)) eqn:E.
  - cbn [app]. rewrite <- app_assoc. cbn [app readRecord].
    change (Ascii.eqb quote quote) with true. cbn iota.
    now rewrite readRecord_quoted_end.
  - now rewrite (readRecord_plain_end _ _ _ _ (plain_field _ E Hcr)).
Qed.

Lemma readRecord_csvLine (v : value) (row : list value) (tail : jsstring) :
  forallb (fun x => noBareCR (fieldText x)) (v :: row) = true ->
  readRecord (csvLine (v :: row) ++ tail) false true []
  = Some (map fieldText (v :: row), tail).
Proof.
  revert v. induction row as [|w row IH]; intros v H;
    cbn [forallb] in H; apply andb_true_iff in H as [Hv H].
  - unfold csvLine. cbn [map join]. rewrite <- app_assoc.
    now apply readRecord_field_end.
  - rewrite csvLine_cons, (readRecord_field_comma _ _ Hv), (IH w H). reflexivity.
Qed.

Lemma unescapeStandard_escapeCSV (v : value) :
  noBareCR (fieldText v) = true ->
  unescapeStandard (escapeCSV v) = Some (fieldText v).
Proof.
  intros Hcr. rewrite escapeCSV_quoted. destruct (quoted (fieldText v)) eqn:E.
  - cbn [unescapeStandard]. change (Ascii.eqb quote quote) with true. cbn iota.
    apply unquote_doubleQuotes.
  - pose proof (plain_field _ E Hcr) as Hp.
    destruct (fieldText v) as [|c s]; [reflexivity|].
    unfold unescapeStandard. rewrite Hp.
    cbn [existsb] in Hp. apply orb_false_iff in Hp as [Hc _].
    apply not_ending in Hc as (Hq & _). now rewrite Hq.
Qed.

(** C4, at the input where it fails.  A text with a carriage return and
    no comma, double quote or line feed is written as it is, without
    quotes: it is no field of a CSV file, and a standard reader ends
    the record at the carriage return, so that the line written for
    the two cells [a CR b] and [c] reads back as the one field [a]. *)
Theorem escapeCSV_bare_CR :
  let text := str "a" ++ [CR] ++ str "b" in
  escapeCSV (VString text) = text
  /\ unescapeStandard (escapeCSV (VString text)) = None
  /\ readRecord (csvLine [VString text; VString (str "c")]) false true []
     = Some ([str "a"], str "b,c" ++ [LF]).
Proof. repeat split; reflexivity. Qed.

End ExportFacts.

(** ** The query history *)

Section QueryHistoryFacts.

Import QueryHistory.

Variables (freshId : jsstring) (now : Z) (question sql : jsstring) (success : bool).
Variables (executionTime : option Z) (errorMessage : option jsstring).

Lemma addQuery_history (st : store) :
  exists item,
    getHistory (fst (addQuery freshId now question sql success
                              executionTime errorMessage Accepted st))
    = item :: firstn 99 (getHistory st)
    /\ QueryHistory.id item = freshId
    /\ QueryHistory.question item = question
    /\ QueryHistory.sql item = sql
    /\ isFavorite item = false.
Proof.
  unfold addQuery. cbn [fst saveHistory guardedWrite getHistory].
  eexists. split.
  { cbn [length]. unfold spliceFrom.
    destruct (100 <? S (length (getHistory st))) eqn:E.
    - apply firstn_cons.
    - apply Nat.ltb_ge in E. f_equal.
      symmetry. apply firstn_all2. lia. }
  repeat split.
Qed.

Lemma addQuery_refused (message : jsstring) (st : store) :
  addQuery freshId now question sql success executionTime errorMessage
           (Refused message) st
  = (st, freshId).
Proof. reflexivity. Qed.

(** C8, as the code has it.  [addQuery] returns the id it made.  When
    the write to the storage is accepted, the history read back by
    [getHistory] starts with an item that records the question and the
    SQL text given, not marked as favourite, and goes on with the items
    stored before, in their order: all of them when fewer than a
    hundred were stored.  When the write is refused the store is left
    as it was. *)
Theorem addQuery_then_getHistory (w : writing) (st : store) :
  snd (addQuery freshId now question sql success executionTime errorMessage w st)
  = freshId
  /\ match w with
     | Accepted =>
         exists item,
           getHistory (fst (addQuery freshId now question sql success
                                     executionTime errorMessage w st))
           = item :: firstn 99 (getHistory st)
           /\ QueryHistory.question item = question
           /\ QueryHistory.sql item = sql
           /\ isFavorite item = false
           /\ (length (getHistory st) < 100 ->
               getHistory (fst (addQuery freshId now question sql success
                                         executionTime errorMessage w st))
               = item :: getHistory st)
     | Refused _ =>
         fst (addQuery freshId now question sql success
                       executionTime errorMessage w st) = st
     end.
Proof.
  split; [reflexivity|]. destruct w as [|message]; [|reflexivity].
  destruct (addQuery_history st) as (item & H & _ & Hq & Hs & Hf).
  exists item. repeat split; try assumption.
  intros Hlen. rewrite H. f_equal. apply firstn_all2. lia.
Qed.

(** C9, as the code has it.  After an [addQuery] whose write is
    accepted the stored history has at most a hundred items; when a
    hundred were stored, the last (oldest) one is dropped and the other
    ninety-nine follow the new item.  A refused write leaves the stored
    history as it was, so a history of at most a hundred items never
    grows beyond a hundred. *)
Theorem addQuery_keeps_100 (w : writing) (st : store) :
  match w with
  | Accepted =>
      length (getHistory (fst (addQuery freshId now question sql success
                                        executionTime errorMessage w st))) <= 100
      /\ (length (getHistory st) = 100 ->
          exists item,
            getHistory (fst (addQuery freshId now question sql success
                                      executionTime errorMessage w st))
            = item :: removelast (getHistory st)
            /\ length (removelast (getHistory st)) = 99)
  | Refused _ =>
      fst (addQuery freshId now question sql success
                    executionTime errorMessage w st) = st
  end
  /\ (length (getHistory st) <= 100 ->
      length (getHistory (fst (addQuery freshId now question sql success
                                        executionTime errorMessage w st))) <= 100).
Proof.
  destruct w as [|message].
  - destruct (addQuery_history st) as (item & H & _).
    assert (Hlen : length (getHistory
                             (fst (addQuery freshId now question sql success
                                            executionTime errorMessage Accepted st)))
                   <= 100).
    { rewrite H. cbn [length]. rewrite length_firstn. lia. }
    split; [split; [exact Hlen|]|intros _; exact Hlen].
    intros Hfull. exists item. rewrite H, removelast_firstn_len, Hfull.
    split; [reflexivity|]. cbn [pred]. rewrite length_firstn. lia.
  - rewrite addQuery_refused. cbn [fst]. split; [reflexivity|]. intros H. exact H.
Qed.

End QueryHistoryFacts.

(** C8 at a refused write: with nothing stored and the quota exceeded,
    [addQuery] returns an id and the history read back is empty. *)
Lemma addQuery_not_stored :
  snd (QueryHistory.addQuery (str "lq3k9x") 1700000000000
         (str "total cost by carrier")
         (str "SELECT carrier, SUM(cost) FROM freight_data GROUP BY carrier")
         true (Some 850%Z) None (Refused (str "QuotaExceededError")) Missing)
  = str "lq3k9x"
  /\ QueryHistory.getHistory
       (fst (QueryHistory.addQuery (str "lq3k9x") 1700000000000
               (str "total cost by carrier")
               (str "SELECT carrier, SUM(cost) FROM freight_data GROUP BY carrier")
               true (Some 850%Z) None (Refused (str "QuotaExceededError")) Missing))
     = [].
Proof. split; reflexivity. Qed.

Lemma addQuery_then_getHistory_witness :
  length (QueryHistory.getHistory Missing) < 100
  /\ exists item,
       QueryHistory.getHistory
         (fst (QueryHistory.addQuery (str "lq3k9x") 1700000000000
                 (str "total cost by carrier")
                 (str "SELECT carrier, SUM(cost) FROM freight_data GROUP BY carrier")
                 true (Some 850%Z) None Accepted Missing))
       = [item]
       /\ QueryHistory.question item = str "total cost by carrier".
Proof.
  split; [cbn; lia|].
  destruct (addQuery_then_getHistory (str "lq3k9x") 1700000000000
              (str "total cost by carrier")
              (str "SELECT carrier, SUM(cost) FROM freight_data GROUP BY carrier")
              true (Some 850%Z) None Accepted Missing)
    as (_ & item & _ & Hq & _ & _ & Hall).
  exists item. split; [apply Hall; cbn; lia|exact Hq].
Defined.

(** C9 at a refused write: with a hundred items stored and the quota
    exceeded, nothing is dropped; the oldest item is still the last of
    the stored history and the new query is not in it. *)
Lemma addQuery_full_refused :
  let item (i q : string) :=
                  {| QueryHistory.id := str i; QueryHistory.question := str q;
                     QueryHistory.sql := str "SELECT 1"; QueryHistory.timestamp := 0;
                     QueryHistory.isFavorite := false; QueryHistory.category := None;
                     QueryHistory.tags := None; QueryHistory.executionTime := None;
                     QueryHistory.success := true; QueryHistory.errorMessage := None |} in
  let full := Json (repeat (item "a2"%string "recent"%string) 99 ++ [item "a1"%string "oldest"%string]) in
  length (QueryHistory.getHistory full) = 100
  /\ QueryHistory.getHistory
       (fst (QueryHistory.addQuery (str "b2") 7 (str "newest") (str "SELECT 2")
               true None None (Refused (str "QuotaExceededError")) full))
     = repeat (item "a2"%string "recent"%string) 99 ++ [item "a1"%string "oldest"%string].
Proof. split; reflexivity. Qed.

Lemma addQuery_keeps_100_witness :
  let old := {| QueryHistory.id := str "a1"; QueryHistory.question := str "q";
                QueryHistory.sql := str "SELECT 1"; QueryHistory.timestamp := 0;
                QueryHistory.isFavorite := true; QueryHistory.category := None;
                QueryHistory.tags := None; QueryHistory.executionTime := None;
                QueryHistory.success := true; QueryHistory.errorMessage := None |} in
  let full := Json (repeat old 100) in
  length (QueryHistory.getHistory full) = 100
  /\ exists item,
       QueryHistory.getHistory
         (fst (QueryHistory.addQuery (str "b2") 7 (str "newest") (str "SELECT 2")
                 true None None Accepted full))
       = item :: repeat old 99.
Proof.
  intros old full. split; [reflexivity|].
  destruct (addQuery_keeps_100 (str "b2") 7 (str "newest") (str "SELECT 2")
              true None None Accepted full) as [[_ H] _].
  destruct (H eq_refl) as (item & E & _).
  exists item. exact E.
Defined.

(** ** The schema store *)

Section SchemaFacts.

Import Schema.

Variable e : access.

(** C10, as the code has it.  [getSchemas] never returns the empty
    list.  When the store holds no schema or a text that does not
    parse, the list returned is the built-in schema named Freight
    Analytics alone; when it holds no schema, that list is also what
    the store holds afterwards if the write is accepted, and a refused
    write leaves the store as it was. *)
Theorem getSchemas_never_empty (st : store) :
  snd (getSchemas e st) <> []
  /\ match schemasItem st with
     | Json (s :: l) =>
         getSchemas e st = (st, s :: l)
     | Corrupt =>
         getSchemas e st = (st, [createDefaultSchema (createdNow e) (updatedNow e)])
     | Missing | Json [] =>
         snd (getSchemas e st) = [createDefaultSchema (createdNow e) (updatedNow e)]
         /\ defaultSchemaItem (fst (getSchemas e st)) = defaultSchemaItem st
         /\ schemasItem (fst (getSchemas e st))
            = match saving e with
              | Accepted => Json [createDefaultSchema (createdNow e) (updatedNow e)]
              | Refused _ => schemasItem st
              end
     end
  /\ name (createDefaultSchema (createdNow e) (updatedNow e)) = str "Freight Analytics".
Proof.
  unfold getSchemas. destruct (schemasItem st) as [| |[|s l]] eqn:E;
    cbn [fst snd saveSchemas schemasItem defaultSchemaItem];
    rewrite ?E; unfold guardedWrite;
    repeat split; try discriminate; now destruct (saving e).
Qed.

Lemma getSchemas_populated (st : store) (s : DatabaseSchema) (l : list DatabaseSchema) :
  schemasItem st = Json (s :: l) -> getSchemas e st = (st, s :: l).
Proof. unfold getSchemas. now intros ->. Qed.



End SchemaFacts.

(** C10 at a refused write: with nothing stored and the quota exceeded,
    [getSchemas] returns the built-in schema and the store still holds
    nothing. *)
Lemma getSchemas_not_persisted :
  let st := {| Schema.schemasItem := Missing; Schema.defaultSchemaItem := None |} in
  let e := {| Schema.createdNow := 5; Schema.updatedNow := 5;
              Schema.saving := Refused (str "QuotaExceededError") |} in
  snd (Schema.getSchemas e st) = [Schema.createDefaultSchema 5 5]
  /\ Schema.schemasItem (fst (Schema.getSchemas e st)) = Missing.
Proof. split; reflexivity. Qed.



(** ** The rate limiter *)

Section RateLimitFacts.

Import OpenAIService.

(** The request starts at the time the delay aims at, [lastRequestTime]
    plus 1000 ms, or later, give or take what the timer is off. *)
Lemma requestStart_bound (c : call) (st : state) :
  (lastRequestTime st + RATE_LIMIT_DELAY + timerSlack c <= requestStart c st)%Z.
Proof.
  unfold requestStart, enforceRateLimit.
  destruct (calledAt c - lastRequestTime st <? RATE_LIMIT_DELAY)%Z eqn:E.
  - lia.
  - apply Z.ltb_ge in E. lia.
Qed.

Lemma session_bound (calls : list (call * SQLGenerationOptions)) (st : state) :
  Forall (fun entry => (0 <= timerSlack (fst entry))%Z) calls ->
  Forall (fun entry => (lastRequestTime (fst entry) + RATE_LIMIT_DELAY <= snd entry)%Z)
         (session st calls).
Proof.
  intros H. revert st. induction H as [|[c options] calls Hc _ IH]; intros st;
    cbn [session].
  - constructor.
  - constructor; [|apply IH]. cbn [fst snd] in *.
    pose proof (requestStart_bound c st). lia.
Qed.

Lemma generateSQL_reply (c : call) (options : SQLGenerationOptions) (st : state)
    (content : option jsstring) :
  outcome c = ApiReply content ->
  fst (generateSQL c options st)
  = {| requestCount := S (requestCount st); lastRequestTime := requestEnd c st |}.
Proof.
  intros E. unfold generateSQL. rewrite E.
  now destruct (option_map trim content) as [[|ch sql]|].
Qed.

(** C6, as the code has it.  [enforceRateLimit] reads the clock once:
    less than 1000 ms after [lastRequestTime] it sets a timer for what
    is missing to [lastRequestTime] plus 1000 ms, otherwise none; it
    does not read the clock again.  A request is therefore issued no
    earlier than [lastRequestTime] plus 1000 ms plus what the timer is
    off, hence no earlier than [lastRequestTime] plus 1000 ms whenever
    the timer does not fire early by the clock of [Date.now()].
    [lastRequestTime] is the time at which the last request that got a
    response completed, so in a session of calls made one after the
    other, with no timer early, the request after such a one starts at
    least 1000 ms after that completion. *)
Theorem request_waits_for_delay (c : call) (options : SQLGenerationOptions) (st : state) :
  RATE_LIMIT_DELAY = 1000%Z
  /\ match enforceRateLimit (calledAt c) st with
     | Some delay =>
         (calledAt c + delay = lastRequestTime st + RATE_LIMIT_DELAY)%Z
         /\ requestStart c st = (calledAt c + delay + timerSlack c)%Z
     | None =>
         (lastRequestTime st + RATE_LIMIT_DELAY <= calledAt c)%Z
         /\ requestStart c st = (calledAt c + timerSlack c)%Z
     end
  /\ (lastRequestTime st + RATE_LIMIT_DELAY + timerSlack c <= requestStart c st)%Z
  /\ ((0 <= timerSlack c)%Z ->
      (lastRequestTime st + RATE_LIMIT_DELAY <= requestStart c st)%Z)
  /\ match outcome c with
     | ApiReply _ =>
         lastRequestTime (fst (generateSQL c options st)) = requestEnd c st
         /\ forall next,
              (0 <= timerSlack next)%Z ->
              (requestEnd c st + RATE_LIMIT_DELAY
               <= requestStart next (fst (generateSQL c options st)))%Z
     | ApiError _ => fst (generateSQL c options st) = st
     end
  /\ (forall calls,
        Forall (fun entry => (0 <= timerSlack (fst entry))%Z) calls ->
        Forall (fun entry =>
                  (lastRequestTime (fst entry) + RATE_LIMIT_DELAY <= snd entry)%Z)
               (session st calls)).
Proof.
  pose proof (requestStart_bound c st) as Hb.
  split; [reflexivity|]. split; [|split; [exact Hb|split; [lia|split]]].
  - unfold requestStart, enforceRateLimit, RATE_LIMIT_DELAY.
    destruct (calledAt c - lastRequestTime st <? 1000)%Z eqn:E.
    + split; [lia|reflexivity].
    + apply Z.ltb_ge in E. split; [lia|reflexivity].
  - destruct (outcome c) as [message|content] eqn:E.
    + unfold generateSQL. now rewrite E.
    + rewrite (generateSQL_reply _ options st _ E). cbn [fst lastRequestTime].
      split; [reflexivity|]. intros next Hnext.
      pose proof (requestStart_bound next
                    {| requestCount := S (requestCount st);
                       lastRequestTime := requestEnd c st |}) as Hn.
      cbn [lastRequestTime] in Hn. lia.
  - intros calls. apply session_bound.
Qed.

End RateLimitFacts.

(** C6 at a timer that fires a millisecond early: called 200 ms after
    the last request, the method asks for 800 ms and the request starts
    999 ms after [lastRequestTime]. *)
Lemma request_starts_early :
  let st := {| OpenAIService.requestCount := 1;
               OpenAIService.lastRequestTime := 1000 |} in
  let c := {| OpenAIService.calledAt := 1200; OpenAIService.timerSlack := -1;
              OpenAIService.latency := 300;
              OpenAIService.outcome := OpenAIService.ApiReply (Some (str "SELECT 1")) |} in
  OpenAIService.enforceRateLimit (OpenAIService.calledAt c) st = Some 800%Z
  /\ OpenAIService.requestStart c st = 1999%Z
  /\ (OpenAIService.requestStart c st
      < OpenAIService.lastRequestTime st + OpenAIService.RATE_LIMIT_DELAY)%Z.
Proof. repeat split. Qed.

Lemma request_waits_for_delay_witness :
  let st := {| OpenAIService.requestCount := 1;
               OpenAIService.lastRequestTime := 1000 |} in
  let c := {| OpenAIService.calledAt := 1200; OpenAIService.timerSlack := 2;
              OpenAIService.latency := 300;
              OpenAIService.outcome := OpenAIService.ApiReply (Some (str "SELECT 1")) |} in
  (0 <= OpenAIService.timerSlack c)%Z
  /\ (OpenAIService.lastRequestTime st + OpenAIService.RATE_LIMIT_DELAY
      <= OpenAIService.requestStart c st)%Z.
Proof.
  intros st c. split; [cbn; lia|].
  apply (request_waits_for_delay c (OpenAIService.options None) st).
  cbn. lia.
Defined.


(** ** The validator *)

Section ValidatorFacts.

Import SQLValidator.

Lemma eqs_true (a b : jsstring) : eqs a b = true <-> a = b.
Proof. unfold eqs. destruct (list_eq_dec ascii_dec a b); split; congruence. Qed.

Lemma eqs_false (a b : jsstring) : eqs a b = false <-> a <> b.
Proof. unfold eqs. destruct (list_eq_dec ascii_dec a b); split; congruence. Qed.

(** A token that is not the word SELECT leaves [hasSelect] alone, and
    likewise for FROM. *)
Lemma scanToken_hasSelect (s : scan) (t : SQLToken) :
  toUpperCase (value t) <> str "SELECT" ->
  hasSelect (scanToken s t) = hasSelect s.
Proof.
  intros H. apply eqs_false in H. unfold scanToken.
  destruct (type t); try reflexivity.
  - rewrite H. now destruct (eqs (toUpperCase (value t)) (str "FROM")).
  - destruct (eqs (value t) (str "(")); [reflexivity|].
    now destruct (eqs (value t) (str ")")).
Qed.

Lemma scanToken_hasFrom (s : scan) (t : SQLToken) :
  toUpperCase (value t) <> str "FROM" ->
  hasFrom (scanToken s t) = hasFrom s.
Proof.
  intros H. apply eqs_false in H. unfold scanToken.
  destruct (type t); try reflexivity.
  - rewrite H. now destruct (eqs (toUpperCase (value t)) (str "SELECT")).
  - destruct (eqs (value t) (str "(")); [reflexivity|].
    now destruct (eqs (value t) (str ")")).
Qed.

Lemma scan_hasSelect (tokens : list SQLToken) (s : scan) :
  (forall t, In t tokens -> toUpperCase (value t) <> str "SELECT") ->
  hasSelect (fold_left scanToken tokens s) = hasSelect s.
Proof.
  revert s. induction tokens as [|t tokens IH]; intros s H; cbn [fold_left].
  - reflexivity.
  - rewrite IH by (intros t' Ht'; apply H; now right).
    apply scanToken_hasSelect, H. now left.
Qed.

Lemma scan_hasFrom (tokens : list SQLToken) (s : scan) :
  (forall t, In t tokens -> toUpperCase (value t) <> str "FROM") ->
  hasFrom (fold_left scanToken tokens s) = hasFrom s.
Proof.
  revert s. induction tokens as [|t tokens IH]; intros s H; cbn [fold_left].
  - reflexivity.
  - rewrite IH by (intros t' Ht'; apply H; now right).
    apply scanToken_hasFrom, H. now left.
Qed.

(** [validateSQLStructure] only appends. *)
Lemma validateSQLStructure_keeps (tokens : list SQLToken)
    (errors : list ValidationError) (e : ValidationError) :
  In e errors -> In e (validateSQLStructure tokens errors).
Proof. intros H. unfold validateSQLStructure. apply in_or_app. now left. Qed.

Lemma isValid_false_of_error (sql : jsstring) (e : ValidationError) :
  In e (errors (validateSQL sql)) -> isValid (validateSQL sql) = false.
Proof.
  unfold validateSQL. cbn [errors isValid].
  destruct (validateSQLStructure _ _); [intros []|reflexivity].
Qed.

(** C3. [validateSQL] reports [isValid] exactly when it collected no
    error.  A text none of whose tokens is the word SELECT, in any
    letter case, gets the error Missing SELECT clause and is not valid;
    the same holds for FROM and Missing FROM clause. *)
Theorem validateSQL_missing_clauses (sql : jsstring) :
  (isValid (validateSQL sql) = true <-> errors (validateSQL sql) = [])
  /\ ((forall t, In t (tokenize sql) -> toUpperCase (value t) <> str "SELECT") ->
      In missingSelect (errors (validateSQL sql))
      /\ isValid (validateSQL sql) = false)
  /\ ((forall t, In t (tokenize sql) -> toUpperCase (value t) <> str "FROM") ->
      In missingFrom (errors (validateSQL sql))
      /\ isValid (validateSQL sql) = false)
  /\ message missingSelect = str "Missing SELECT clause"
  /\ message missingFrom = str "Missing FROM clause".
Proof.
  split; [|split; [|split; [|split; reflexivity]]].
  - unfold validateSQL. cbn [errors isValid].
    destruct (validateSQLStructure _ _); cbn; split; congruence.
  - intros H.
    assert (Hin : In missingSelect (errors (validateSQL sql))).
    { unfold validateSQL. cbn [errors]. apply validateSQLStructure_keeps.
      unfold validateBasicSyntax. cbv zeta.
      rewrite (scan_hasSelect _ _ H). cbn [hasSelect].
      apply in_or_app. right. now left. }
    split; [exact Hin|]. exact (isValid_false_of_error _ _ Hin).
  - intros H.
    assert (Hin : In missingFrom (errors (validateSQL sql))).
    { unfold validateSQL. cbn [errors]. apply validateSQLStructure_keeps.
      unfold validateBasicSyntax. cbv zeta.
      rewrite (scan_hasFrom _ _ H). cbn [hasFrom].
      apply in_or_app. right. apply in_or_app. right.
      apply in_or_app. left. now left. }
    split; [exact Hin|]. exact (isValid_false_of_error _ _ Hin).
Qed.

End ValidatorFacts.

Lemma validateSQL_missing_clauses_witness :
  (forall t, In t (SQLValidator.tokenize (str "carrier FROM freight_data")) ->
             toUpperCase (SQLValidator.value t) <> str "SELECT")
  /\ In SQLValidator.missingSelect
        (SQLValidator.errors (SQLValidator.validateSQL (str "carrier FROM freight_data")))
  /\ SQLValidator.isValid (SQLValidator.validateSQL (str "carrier FROM freight_data"))
     = false
  /\ (forall t, In t (SQLValidator.tokenize (str "select 1")) ->
                toUpperCase (SQLValidator.value t) <> str "FROM")
  /\ In SQLValidator.missingFrom
        (SQLValidator.errors (SQLValidator.validateSQL (str "select 1"))).
Proof.
  assert (H : forall t, In t (SQLValidator.tokenize (str "carrier FROM freight_data")) ->
                        toUpperCase (SQLValidator.value t) <> str "SELECT").
  { intros t Ht. vm_compute in Ht.
    destruct Ht as [<-|[<-|[<-|[]]]]; vm_compute; discriminate. }
  assert (H' : forall t, In t (SQLValidator.tokenize (str "select 1")) ->
                         toUpperCase (SQLValidator.value t) <> str "FROM").
  { intros t Ht. vm_compute in Ht.
    destruct Ht as [<-|[<-|[]]]; vm_compute; discriminate. }
  destruct (validateSQL_missing_clauses (str "carrier FROM freight_data"))
    as (_ & Hsel & _).
  destruct (validateSQL_missing_clauses (str "select 1")) as (_ & _ & Hfrom & _).
  split; [exact H|]. split; [exact (proj1 (Hsel H))|].
  split; [exact (proj2 (Hsel H))|]. split; [exact H'|]. exact (proj1 (Hfrom H')).
Defined.

(** ** Post-processing of the model's reply *)

Section ScannerFacts.

Import OpenAIService.

(** Induction on the length of a text. *)
Lemma length_ind (P : list ascii -> Prop) :
  (forall s, (forall t, length t < length s -> P t) -> P s) -> forall s, P s.
Proof.
  intros H s. remember (length s) as n eqn:E. revert s E.
  induction n as [n IH] using lt_wf_ind. intros s ->.
  apply H. intros t Ht. exact (IH _ Ht t eq_refl).
Qed.

Lemma dropWhile_suffix {A} (f : A -> bool) (l : list A) :
  exists m, l = m ++ dropWhile f l.
Proof.
  induction l as [|x l [m IH]]; cbn [dropWhile].
  - now exists [].
  - destruct (f x); [|now exists []].
    exists (x :: m). cbn [app]. now f_equal.
Qed.

Lemma dropWhile_length {A} (f : A -> bool) (l : list A) :
  length (dropWhile f l) <= length l.
Proof.
  destruct (dropWhile_suffix f l) as [m E]. rewrite E at 2.
  rewrite length_app. lia.
Qed.

Lemma dropWhile_app {A} (f : A -> bool) (l r : list A) (x : A) :
  f x = false -> dropWhile f (l ++ x :: r) = dropWhile f l ++ x :: r.
Proof.
  intros Hx. induction l as [|y l IH]; cbn [app dropWhile].
  - now rewrite Hx.
  - now destruct (f y).
Qed.

Lemma trimEnd_prefix (s : jsstring) : exists m, s = trimEnd s ++ m.
Proof.
  unfold trimEnd. destruct (dropWhile_suffix isSpace (rev s)) as [m E].
  exists (rev m). rewrite <- rev_app_distr, <- E. now rewrite rev_involutive.
Qed.


Lemma startsWith_app (s t p : jsstring) :
  startsWith s p = true -> startsWith (s ++ t) p = true.
Proof.
  revert s. induction p as [|a p IH]; intros s H; [apply startsWith_nil|].
  destruct s as [|b s]; cbn in *; [easy|].
  apply andb_true_iff in H as [H1 H2]. now rewrite H1, IH.
Qed.

Lemma includes_app_l (s t p : jsstring) :
  includes s p = true -> includes (s ++ t) p = true.
Proof.
  induction s as [|b s IH]; cbn [includes app]; intros H.
  - rewrite orb_false_r in H. destruct p; [|easy].
    destruct t; cbn; now rewrite ?startsWith_nil.
  - apply orb_true_iff in H as [H|H].
    + apply (startsWith_app _ t) in H. cbn [app] in H. now rewrite H.
    + rewrite (IH H). apply orb_true_r.
Qed.

Lemma includes_app_r (s t p : jsstring) :
  includes t p = true -> includes (s ++ t) p = true.
Proof.
  intros H. induction s as [|b s IH]; cbn [includes app]; [exact H|].
  rewrite IH. apply orb_true_r.
Qed.

(** *** The keyword replace *)

Lemma startsWithCI_length (s p : jsstring) :
  startsWithCI s p = true -> length p <= length s.
Proof.
  revert s. induction p as [|a p IH]; intros [|b s] H; cbn in *; try easy; try lia.
  apply andb_true_iff in H as [_ H]. apply IH in H. lia.
Qed.

Lemma matchKeyword_Some (kw : jsstring) (prev : option ascii) (s rest : jsstring) :
  matchKeyword kw prev s = Some rest ->
  rest = skipn (length kw) s /\ startsWithCI s kw = true.
Proof.
  unfold matchKeyword.
  destruct (wordBoundary prev (hd_error s)); cbn [andb]; [|easy].
  destruct (startsWithCI s kw); cbn [andb]; [|easy].
  destruct (wordBoundary _ _); [|easy].
  intros [= <-]. now split.
Qed.

Lemma matchKeyword_shorter (kw : jsstring) (prev : option ascii) (s rest : jsstring) :
  kw <> [] -> matchKeyword kw prev s = Some rest -> length rest < length s.
Proof.
  intros Hkw H. apply matchKeyword_Some in H as [-> H].
  apply startsWithCI_length in H. rewrite length_skipn.
  destruct kw; [easy|]. cbn [length] in *. lia.
Qed.

Lemma matchKeyword_nil (kw : jsstring) (prev : option ascii) :
  kw <> [] -> matchKeyword kw prev [] = None.
Proof.
  intros Hkw. destruct kw; [easy|]. unfold matchKeyword.
  cbn [startsWithCI]. now rewrite andb_false_r.
Qed.

Lemma replaceKeywordN_fuel (kw : jsstring) :
  kw <> [] ->
  forall f1 f2 prev s,
    length s <= f1 -> length s <= f2 ->
    replaceKeywordN f1 kw prev s = replaceKeywordN f2 kw prev s.
Proof.
  intros Hkw. induction f1 as [|f1 IH]; intros f2 prev s H1 H2.
  - destruct s; [|cbn in H1; lia].
    destruct f2; cbn [replaceKeywordN]; [reflexivity|].
    now rewrite matchKeyword_nil.
  - destruct f2 as [|f2].
    + destruct s; [|cbn in H2; lia].
      cbn [replaceKeywordN]. now rewrite matchKeyword_nil.
    + cbn [replaceKeywordN].
      destruct (matchKeyword kw prev s) as [rest|] eqn:M.
      * apply (matchKeyword_shorter _ _ _ _ Hkw) in M.
        f_equal. f_equal. apply IH; lia.
      * destruct s as [|c s]; [reflexivity|]. cbn [length] in *.
        f_equal. apply IH; lia.
Qed.

(** The scan, one step at a time. *)
Lemma replaceKeywordAt_eq (kw : jsstring) (prev : option ascii) (s : jsstring) :
  kw <> [] ->
  replaceKeywordAt kw prev s =
    match matchKeyword kw prev s with
    | Some rest =>
        LF :: kw ++ replaceKeywordAt kw (lastChar (firstn (length kw) s)) rest
    | None =>
        match s with
        | [] => []
        | c :: s' => c :: replaceKeywordAt kw (Some c) s'
        end
    end.
Proof.
  intros Hkw. unfold replaceKeywordAt.
  destruct s as [|c s].
  - cbn. now rewrite matchKeyword_nil.
  - cbn [length replaceKeywordN].
    destruct (matchKeyword kw prev (c :: s)) as [rest|] eqn:M; [|reflexivity].
    apply (matchKeyword_shorter _ _ _ _ Hkw) in M. cbn [length] in M.
    f_equal. f_equal. apply (replaceKeywordN_fuel _ Hkw); lia.
Qed.

(** *** The collapse of blank lines *)

Lemma afterBlank_suffix (s rest : jsstring) :
  afterBlank s = Some rest -> exists m, s = m ++ rest /\ m <> [].
Proof.
  revert rest. induction s as [|c s IH]; intros rest; cbn [afterBlank]; [easy|].
  destruct (isSpace c); [|easy].
  destruct (afterBlank s) as [r|].
  - intros [= <-]. destruct (IH r eq_refl) as (m & -> & _).
    now exists (c :: m).
  - destruct (Ascii.eqb c LF); [|easy]. intros [= <-]. now exists [c].
Qed.

Lemma afterBlank_shorter (s rest : jsstring) :
  afterBlank s = Some rest -> length rest < length s.
Proof.
  intros H. apply afterBlank_suffix in H as (m & -> & Hm).
  rewrite length_app. destruct m; [easy|]. cbn. lia.
Qed.

Lemma collapseBlankLinesN_fuel :
  forall f1 f2 s,
    length s <= f1 -> length s <= f2 ->
    collapseBlankLinesN f1 s = collapseBlankLinesN f2 s.
Proof.
  induction f1 as [|f1 IH]; intros f2 s H1 H2.
  - destruct s; [|cbn in H1; lia]. now destruct f2.
  - destruct f2 as [|f2].
    + destruct s; [reflexivity|cbn in H2; lia].
    + cbn [collapseBlankLinesN]. destruct s as [|c s]; [reflexivity|].
      cbn [length] in *.
      destruct (Ascii.eqb c LF); [|f_equal; apply IH; lia].
      destruct (afterBlank s) as [rest|] eqn:B; [|f_equal; apply IH; lia].
      apply afterBlank_shorter in B. f_equal. apply IH; lia.
Qed.

Lemma collapseBlankLines_eq (s : jsstring) :
  collapseBlankLines s =
    match s with
    | [] => []
    | c :: s' =>
        if Ascii.eqb c LF then
          match afterBlank s' with
          | Some rest => LF :: collapseBlankLines rest
          | None => c :: collapseBlankLines s'
          end
        else c :: collapseBlankLines s'
    end.
Proof.
  unfold collapseBlankLines. destruct s as [|c s]; [reflexivity|].
  cbn [length collapseBlankLinesN].
  destruct (Ascii.eqb c LF); [|reflexivity].
  destruct (afterBlank s) as [rest|] eqn:B; [|reflexivity].
  apply afterBlank_shorter in B. f_equal. apply collapseBlankLinesN_fuel; lia.
Qed.

(** *** The removal of the opening fences *)

Lemma removeOpeningFencesN_fuel :
  forall f1 f2 s,
    length s <= f1 -> length s <= f2 ->
    removeOpeningFencesN f1 s = removeOpeningFencesN f2 s.
Proof.
  induction f1 as [|f1 IH]; intros f2 s H1 H2.
  - destruct s; [|cbn in H1; lia]. now destruct f2.
  - destruct f2 as [|f2].
    + destruct s; [reflexivity|cbn in H2; lia].
    + cbn [removeOpeningFencesN].
      destruct (startsWithCI s (fence ++ str "sql")) eqn:M.
      * apply startsWithCI_length in M. cbn in M.
        pose proof (dropWhile_length isSpace (skipn 6 s)) as L.
        rewrite length_skipn in L. apply IH; lia.
      * destruct s as [|c s]; [reflexivity|]. cbn [length] in *.
        f_equal. apply IH; lia.
Qed.

Lemma removeOpeningFences_eq (s : jsstring) :
  removeOpeningFences s =
    if startsWithCI s (fence ++ str "sql")
    then removeOpeningFences (dropWhile isSpace (skipn 6 s))
    else match s with
         | [] => []
         | c :: s' => c :: removeOpeningFences s'
         end.
Proof.
  unfold removeOpeningFences. destruct s as [|c s]; [reflexivity|].
  cbn [length removeOpeningFencesN].
  destruct (startsWithCI (c :: s) (fence ++ str "sql")) eqn:M; [|reflexivity].
  apply startsWithCI_length in M. cbn in M.
  pose proof (dropWhile_length isSpace (skipn 6 (c :: s))) as L.
  rewrite length_skipn in L. cbn [length] in L.
  apply removeOpeningFencesN_fuel; lia.
Qed.

End ScannerFacts.

Section KeywordFacts.

Import OpenAIService.






Lemma plainKeyword_inv (kw : jsstring) :
  plainKeyword kw = true ->
  exists k kw', kw = k :: kw' /\ isUpper k = true
    /\ forallb (fun x => isUpper x || Ascii.eqb x " "%char) kw = true.
Proof.
  destruct kw as [|k kw']; [easy|]. unfold plainKeyword.
  intros H. apply andb_true_iff in H as [H1 H2]. now exists k, kw'.
Qed.

Lemma plainKeyword_nonempty (kw : jsstring) : plainKeyword kw = true -> kw <> [].
Proof. now destruct kw. Qed.








(** *** The appended limit clause survives the keyword replaces *)


Lemma keywords_plain : forallb plainKeyword keywords = true.
Proof. reflexivity. Qed.



End KeywordFacts.

Section LimitFacts.

Import OpenAIService.




Lemma replaceAll_cons (kw : jsstring) (ks : list jsstring) (s : jsstring) :
  replaceAll (kw :: ks) s = replaceAll ks (replaceKeyword kw s).
Proof. reflexivity. Qed.




(** *** and the collapse of blank lines and the final trim *)





(** The decimal text of a number that is not negative. *)
Lemma string_of_uint_digits (d : Decimal.uint) :
  forallb isDigit (str (NilEmpty.string_of_uint d)) = true.
Proof. induction d; cbn [NilEmpty.string_of_uint str list_ascii_of_string forallb]; now rewrite ?IHd. Qed.



End LimitFacts.

Section LimitTheorem.

Import OpenAIService.









(** C1, at the input where it fails.  The reply has no LIMIT clause,
    and with a [limitResults] of 5 no LIMIT 5 is added to it: the
    letters [limit] in the column name [unlimited] are taken for one. *)
Theorem postProcessSQL_limit_not_added :
  let sql := str "SELECT unlimited FROM plans" in
  hasLimitClause sql = false
  /\ includes (postProcessSQL sql (options (Some 5%Z))) (str "LIMIT 5") = false
  /\ postProcessSQL sql (options (Some 5%Z))
     = str "SELECT unlimited " ++ LF :: str "FROM plans".
Proof. vm_compute. repeat split. Qed.


End LimitTheorem.

Section FenceFacts.

Import OpenAIService.

Lemma includes_false_app (s t p : jsstring) :
  includes (s ++ t) p = false -> includes s p = false /\ includes t p = false.
Proof.
  intros H. split.
  - destruct (includes s p) eqn:E; [|reflexivity].
    apply (includes_app_l _ t) in E. congruence.
  - destruct (includes t p) eqn:E; [|reflexivity].
    apply (includes_app_r s) in E. congruence.
Qed.

Lemma startsWith_ticks_head (c : ascii) (s p : jsstring) :
  Ascii.eqb c backtick = false -> allTicks p = true ->
  startsWith (c :: s) p = true -> p = [].
Proof.
  intros Hc Hp H. destruct p as [|b p]; [reflexivity|].
  cbn [allTicks forallb startsWith] in *.
  apply andb_true_iff in Hp as [Hb _]. apply andb_true_iff in H as [H _].
  apply Ascii.eqb_eq in Hb, H. subst. now rewrite Ascii.eqb_refl in Hc.
Qed.

(** Backticks found at the head of a text followed by a text without
    backticks are at the head of the first. *)
Lemma startsWith_before_tickless (p X A : jsstring) :
  allTicks p = true -> tickless A = true ->
  startsWith (X ++ A) p = true -> startsWith X p = true.
Proof.
  intros Hp HA. revert X. induction p as [|b p IH]; intros X H.
  - apply startsWith_nil.
  - destruct X as [|x X]; cbn [app] in H.
    + destruct A as [|a A]; [easy|].
      cbn [tickless forallb] in HA. apply andb_true_iff in HA as [Ha _].
      apply negb_true_iff in Ha.
      now apply (startsWith_ticks_head _ _ _ Ha Hp) in H.
    + cbn [startsWith] in *. apply andb_true_iff in H as [H1 H2].
      cbn [allTicks forallb] in Hp. apply andb_true_iff in Hp as [_ Hp].
      now rewrite H1, (IH Hp).
Qed.

Lemma tickless_noFence (A : jsstring) : tickless A = true -> includes A fence = false.
Proof.
  induction A as [|a A IH]; intros H; [reflexivity|].
  cbn [tickless forallb] in H. apply andb_true_iff in H as [Ha H].
  apply negb_true_iff in Ha. cbn [includes]. rewrite (IH H), orb_false_r.
  destruct (startsWith (a :: A) fence) eqn:E; [|reflexivity].
  now apply (startsWith_ticks_head _ _ fence Ha eq_refl) in E.
Qed.

Lemma noFence_app_tickless (X A : jsstring) :
  includes X fence = false -> tickless A = true -> includes (X ++ A) fence = false.
Proof.
  intros HX HA. induction X as [|x X IH]; cbn [app]; [now apply tickless_noFence|].
  cbn [includes] in *. apply orb_false_iff in HX as [H1 H2].
  rewrite (IH H2), orb_false_r.
  destruct (startsWith (x :: X ++ A) fence) eqn:E; [|reflexivity].
  apply (startsWith_before_tickless fence (x :: X) A eq_refl HA) in E. congruence.
Qed.

Lemma tickless_app_noFence (A X : jsstring) :
  tickless A = true -> includes X fence = false -> includes (A ++ X) fence = false.
Proof.
  intros HA HX. induction A as [|a A IH]; cbn [app]; [exact HX|].
  cbn [tickless forallb] in HA. apply andb_true_iff in HA as [Ha HA].
  apply negb_true_iff in Ha. cbn [includes]. rewrite (IH HA), orb_false_r.
  destruct (startsWith (a :: A ++ X) fence) eqn:E; [|reflexivity].
  now apply (startsWith_ticks_head _ _ fence Ha eq_refl) in E.
Qed.

(** *** Replaces that put text without backticks in the place of some
    text *)

Lemma rewrites_head (s out : jsstring) :
  rewrites s out ->
  forall p, allTicks p = true -> startsWith out p = true -> startsWith s p = true.
Proof.
  induction 1 as [|c s out _ IH|s matched rest a out E Ha Hne _ _]; intros p Hp H.
  - exact H.
  - destruct p as [|b p]; [reflexivity|]. cbn [startsWith] in *.
    apply andb_true_iff in H as [H1 H2].
    cbn [allTicks forallb] in Hp. apply andb_true_iff in Hp as [_ Hp].
    now rewrite H1, (IH p Hp H2).
  - destruct a as [|a0 a]; [easy|].
    cbn [tickless forallb] in Ha. apply andb_true_iff in Ha as [Ha _].
    apply negb_true_iff in Ha. cbn [app] in H.
    apply (startsWith_ticks_head _ _ _ Ha Hp) in H. subst p. apply startsWith_nil.
Qed.

Lemma rewrites_noFence (s out : jsstring) :
  rewrites s out -> includes s fence = false -> includes out fence = false.
Proof.
  induction 1 as [|c s out R IH|s matched rest a out E Ha Hne R IH]; intros H.
  - reflexivity.
  - cbn [includes] in *. apply orb_false_iff in H as [H1 H2].
    rewrite (IH H2), orb_false_r.
    destruct (startsWith (c :: out) fence) eqn:S; [|reflexivity].
    cbn [startsWith fence] in S. apply andb_true_iff in S as [S1 S2].
    apply (rewrites_head _ _ R [backtick; backtick] eq_refl) in S2.
    cbn [startsWith fence] in H1. now rewrite S1, S2 in H1.
  - subst s. apply includes_false_app in H as [_ H].
    apply tickless_app_noFence; [exact Ha|now apply IH].
Qed.

Lemma plainKeyword_tickless (kw : jsstring) :
  plainKeyword kw = true -> tickless (LF :: kw) = true.
Proof.
  intros P. destruct (plainKeyword_inv _ P) as (k & kw' & _ & _ & H).
  cbn [tickless forallb]. change (negb (Ascii.eqb LF backtick)) with true.
  cbn [andb]. rewrite forallb_forall in *. intros c Hc. specialize (H c Hc).
  apply negb_true_iff, Ascii.eqb_neq. intros ->. discriminate H.
Qed.

Lemma replaceKeywordAt_rewrites (kw : jsstring) :
  plainKeyword kw = true ->
  forall s prev, rewrites s (replaceKeywordAt kw prev s).
Proof.
  intros P. pose proof (plainKeyword_nonempty _ P) as Hne.
  induction s as [s IH] using length_ind. intros prev.
  rewrite (replaceKeywordAt_eq _ _ _ Hne).
  destruct (matchKeyword kw prev s) as [rest|] eqn:M.
  - pose proof (matchKeyword_shorter _ _ _ _ Hne M) as L.
    apply matchKeyword_Some in M as [E _].
    change (LF :: kw ++ ?x) with ((LF :: kw) ++ x).
    apply (rewrites_subst s (firstn (length kw) s) rest).
    + subst rest. symmetry. apply firstn_skipn.
    + now apply plainKeyword_tickless.
    + easy.
    + now apply IH.
  - destruct s as [|c s]; constructor. apply IH. cbn. lia.
Qed.

Lemma collapseBlankLines_rewrites (s : jsstring) :
  rewrites s (collapseBlankLines s).
Proof.
  induction s as [s IH] using length_ind.
  rewrite collapseBlankLines_eq. destruct s as [|c s]; [constructor|].
  assert (Hcopy : rewrites (c :: s) (c :: collapseBlankLines s)).
  { constructor. apply IH. cbn. lia. }
  destruct (Ascii.eqb c LF); [|exact Hcopy].
  destruct (afterBlank s) as [rest|] eqn:B; [|exact Hcopy].
  pose proof (afterBlank_shorter _ _ B) as L.
  apply afterBlank_suffix in B as (m & -> & _).
  apply (rewrites_subst (c :: m ++ rest) (c :: m) rest [LF]); try easy.
  apply IH. cbn. rewrite length_app. lia.
Qed.

Lemma trim_noFence (s : jsstring) : includes s fence = false -> includes (trim s) fence = false.
Proof.
  intros H. unfold trim, trimStart.
  destruct (dropWhile_suffix isSpace s) as [m E]. rewrite E in H.
  apply includes_false_app in H as [_ H].
  destruct (trimEnd_prefix (dropWhile isSpace s)) as [m' E']. rewrite E' in H.
  now apply includes_false_app in H as [H _].
Qed.

Lemma replaceAll_noFence (ks : list jsstring) :
  forallb plainKeyword ks = true ->
  forall s, includes s fence = false -> includes (replaceAll ks s) fence = false.
Proof.
  induction ks as [|kw ks IH]; intros P s H; [exact H|].
  cbn [forallb] in P. apply andb_true_iff in P as [Pk P].
  rewrite replaceAll_cons. apply (IH P).
  exact (rewrites_noFence _ _ (replaceKeywordAt_rewrites _ Pk s None) H).
Qed.

Lemma formatSQL_noFence (s : jsstring) : includes s fence = false -> includes (formatSQL s) fence = false.
Proof.
  intros H. unfold formatSQL. cbv zeta. apply trim_noFence.
  apply (rewrites_noFence _ _ (collapseBlankLines_rewrites _)).
  now apply replaceAll_noFence; [apply keywords_plain|].
Qed.

Lemma numberToString_tickless (n : Z) : tickless (numberToString n) = true.
Proof.
  assert (D : forall d, tickless (str (NilZero.string_of_uint d)) = true).
  { intros d. assert (E : forallb isDigit (str (NilZero.string_of_uint d)) = true).
    { unfold NilZero.string_of_uint. destruct d; try reflexivity;
        apply (string_of_uint_digits (_ d)). }
    unfold tickless. rewrite forallb_forall in *. intros c Hc. specialize (E c Hc).
    apply negb_true_iff, Ascii.eqb_neq. intros ->. discriminate E. }
  unfold numberToString. destruct (Z.to_int n) as [d|d]; cbn [NilZero.string_of_int].
  - apply D.
  - cbn [str list_ascii_of_string tickless forallb]. apply (D d).
Qed.

Lemma withLimit_noFence (s : jsstring) (opts : SQLGenerationOptions) :
  includes s fence = false -> includes (withLimit s opts) fence = false.
Proof.
  intros H. unfold withLimit. destruct (limitResults opts) as [n|]; [|exact H].
  destruct (_ && _); [|exact H].
  apply noFence_app_tickless; [exact H|].
  unfold limitClause, limitText, tickless. cbn [forallb].
  rewrite forallb_app. fold (tickless (numberToString n)).
  now rewrite numberToString_tickless.
Qed.

(** *** A reply wrapped in one code block *)

Lemma startsWith_straddle (t B p : jsstring) (c : ascii) :
  Ascii.eqb c backtick = false -> allTicks p = true ->
  startsWith ((t ++ [c]) ++ B) p = true -> startsWith (t ++ [c]) p = true.
Proof.
  intros Hc. revert p. induction t as [|x t IH]; intros p Hp H.
  - cbn [app] in *. apply (startsWith_ticks_head _ _ _ Hc Hp) in H. now subst p.
  - destruct p as [|b p]; [reflexivity|]. cbn [app startsWith] in *.
    apply andb_true_iff in H as [H1 H2].
    cbn [allTicks forallb] in Hp. apply andb_true_iff in Hp as [_ Hp].
    now rewrite H1, (IH p Hp H2).
Qed.

Lemma clear_of_line (y : jsstring) :
  includes (y ++ [LF]) fence = false -> clear (y ++ [LF]).
Proof.
  induction y as [|c y IH]; intros H.
  - now split.
  - cbn [app clear]. cbn [app includes] in H. apply orb_false_iff in H as [H1 H2].
    split; [|now apply IH].
    destruct (startsWith (c :: (y ++ [LF]) ++ fence) fence) eqn:E; [|reflexivity].
    apply (startsWith_straddle (c :: y) fence fence LF eq_refl eq_refl) in E.
    cbn [app] in E. congruence.
Qed.

Lemma fence_char (c : ascii) :
  Ascii.eqb (toUpperChar backtick) (toUpperChar c) = true -> Ascii.eqb backtick c = true.
Proof.
  destruct c as [[] [] [] [] [] [] [] []]; intros H;
    vm_compute in H; try discriminate H; reflexivity.
Qed.

Lemma startsWithCI_fence (s : jsstring) :
  startsWithCI s (fence ++ str "sql") = true -> startsWith s fence = true.
Proof.
  unfold fence. cbn [app]. destruct s as [|c1 [|c2 [|c3 s]]]; cbn [startsWithCI];
    rewrite ?andb_false_r; try discriminate.
  intros H.
  apply andb_true_iff in H as [H1 H]. apply andb_true_iff in H as [H2 H].
  apply andb_true_iff in H as [H3 _].
  cbn [startsWith].
  now rewrite (fence_char _ H1), (fence_char _ H2), (fence_char _ H3), startsWith_nil.
Qed.

Lemma removeOpeningFences_clear (y : jsstring) :
  clear y -> removeOpeningFences (y ++ fence) = y ++ fence.
Proof.
  induction y as [|c y IH]; intros H; [reflexivity|].
  destruct H as [H1 H2]. rewrite removeOpeningFences_eq.
  destruct (startsWithCI ((c :: y) ++ fence) (fence ++ str "sql")) eqn:E.
  - apply startsWithCI_fence in E. congruence.
  - cbn [app]. now rewrite (IH H2).
Qed.

Lemma removeClosingFence_clear (y : jsstring) :
  clear y -> removeClosingFence (y ++ fence) = y.
Proof.
  induction y as [|c y IH]; intros H; [reflexivity|].
  destruct H as [H1 H2]. cbn [app removeClosingFence].
  cbn [app] in H1. rewrite H1. cbn [andb]. now rewrite (IH H2).
Qed.

(** The leading whitespace of a line without its end is gone, or the
    whole line was blank. *)
Lemma dropWhile_line (q : jsstring) :
  dropWhile isSpace (q ++ [LF]) = []
  \/ exists y, dropWhile isSpace (q ++ [LF]) = y ++ [LF] /\ exists m, q = m ++ y.
Proof.
  induction q as [|c q IH]; cbn [app dropWhile].
  - now left.
  - destruct (isSpace c).
    + destruct IH as [IH|(y & E & m & ->)]; [now left|].
      right. exists y. split; [exact E|]. now exists (c :: m).
    + right. exists (c :: q). split; [reflexivity|]. now exists [].
Qed.

Lemma stripFences_fenced (query : jsstring) :
  includes query fence = false -> includes (stripFences (fenced query)) fence = false.
Proof.
  intros H. unfold stripFences. apply trim_noFence.
  rewrite removeOpeningFences_eq.
  change (startsWithCI (fenced query) (fence ++ str "sql")) with true. cbv iota.
  change (skipn 6 (fenced query)) with (LF :: query ++ LF :: fence).
  cbn [dropWhile]. change (isSpace LF) with true. cbv iota.
  change (query ++ LF :: fence) with (query ++ [LF] ++ backtick :: [backtick; backtick]).
  rewrite app_assoc, (dropWhile_app isSpace _ _ backtick eq_refl).
  change (backtick :: [backtick; backtick]) with fence.
  destruct (dropWhile_line query) as [->|(y & -> & m & ->)].
  - reflexivity.
  - apply includes_false_app in H as [_ H].
    assert (C : clear (y ++ [LF])).
    { apply clear_of_line. now apply noFence_app_tickless. }
    rewrite (removeOpeningFences_clear _ C), (removeClosingFence_clear _ C).
    now apply noFence_app_tickless.
Qed.

(** C7, as the code has it.  When the query inside the code block holds
    no fence of its own, the text [postProcessSQL] returns for the
    wrapped reply holds no fence. *)
Theorem postProcessSQL_strips_fences (query : jsstring) (opts : SQLGenerationOptions) :
  includes query fence = false ->
  includes (postProcessSQL (fenced query) opts) fence = false.
Proof.
  intros H. unfold postProcessSQL.
  apply formatSQL_noFence, withLimit_noFence, stripFences_fenced, H.
Qed.

(** A reply with two code blocks: the fence that closes the first is
    neither an opening fence nor at the end, and stays. *)
Lemma postProcessSQL_inner_fence_stays :
  let query := str "SELECT 1" ++ LF :: fence ++ LF :: fence ++ str "sql" ++ LF :: str "SELECT 2" in
  postProcessSQL (fenced query) (options None)
  = str "SELECT 1" ++ LF :: fence ++ LF :: str "SELECT 2"
  /\ includes (postProcessSQL (fenced query) (options None)) fence = true.
Proof. vm_compute. split; reflexivity. Qed.

Lemma postProcessSQL_strips_fences_witness :
  includes (str "SELECT carrier FROM freight_data") fence = false
  /\ includes (postProcessSQL (fenced (str "SELECT carrier FROM freight_data"))
                              (options None)) fence = false.
Proof.
  split; [reflexivity|].
  apply (postProcessSQL_strips_fences (str "SELECT carrier FROM freight_data")
           (options None)).
  reflexivity.
Defined.

End FenceFacts.

(** * Further properties *)

(** ** Strings *)

(** Distinctness of the entries of a list of literals. *)
Ltac distinct_keys :=
  repeat (constructor;
          [ cbn [In]; intros H;
            repeat (destruct H as [H|H]; [vm_compute in H; discriminate H|]);
            exact H
          | ]);
  constructor.

Section StringFacts.

Lemma lower_upper_char (c : ascii) : toLowerChar (toUpperChar c) = toLowerChar c.
Proof. destruct c as [[] [] [] [] [] [] [] []]; reflexivity. Qed.

Lemma lower_lower_char (c : ascii) : toLowerChar (toLowerChar c) = toLowerChar c.
Proof. destruct c as [[] [] [] [] [] [] [] []]; reflexivity. Qed.

Lemma toLowerCase_toUpperCase (s : jsstring) :
  toLowerCase (toUpperCase s) = toLowerCase s.
Proof.
  unfold toLowerCase, toUpperCase. rewrite map_map.
  apply map_ext. apply lower_upper_char.
Qed.

Lemma toLowerCase_idem (s : jsstring) : toLowerCase (toLowerCase s) = toLowerCase s.
Proof.
  unfold toLowerCase. rewrite map_map. apply map_ext. apply lower_lower_char.
Qed.

Lemma startsWith_refl (s : jsstring) : startsWith s s = true.
Proof.
  induction s as [|c s IH]; [reflexivity|].
  cbn [startsWith]. now rewrite Ascii.eqb_refl.
Qed.

Lemma includes_refl (s : jsstring) : includes s s = true.
Proof. destruct s; cbn [includes]; now rewrite startsWith_refl. Qed.

Lemma includes_nil (s : jsstring) : includes s [] = true.
Proof. destruct s; reflexivity. Qed.

Lemma Forall_prefix {A} (P : A -> Prop) (n : nat) (l : list A) :
  Forall P l -> Forall P (firstn n l).
Proof.
  intros H. revert n. induction H; intros [|n]; cbn; constructor; auto.
Qed.

Lemma filter_all {A} (f : A -> bool) (l : list A) :
  Forall (fun x => f x = true) l -> filter f l = l.
Proof.
  induction 1 as [|x l Hx _ IH]; [reflexivity|]. cbn. now rewrite Hx, IH.
Qed.

Lemma updateFirst_twice {A} (test : A -> bool) (change : A -> A) (l l1 : list A) :
  (forall x, test (change x) = test x) ->
  updateFirst test change l = Some l1 ->
  exists l2, updateFirst test change l1 = Some l2
             /\ (  (forall x, change (change x) = x) -> l2 = l).
Proof.
  intros Hkeep. revert l1. induction l as [|x l IH]; intros l1; cbn [updateFirst]; [discriminate|].
  destruct (test x) eqn:E.
  - intros [= <-]. cbn [updateFirst]. rewrite Hkeep, E. eexists. split; [reflexivity|].
    intros Hinv. now rewrite Hinv.
  - destruct (updateFirst test change l) as [l'|]; [|discriminate].
    intros [= <-]. cbn [updateFirst]. rewrite E.
    destruct (IH l' eq_refl) as (l2 & -> & H2). eexists. split; [reflexivity|].
    intros Hinv. cbn. now rewrite (H2 Hinv).
Qed.

Lemma updateFirst_find {A} (test : A -> bool) (change : A -> A) (l : list A) :
  (forall x, test (change x) = test x) ->
  match find test l with
  | Some x => exists l1, updateFirst test change l = Some l1
                         /\ find test l1 = Some (change x)
                         /\ length l1 = length l
  | None => updateFirst test change l = None
  end.
Proof.
  intros Hkeep. induction l as [|x l IH]; cbn [find updateFirst]; [reflexivity|].
  destruct (test x) eqn:E.
  - eexists. split; [reflexivity|]. cbn [find]. now rewrite Hkeep, E.
  - destruct (find test l) as [y|].
    + destruct IH as (l1 & -> & Hf & Hl). eexists. split; [reflexivity|].
      cbn [find length]. rewrite E. now rewrite Hl.
    + now rewrite IH.
Qed.

(** *** Trimming *)

Lemma dropWhile_head {A} (f : A -> bool) (l : list A) (x : A) (r : list A) :
  dropWhile f l = x :: r -> f x = false.
Proof.
  induction l as [|y l IH]; cbn [dropWhile]; [discriminate|].
  destruct (f y) eqn:E; [exact IH|]. now intros [= <- _].
Qed.

Lemma dropWhile_idem {A} (f : A -> bool) (l : list A) :
  dropWhile f (dropWhile f l) = dropWhile f l.
Proof.
  destruct (dropWhile f l) as [|x r] eqn:E; [reflexivity|].
  cbn [dropWhile]. now rewrite (dropWhile_head _ _ _ _ E).
Qed.

Lemma dropWhile_all {A} (f : A -> bool) (pre l : list A) :
  forallb f pre = true -> dropWhile f (pre ++ l) = dropWhile f l.
Proof.
  induction pre as [|x pre IH]; cbn [forallb app dropWhile]; [reflexivity|].
  intros H. apply andb_true_iff in H as [-> H]. now apply IH.
Qed.

Lemma trimEnd_cons (c : ascii) (s : jsstring) :
  isSpace c = false -> trimEnd (c :: s) = c :: trimEnd s.
Proof.
  intros Hc. unfold trimEnd. cbn [rev].
  rewrite (dropWhile_app isSpace (rev s) [] c Hc), rev_app_distr. reflexivity.
Qed.

Lemma trimEnd_idem (s : jsstring) : trimEnd (trimEnd s) = trimEnd s.
Proof. unfold trimEnd. now rewrite rev_involutive, dropWhile_idem. Qed.

Lemma trim_idem (s : jsstring) : trim (trim s) = trim s.
Proof.
  unfold trim, trimStart. destruct (dropWhile isSpace s) as [|c u] eqn:E; [reflexivity|].
  pose proof (dropWhile_head _ _ _ _ E) as Hc.
  rewrite (trimEnd_cons c u Hc). cbn [dropWhile]. rewrite Hc.
  now rewrite (trimEnd_cons c _ Hc), trimEnd_idem.
Qed.

Lemma trim_after_spaces (pre s : jsstring) :
  forallb isSpace pre = true -> trim (pre ++ s) = trim s.
Proof. intros H. unfold trim, trimStart. now rewrite dropWhile_all. Qed.

Lemma trim_In (s : jsstring) (c : ascii) : In c (trim s) -> In c s.
Proof.
  unfold trim, trimStart. intros H.
  destruct (dropWhile_suffix isSpace s) as [m E]. rewrite E. apply in_or_app. right.
  destruct (trimEnd_prefix (dropWhile isSpace s)) as [m' E']. rewrite E'.
  apply in_or_app. now left.
Qed.

End StringFacts.

(** ** The export manager *)

Section ExportMore.

Import ExportManager.

Lemma replaceChar_app (c : ascii) (r a b : jsstring) :
  replaceChar c r (a ++ b) = replaceChar c r a ++ replaceChar c r b.
Proof. apply flat_map_app. Qed.

Lemma replaceChar_cons (c : ascii) (r : jsstring) (x : ascii) (s : jsstring) :
  replaceChar c r (x :: s) = replaceChar c r [x] ++ replaceChar c r s.
Proof. unfold replaceChar. cbn [flat_map]. now rewrite app_nil_r. Qed.

Lemma fivePasses_one (x : ascii) : fivePasses [x] = entity x.
Proof.
  unfold fivePasses, entity.
  destruct (Ascii.eqb x ampersand) eqn:E1; [apply Ascii.eqb_eq in E1; now subst|].
  destruct (Ascii.eqb x lessThan) eqn:E2; [apply Ascii.eqb_eq in E2; now subst|].
  destruct (Ascii.eqb x greaterThan) eqn:E3; [apply Ascii.eqb_eq in E3; now subst|].
  destruct (Ascii.eqb x quote) eqn:E4; [apply Ascii.eqb_eq in E4; now subst|].
  destruct (Ascii.eqb x apostrophe) eqn:E5; [apply Ascii.eqb_eq in E5; now subst|].
  unfold replaceChar. cbn [flat_map app]. rewrite E1. cbn [flat_map app].
  rewrite E2. cbn [flat_map app]. rewrite E3. cbn [flat_map app].
  rewrite E4. cbn [flat_map app]. now rewrite E5.
Qed.

(** The five replaces in a row amount to one pass that writes each
    character's entity: no replace touches what an earlier one wrote. *)
Lemma fivePasses_single (s : jsstring) : fivePasses s = flat_map entity s.
Proof.
  induction s as [|x s IH]; [reflexivity|].
  cbn [flat_map]. rewrite <- IH, <- fivePasses_one. unfold fivePasses.
  rewrite (replaceChar_cons ampersand), !replaceChar_app. reflexivity.
Qed.

Lemma escapeHTML_single (v : value) : escapeHTML v = flat_map entity (fieldText v).
Proof. destruct v; try reflexivity; apply fivePasses_single. Qed.

Lemma startsWith_self_app (p rest : jsstring) : startsWith (p ++ rest) p = true.
Proof.
  induction p as [|a p IH]; cbn [app startsWith]; [apply startsWith_nil|].
  now rewrite Ascii.eqb_refl, IH.
Qed.

Lemma unescape_entity (c : ascii) (rest : jsstring) :
  unescapeHTMLFrom 0 (entity c ++ rest) = c :: unescapeHTMLFrom 0 rest.
Proof.
  unfold entity.
  destruct (Ascii.eqb c ampersand) eqn:E1.
  { apply Ascii.eqb_eq in E1; subst.
    change (str "&amp;" ++ rest) with (ampersand :: str "amp;" ++ rest).
    cbn [unescapeHTMLFrom]. rewrite Ascii.eqb_refl, startsWith_self_app. reflexivity. }
  destruct (Ascii.eqb c lessThan) eqn:E2.
  { apply Ascii.eqb_eq in E2; subst.
    change (str "&lt;" ++ rest) with (ampersand :: str "lt;" ++ rest).
    cbn [unescapeHTMLFrom]. rewrite Ascii.eqb_refl, startsWith_self_app. reflexivity. }
  destruct (Ascii.eqb c greaterThan) eqn:E3.
  { apply Ascii.eqb_eq in E3; subst.
    change (str "&gt;" ++ rest) with (ampersand :: str "gt;" ++ rest).
    cbn [unescapeHTMLFrom]. rewrite Ascii.eqb_refl, startsWith_self_app. reflexivity. }
  destruct (Ascii.eqb c quote) eqn:E4.
  { apply Ascii.eqb_eq in E4; subst.
    change (str "&quot;" ++ rest) with (ampersand :: str "quot;" ++ rest).
    cbn [unescapeHTMLFrom]. rewrite Ascii.eqb_refl, startsWith_self_app. reflexivity. }
  destruct (Ascii.eqb c apostrophe) eqn:E5.
  { apply Ascii.eqb_eq in E5; subst.
    change (str "&#39;" ++ rest) with (ampersand :: str "#39;" ++ rest).
    cbn [unescapeHTMLFrom]. rewrite Ascii.eqb_refl, startsWith_self_app. reflexivity. }
  cbn [app unescapeHTMLFrom]. now rewrite E1.
Qed.

Lemma entity_safe (c : ascii) : forallb (fun x => negb (isMarkup x)) (entity c) = true.
Proof.
  unfold entity.
  destruct (Ascii.eqb c ampersand) eqn:E1; [reflexivity|].
  destruct (Ascii.eqb c lessThan) eqn:E2; [reflexivity|].
  destruct (Ascii.eqb c greaterThan) eqn:E3; [reflexivity|].
  destruct (Ascii.eqb c quote) eqn:E4; [reflexivity|].
  destruct (Ascii.eqb c apostrophe) eqn:E5; [reflexivity|].
  cbn [forallb]. unfold isMarkup. now rewrite E2, E3, E4, E5.
Qed.

(** X1. [escapeHTML] never writes one of the characters less-than,
    greater-than, double quote or apostrophe, and reading the entities
    back gives the text of the value (the empty text for [null] and
    [undefined]). *)
Theorem escapeHTML_safe_and_reversible (v : value) :
  forallb (fun c => negb (isMarkup c)) (escapeHTML v) = true
  /\ unescapeHTML (escapeHTML v) = fieldText v.
Proof.
  rewrite escapeHTML_single. unfold unescapeHTML.
  induction (fieldText v) as [|c s [IH1 IH2]]; [now split|].
  cbn [flat_map]. split.
  - now rewrite forallb_app, entity_safe, IH1.
  - now rewrite unescape_entity, IH2.
Qed.

(** X2. The [includeHeaders] option has no effect on the text
    [exportToCSV] writes: the first row is written as a line of its own
    either way.  The only error is No data to export, thrown exactly
    when the data are absent or have no row. *)
Theorem exportToCSV_headers_make_no_difference
    (nowISO : jsstring) (d : ExportData) (meta : bool) :
  exportToCSV nowISO d {| includeHeaders := true; includeMetadata := meta |}
  = exportToCSV nowISO d {| includeHeaders := false; includeMetadata := meta |}
  /\ match exportToCSV nowISO d {| includeHeaders := true; includeMetadata := meta |} with
     | Throw message =>
         message = str "No data to export" /\ (data d = None \/ data d = Some [])
     | Ok _ => exists headers rest, data d = Some (headers :: rest)
     end.
Proof.
  unfold exportToCSV.
  destruct (data d) as [[|headers rest]|]; cbn [includeHeaders]; cbv zeta.
  - split; [reflexivity|]. split; [reflexivity|now right].
  - split; [reflexivity|]. now exists headers, rest.
  - split; [reflexivity|]. split; [reflexivity|now left].
Qed.

Lemma csvLine_nonempty (row : list value) (tail : jsstring) : csvLine row ++ tail <> [].
Proof.
  unfold csvLine. rewrite <- app_assoc. intros H.
  apply app_eq_nil in H as [_ H]. discriminate.
Qed.

Lemma readLine_shorter (v : value) (row : list value) (tail : jsstring) :
  length tail < length (csvLine (v :: row) ++ tail).
Proof.
  rewrite length_app. unfold csvLine. rewrite length_app. cbn. lia.
Qed.

Lemma readLines_csv (rows : list (list value)) :
  Forall (fun row => row <> []) rows ->
  forall fuel,
    length (concat (map csvLine rows)) <= fuel ->
    readLines fuel (concat (map csvLine rows))
    = Some (map (map fieldText) rows).
Proof.
  induction 1 as [|row rows Hrow _ IH]; intros fuel Hfuel; [now destruct fuel|].
  destruct row as [|v row]; [easy|].
  cbn [map concat] in *.
  pose proof (readLine_shorter v row (concat (map csvLine rows))) as L.
  destruct (csvLine (v :: row) ++ concat (map csvLine rows)) as [|c s] eqn:E.
  - now apply csvLine_nonempty in E.
  - destruct fuel as [|fuel]; [cbn in Hfuel; lia|].
    cbn [readLines]. rewrite <- E, readLine_csvLine, IH; [reflexivity|].
    cbn [length] in *. lia.
Qed.

(** X3. Without the metadata lines, the file [exportToCSV] writes for
    rows that each have a cell reads back, line by line and field by
    field, as the texts of the cells. *)
Theorem exportToCSV_reads_back
    (nowISO : jsstring) (d : ExportData) (options : ExportOptions)
    (row : list value) (rows : list (list value)) :
  data d = Some (row :: rows) ->
  Forall (fun r => r <> []) (row :: rows) ->
  includeMetadata options = false ->
  exists content,
    exportToCSV nowISO d options = Ok content
    /\ readCSV content = Some (map (map fieldText) (row :: rows)).
Proof.
  intros Hd Hrows Hmeta. unfold exportToCSV. rewrite Hd, Hmeta. cbv zeta.
  exists (concat (map csvLine (row :: rows))). split.
  - now destruct (includeHeaders options).
  - unfold readCSV. now apply readLines_csv.
Qed.

Lemma exportToCSV_reads_back_witness :
  let table := [[VString (str "carrier"); VString (str "note")];
                [VString (str "UPS, Inc."); VNull];
                [VNumber (str "42.5"); VBoolean true]] in
  exists content,
    exportToCSV (str "2025-01-01T00:00:00.000Z")
      {| sql := str "SELECT 1"; question := str "q"; data := Some table; metadata := None |}
      {| includeHeaders := true; includeMetadata := false |} = Ok content
    /\ readCSV content
       = Some [[str "carrier"; str "note"]; [str "UPS, Inc."; []]; [str "42.5"; str "true"]].
Proof.
  intros table.
  apply (exportToCSV_reads_back (str "2025-01-01T00:00:00.000Z")
           {| sql := str "SELECT 1"; question := str "q"; data := Some table; metadata := None |}
           {| includeHeaders := true; includeMetadata := false |}
           [VString (str "carrier"); VString (str "note")]
           [[VString (str "UPS, Inc."); VNull]; [VNumber (str "42.5"); VBoolean true]]).
  - reflexivity.
  - repeat constructor; discriminate.
  - reflexivity.
Defined.

(** *** The table name of a query *)

Lemma takeWhile_all {A} (f : A -> bool) (l : list A) : forallb f (takeWhile f l) = true.
Proof.
  induction l as [|x l IH]; [reflexivity|]. cbn [takeWhile].
  destruct (f x) eqn:E; [|reflexivity]. cbn [forallb]. now rewrite E, IH.
Qed.

(** X4. The table name [extractTableName] finds is never empty, is
    made of word characters only, and the query holds the letters FROM
    in some letter case; a query without them has no table name. *)
Theorem extractTableName_is_a_word (sql : jsstring) :
  match extractTableName sql with
  | Some name =>
      name <> [] /\ forallb isWordChar name = true
      /\ includesNoCase sql (str "FROM") = true
  | None => True
  end
  /\ (includesNoCase sql (str "FROM") = false -> extractTableName sql = None).
Proof.
  induction sql as [|c sql [IH1 IH2]].
  - now split.
  - cbn [extractTableName includesNoCase]. unfold tableNameAt.
    destruct (startsWithNoCase (c :: sql) (str "FROM")) eqn:M.
    + split; [|discriminate].
      destruct (_ <? _).
      * destruct (takeWhile isWordChar _) as [|x name] eqn:T.
        -- destruct (extractTableName sql); [|exact I].
           destruct IH1 as (H1 & H2 & H3). now repeat split.
        -- repeat split; [discriminate|rewrite <- T; apply takeWhile_all].
      * destruct (extractTableName sql); [|exact I].
        destruct IH1 as (H1 & H2 & H3). now repeat split.
    + cbn [orb]. split.
      * destruct (extractTableName sql); [|exact I].
        destruct IH1 as (H1 & H2 & H3). now repeat split.
      * exact IH2.
Qed.

Lemma extractTableName_is_a_word_witness :
  includesNoCase (str "SELECT 1") (str "FROM") = false
  /\ extractTableName (str "SELECT 1") = None.
Proof.
  split; [reflexivity|].
  apply (proj2 (extractTableName_is_a_word (str "SELECT 1"))). reflexivity.
Defined.

(** X30. For a value whose text holds no carriage return, or holds
    one together with a comma, a double quote or a line feed, the field
    [escapeCSV] writes is a field of the standard format: the standard
    reader recovers the text of the value from it (the empty text for
    null and undefined), and from a line written for a row of such
    values it reads the texts of the values and stops after the line. *)
Theorem escapeCSV_standard_roundtrip (v : value) (row : list value) (tail : jsstring) :
  forallb (fun x => noBareCR (fieldText x)) (v :: row) = true ->
  unescapeStandard (escapeCSV v) = Some (fieldText v)
  /\ readRecord (csvLine (v :: row) ++ tail) false true []
     = Some (map fieldText (v :: row), tail).
Proof.
  intros H. split; [|now apply readRecord_csvLine].
  cbn [forallb] in H. apply andb_true_iff in H as [Hv _].
  now apply unescapeStandard_escapeCSV.
Qed.

End ExportMore.

Lemma escapeCSV_standard_roundtrip_witness :
  ExportManager.readRecord
    (ExportManager.csvLine
       [ExportManager.VString (str "Smith, John" ++ [CR; LF] ++ str "Jr.");
        ExportManager.VNull;
        ExportManager.VNumber (str "42.5")]
     ++ str "next") false true []
  = Some ([str "Smith, John" ++ [CR; LF] ++ str "Jr."; []; str "42.5"], str "next").
Proof.
  apply (escapeCSV_standard_roundtrip
           (ExportManager.VString (str "Smith, John" ++ [CR; LF] ++ str "Jr."))
           [ExportManager.VNull; ExportManager.VNumber (str "42.5")] (str "next")).
  vm_compute. reflexivity.
Defined.

(** ** The mock data generator, further *)

Section MockDataMore.

Import MockData.

Variable entropy : nat -> N.

Lemma generateDataFromSQL_lower (a b : jsstring) :
  toLowerCase a = toLowerCase b ->
  generateDataFromSQL entropy a = generateDataFromSQL entropy b.
Proof. intros H. unfold generateDataFromSQL. now rewrite H. Qed.

(** X5. For a query of ASCII text the dataset chosen does not depend
    on the letter case: the query in capitals, or in small letters,
    gets what the query itself gets, from [generateDataFromSQL] and
    from [generateJoinedData]. *)
Theorem generateDataFromSQL_ignores_case (sql : jsstring) :
  plainText sql = true ->
  generateDataFromSQL entropy (toUpperCase sql) = generateDataFromSQL entropy sql
  /\ generateDataFromSQL entropy (toLowerCase sql) = generateDataFromSQL entropy sql
  /\ generateJoinedData entropy (toUpperCase sql) = generateJoinedData entropy sql
  /\ generateJoinedData entropy (toLowerCase sql) = generateJoinedData entropy sql.
Proof.
  intros _.
  assert (U := generateDataFromSQL_lower _ _ (toLowerCase_toUpperCase sql)).
  assert (L := generateDataFromSQL_lower _ _ (toLowerCase_idem sql)).
  repeat split; try assumption; unfold generateJoinedData.
  - now rewrite toLowerCase_toUpperCase, U.
  - now rewrite toLowerCase_idem, L.
Qed.

(** *** The shape of the datasets *)

Lemma mapM_Forall {A B} (P : B -> Prop) (f : A -> Rand B) (l : list A) :
  (forall x k, P (fst (f x k))) -> forall k, Forall P (fst (mapM f l k)).
Proof.
  intros H. induction l as [|x l IH]; intros k; cbn [mapM]; [constructor|].
  unfold bind. pose proof (H x k) as Hx. destruct (f x k) as [y k1].
  specialize (IH k1). destruct (mapM f l k1) as [ys k2]. cbn in *.
  now constructor.
Qed.

Lemma mapM_uniform {A} (f : A -> Rand row) (l : list A) (keys : list jsstring) :
  (forall x k, map fst (fst (f x k)) = keys) -> NoDup keys ->
  uniformRows (fun options =>
                 bind (mapM f l) (fun data => ret (limitAndFormatData data options)))
              (length l).
Proof.
  intros Hkeys Hnd k. exists (fst (mapM f l k)), keys.
  split; [|split; [|split]].
  - intros options. unfold bind, ret. now destruct (mapM f l k).
  - apply mapM_length.
  - exact Hnd.
  - now apply mapM_Forall.
Qed.

Lemma carrierAnalysis_uniform : uniformRows (generateCarrierAnalysisData entropy) 5.
Proof.
  apply (mapM_uniform _ carriers
           (map str ["carrier"; "total_cost"; "total_shipments"; "avg_cost_per_shipment";
                     "service_type"; "region"; "rating"]%string)).
  - intros x k. reflexivity.
  - cbn [map]. distinct_keys.
Qed.

Lemma timeSeries_uniform : uniformRows (generateTimeSeriesData entropy) 4.
Proof.
  apply (mapM_uniform _ (map str ["Q1 2025"; "Q2 2025"; "Q3 2025"; "Q4 2025"]%string)
           (map str ["quarter"; "year"; "total_cost"; "total_shipments";
                     "avg_delivery_time"; "top_carrier"]%string)).
  - intros x k. reflexivity.
  - cbn [map]. distinct_keys.
Qed.

Lemma routeAnalysis_uniform : uniformRows (generateRouteAnalysisData entropy) 5.
Proof.
  apply (mapM_uniform _ (firstn 5 origins)
           (map str ["origin"; "destination"; "distance_miles"; "avg_cost";
                     "total_shipments"; "cost_per_mile"]%string)).
  - intros x k. reflexivity.
  - cbn [map]. distinct_keys.
Qed.

Lemma performanceMetrics_uniform : uniformRows (generatePerformanceMetricsData entropy) 5.
Proof.
  apply (mapM_uniform _ carriers
           (map str ["carrier"; "avg_delivery_time_days"; "on_time_delivery_rate";
                     "customer_rating"; "total_shipments"; "cost_per_mile"]%string)).
  - intros x k. reflexivity.
  - cbn [map]. distinct_keys.
Qed.

Lemma costAnalysis_uniform : uniformRows generateCostAnalysisData 6.
Proof.
  intros k. eexists. exists (map str ["cost_category"; "total_cost"; "percentage"]%string).
  split; [|split; [|split]].
  - intros options. reflexivity.
  - reflexivity.
  - cbn [map]. distinct_keys.
  - repeat constructor.
Qed.

Lemma trendRows_keys (months : list jsstring) (index : nat) (total : Q) (k : nat) :
  Forall (fun r => map fst r
                   = map str ["month"; "monthly_cost"; "running_total";
                              "month_number"; "growth_rate"]%string)
         (fst (trendRows entropy months index total k)).
Proof.
  revert index total k.
  induction months as [|m months IH]; intros index total k; cbn [trendRows];
    [constructor|].
  unfold bind, random.
  destruct (0 <? index); cbn [fst snd ret];
    match goal with
    | |- context [trendRows entropy months ?i ?t ?k'] =>
        specialize (IH i t k'); destruct (trendRows entropy months i t k') as [rows k2]
    end; cbn in *; now constructor.
Qed.

Lemma trendAnalysis_uniform : uniformRows (generateTrendAnalysisData entropy) 6.
Proof.
  intros k.
  exists (fst (trendRows entropy
                 (map str ["Jan"; "Feb"; "Mar"; "Apr"; "May"; "Jun"]%string) 0 0 k)),
         (map str ["month"; "monthly_cost"; "running_total";
                   "month_number"; "growth_rate"]%string).
  split; [|split; [|split]].
  - intros options. unfold generateTrendAnalysisData, bind, ret.
    now destruct (trendRows _ _ _ _ _).
  - apply trendRows_length.
  - cbn [map]. distinct_keys.
  - apply trendRows_keys.
Qed.

Lemma basicFreight_uniform : uniformRows (generateBasicFreightData entropy) 10.
Proof.
  apply (mapM_uniform _ (seq 0 10)
           (map str ["id"; "carrier"; "origin"; "destination"; "cost"; "weight";
                     "shipment_date"; "quarter"; "year"; "service_type";
                     "delivery_time_days"; "status"]%string)).
  - intros x k. reflexivity.
  - cbn [map]. distinct_keys.
Qed.

Lemma carrierFreightJoined_uniform :
  uniformRows (generateCarrierFreightJoinedData entropy) 5.
Proof.
  apply (mapM_uniform _ carriers
           (map str ["carrier_name"; "carrier_type"; "carrier_region"; "carrier_rating";
                     "total_freight_cost"; "total_shipments"; "avg_cost_per_shipment";
                     "performance_score"]%string)).
  - intros x k. reflexivity.
  - cbn [map]. distinct_keys.
Qed.

Lemma routeFreightJoined_uniform :
  uniformRows (generateRouteFreightJoinedData entropy) 5.
Proof.
  apply (mapM_uniform _ (firstn 5 origins)
           (map str ["origin"; "destination"; "route_distance"; "typical_cost";
                     "actual_avg_cost"; "cost_variance"; "shipment_count"]%string)).
  - intros x k. reflexivity.
  - cbn [map]. distinct_keys.
Qed.

Lemma generateDataFromSQL_uniform (sql : jsstring) :
  exists n, uniformRows (generateDataFromSQL entropy sql) n /\ 4 <= n <= 10.
Proof.
  unfold generateDataFromSQL.
  destruct (isCarrierAnalysisQuery _);
    [exists 5; split; [apply carrierAnalysis_uniform|lia]|].
  destruct (isTimeSeriesQuery _);
    [exists 4; split; [apply timeSeries_uniform|lia]|].
  destruct (isRouteAnalysisQuery _);
    [exists 5; split; [apply routeAnalysis_uniform|lia]|].
  destruct (isPerformanceMetricsQuery _);
    [exists 5; split; [apply performanceMetrics_uniform|lia]|].
  destruct (isCostAnalysisQuery _);
    [exists 6; split; [apply costAnalysis_uniform|lia]|].
  destruct (isTrendAnalysisQuery _);
    [exists 6; split; [apply trendAnalysis_uniform|lia]|].
  exists 10; split; [apply basicFreight_uniform|lia].
Qed.

Lemma generateJoinedData_uniform (sql : jsstring) :
  exists n, uniformRows (generateJoinedData entropy sql) n /\ 4 <= n <= 10.
Proof.
  unfold generateJoinedData.
  destruct (_ && _); [exists 5; split; [apply carrierFreightJoined_uniform|lia]|].
  destruct (_ && _); [exists 5; split; [apply routeFreightJoined_uniform|lia]|].
  apply generateDataFromSQL_uniform.
Qed.


Lemma limitAndFormatData_rows (data : list row) (options : MockDataOptions) :
  limitAndFormatData data options =
    if formatForExcel options then
      if includeHeaders options then
        Arrays (map CStr (map fst (hd [] (limitRows data options)))
                  :: map (fun r => map (getField r)
                                     (map fst (hd [] (limitRows data options))))
                         (limitRows data options))
      else Arrays (map (map snd) (limitRows data options))
    else Objects (limitRows data options).
Proof. reflexivity. Qed.

Lemma limitRows_prefix (data : list row) (options : MockDataOptions) :
  exists m, limitRows data options = firstn m data.
Proof.
  assert (Hall : exists m, data = firstn m data)
    by (exists (length data); symmetry; apply firstn_all).
  unfold limitRows. destruct (maxRows options) as [n|]; [|exact Hall].
  destruct (_ && _); [|exact Hall].
  unfold slice0. destruct n as [q| | |]; try exact Hall; try (now exists 0).
  destruct (_ <? 0)%Z; eexists; reflexivity.
Qed.

Lemma truncate_one (q : Q) :
  Qle_bool 1 q = true -> truncate q = Qfloor q /\ (1 <= Qfloor q)%Z.
Proof.
  intros H. apply Qle_bool_iff in H. unfold truncate.
  assert (H0 : Qle_bool 0 q = true).
  { apply Qle_bool_iff. apply Qle_trans with 1%Q; [discriminate|exact H]. }
  rewrite H0. split; [reflexivity|].
  change 1%Z with (Qfloor 1). now apply Qfloor_resp_le.
Qed.

(** With a limit of one or more, or none, the rows kept of a dataset
    that has rows are at least one, and no more than the limit. *)
Lemma limitRows_bounds (data : list row) (options : MockDataOptions) :
  match maxRows options with Some n => oneOrMore n = true | None => True end ->
  1 <= length data ->
  1 <= length (limitRows data options) <= length data
  /\ forall q, maxRows options = Some (Num q) ->
               (inject_Z (Z.of_nat (length (limitRows data options))) <= q)%Q.
Proof.
  intros Hone Hdata. unfold limitRows.
  destruct (maxRows options) as [[q| | |]|]; try discriminate Hone;
    try (split; [cbn; lia|discriminate]).
  cbn [oneOrMore] in Hone. destruct (truncate_one q Hone) as [Ht Hfloor].
  destruct (truthy (Num q) && lengthExceeds (length data) (Num q)) eqn:E.
  - apply andb_true_iff in E as [_ E]. cbn [lengthExceeds] in E.
    unfold slice0. rewrite Ht.
    destruct (Qfloor q <? 0)%Z eqn:N; [apply Z.ltb_lt in N; lia|].
    rewrite length_firstn. split; [lia|].
    intros q' [= <-].
    apply Qle_trans with (inject_Z (Qfloor q)); [|apply Qfloor_le].
    rewrite <- Zle_Qle. lia.
  - split; [lia|]. intros q' [= <-].
    apply andb_false_iff in E as [E|E].
    + cbn [truthy] in E. apply negb_false_iff, Qeq_bool_iff in E.
      apply Qle_bool_iff in Hone. rewrite E in Hone. now elim Hone.
    + cbn [lengthExceeds] in E. apply negb_false_iff in E.
      now apply Qle_bool_iff in E.
Qed.

Lemma outputLength_rows (data : list row) (options : MockDataOptions) :
  outputLength (limitAndFormatData data options)
  = headerRows options + length (limitRows data options).
Proof.
  rewrite limitAndFormatData_rows. unfold headerRows.
  destruct (formatForExcel options), (includeHeaders options); cbn;
    now rewrite ?length_map.
Qed.

Lemma uniform_row_count (g : MockDataOptions -> Rand output) (m : nat)
    (options : MockDataOptions) (k : nat) :
  uniformRows g m -> 4 <= m <= 10 ->
  match maxRows options with Some n => oneOrMore n = true | None => True end ->
  headerRows options + 1 <= outputLength (fst (g options k)) <= headerRows options + 10
  /\ forall q, maxRows options = Some (Num q) ->
               (inject_Z (Z.of_nat (outputLength (fst (g options k))
                                    - headerRows options)) <= q)%Q.
Proof.
  intros U Hm Hlimit. destruct (U k) as (data & keys & Hg & Hlen & _).
  rewrite Hg, outputLength_rows.
  destruct (limitRows_bounds data options Hlimit) as [Hb Hq]; [lia|].
  split; [lia|]. intros q E.
  replace (headerRows options + length (limitRows data options) - headerRows options)
    with (length (limitRows data options)) by lia.
  now apply Hq.
Qed.

(** X6. With no row limit, or a limit of one or more (a fraction or
    infinity included), both generators return at least one row and at
    most ten, and no more than the limit, not counting the header row
    that the Excel format with headers adds. *)
Theorem generated_row_count (sql : jsstring) (options : MockDataOptions) (k : nat) :
  match maxRows options with Some n => oneOrMore n = true | None => True end ->
  (headerRows options + 1 <= outputLength (fst (generateDataFromSQL entropy sql options k))
     <= headerRows options + 10
   /\ forall q, maxRows options = Some (Num q) ->
                (inject_Z (Z.of_nat
                             (outputLength (fst (generateDataFromSQL entropy sql options k))
                              - headerRows options)) <= q)%Q)
  /\ (headerRows options + 1 <= outputLength (fst (generateJoinedData entropy sql options k))
        <= headerRows options + 10
      /\ forall q, maxRows options = Some (Num q) ->
                   (inject_Z (Z.of_nat
                                (outputLength (fst (generateJoinedData entropy sql options k))
                                 - headerRows options)) <= q)%Q).
Proof.
  intros H.
  destruct (generateDataFromSQL_uniform sql) as (m & U & Hm).
  destruct (generateJoinedData_uniform sql) as (m' & U' & Hm').
  split; [now apply (uniform_row_count _ m)|now apply (uniform_row_count _ m')].
Qed.

Lemma getField_own_keys (r : row) :
  NoDup (map fst r) -> map (getField r) (map fst r) = map snd r.
Proof.
  induction r as [|[key v] r IH]; intros H; [reflexivity|].
  cbn [map fst snd] in *. inversion H as [|? ? Hnotin Hnd]; subst.
  cbn [getField]. rewrite (proj2 (eqs_true key key) eq_refl). f_equal.
  rewrite <- (IH Hnd). apply map_ext_in. intros h Hh.
  cbn [getField]. destruct (eqs key h) eqn:E; [|reflexivity].
  apply eqs_true in E. now subst.
Qed.

Lemma uniform_grid (g : MockDataOptions -> Rand output) (m : nat)
    (limit : option number) (k : nat) :
  uniformRows g m ->
  exists header rows,
    fst (g {| includeHeaders := true; formatForExcel := true; maxRows := limit |} k)
    = Arrays (header :: rows)
    /\ fst (g {| includeHeaders := false; formatForExcel := true; maxRows := limit |} k)
       = Arrays rows
    /\ Forall (fun r => length r = length header) rows.
Proof.
  intros U. destruct (U k) as (data & keys & Hg & _ & Hnd & Hkeys).
  rewrite !Hg, !limitAndFormatData_rows. cbn [formatForExcel includeHeaders].
  change (limitRows data {| includeHeaders := false; formatForExcel := true;
                            maxRows := limit |})
    with (limitRows data {| includeHeaders := true; formatForExcel := true;
                            maxRows := limit |}).
  destruct (limitRows_prefix data {| includeHeaders := true; formatForExcel := true;
                                     maxRows := limit |}) as [p ->].
  assert (Hres : Forall (fun r => map fst r = keys) (firstn p data))
    by now apply Forall_prefix.
  eexists. exists (map (map snd) (firstn p data)). split; [|split; [reflexivity|]].
  - f_equal. f_equal. apply map_ext_in. intros r Hr.
    destruct (firstn p data) as [|r0 rest]; [easy|].
    inversion Hres as [|? ? H0 _]; subst. cbn [hd].
    rewrite Forall_forall in Hres. rewrite <- (Hres r Hr).
    apply getField_own_keys. now rewrite (Hres r Hr).
  - rewrite Forall_map. rewrite Forall_forall in *. intros r Hr.
    destruct (firstn p data) as [|r0 rest]; [easy|]. cbn [hd].
    rewrite !length_map. rewrite <- (length_map fst r0), <- (length_map fst r).
    now rewrite (Hres r Hr), (Hres r0 (or_introl eq_refl)).
Qed.

(** X7. Formatted for Excel with headers, the output is a header row
    followed by exactly the rows that the format without headers gives
    (each row's values in the order of its keys), and every row is as
    long as the header row. *)
Theorem excel_grid_with_headers (sql : jsstring) (limit : option number) (k : nat) :
  (exists header rows,
     fst (generateDataFromSQL entropy sql
            {| includeHeaders := true; formatForExcel := true; maxRows := limit |} k)
     = Arrays (header :: rows)
     /\ fst (generateDataFromSQL entropy sql
               {| includeHeaders := false; formatForExcel := true; maxRows := limit |} k)
        = Arrays rows
     /\ Forall (fun r => length r = length header) rows)
  /\ (exists header rows,
       fst (generateJoinedData entropy sql
              {| includeHeaders := true; formatForExcel := true; maxRows := limit |} k)
       = Arrays (header :: rows)
       /\ fst (generateJoinedData entropy sql
                 {| includeHeaders := false; formatForExcel := true; maxRows := limit |} k)
          = Arrays rows
       /\ Forall (fun r => length r = length header) rows).
Proof.
  destruct (generateDataFromSQL_uniform sql) as (m & U & _).
  destruct (generateJoinedData_uniform sql) as (m' & U' & _).
  split; [now apply (uniform_grid _ m)|now apply (uniform_grid _ m')].
Qed.

End MockDataMore.

Lemma generated_row_count_witness :
  MockData.oneOrMore (Num 2.5) = true
  /\ 2 <= MockData.outputLength
            (fst (MockData.generateDataFromSQL (fun k => N.of_nat k)
                    (str "SELECT carrier, SUM(cost) FROM freight_data GROUP BY carrier")
                    {| MockData.includeHeaders := true; MockData.formatForExcel := true;
                       MockData.maxRows := Some (Num 2.5) |} 0)) <= 11.
Proof.
  split; [reflexivity|].
  apply (generated_row_count (fun k => N.of_nat k)
           (str "SELECT carrier, SUM(cost) FROM freight_data GROUP BY carrier")
           {| MockData.includeHeaders := true; MockData.formatForExcel := true;
              MockData.maxRows := Some (Num 2.5) |} 0).
  reflexivity.
Defined.

Lemma generateDataFromSQL_ignores_case_witness :
  plainText (str "select Carrier from freight_data") = true
  /\ MockData.generateDataFromSQL (fun k => N.of_nat k)
       (toUpperCase (str "select Carrier from freight_data"))
     = MockData.generateDataFromSQL (fun k => N.of_nat k)
         (str "select Carrier from freight_data").
Proof.
  split; [reflexivity|].
  apply (generateDataFromSQL_ignores_case (fun k => N.of_nat k)
           (str "select Carrier from freight_data")).
  reflexivity.
Defined.
(** ** The query history, further *)

Section QueryHistoryMore.

Import QueryHistory.

Lemma setFavorite_twice (item : QueryHistoryItem) :
  setFavorite (negb (isFavorite (setFavorite (negb (isFavorite item)) item)))
              (setFavorite (negb (isFavorite item)) item) = item.
Proof. destruct item as [? ? ? ? []]; reflexivity. Qed.

Lemma toggleFavorite_refused (id' message : jsstring) (st : store) :
  toggleFavorite id' (Refused message) st = st.
Proof. unfold toggleFavorite. now destruct (updateFirst _ _ _). Qed.

Lemma toggleFavorite_accepted_twice (id' : jsstring) (st : store) :
  getHistory (toggleFavorite id' Accepted (toggleFavorite id' Accepted st))
  = getHistory st.
Proof.
  unfold toggleFavorite at 2.
  destruct (updateFirst _ _ (getHistory st)) as [l1|] eqn:E.
  - destruct (updateFirst_twice (fun h => eqs (id h) id')
                (fun item => setFavorite (negb (isFavorite item)) item)
                _ _ (fun x => eq_refl) E) as (l2 & E2 & Hl2).
    unfold toggleFavorite. cbn [saveHistory guardedWrite getHistory]. rewrite E2.
    cbn [saveHistory guardedWrite getHistory]. apply Hl2. exact setFavorite_twice.
  - unfold toggleFavorite. now rewrite E.
Qed.

(** X8. [toggleFavorite] undoes itself when its writes are accepted:
    called twice with the same id it leaves the history as it was,
    whatever the store held.  When one of the two writes is refused
    the flag is flipped once, and when both are the history is as it
    was.  So a second [addToFavorites] of a query takes it out of the
    favourites again. *)
Theorem toggleFavorite_twice (id' : jsstring) (w w' : writing) (st : store) :
  getHistory (toggleFavorite id' w' (toggleFavorite id' w st))
  = match w, w' with
    | Accepted, Accepted | Refused _, Refused _ => getHistory st
    | Accepted, Refused _ | Refused _, Accepted =>
        getHistory (toggleFavorite id' Accepted st)
    end
  /\ getFavorites (addToFavorites id' Accepted (addToFavorites id' Accepted st))
     = getFavorites st.
Proof.
  split.
  - destruct w as [|m], w' as [|m']; rewrite ?toggleFavorite_refused;
      try reflexivity. apply toggleFavorite_accepted_twice.
  - unfold getFavorites, addToFavorites. now rewrite toggleFavorite_accepted_twice.
Qed.

(** X9. For a query in the history, [addToFavorites] and
    [removeFromFavorites] both flip the flag of the first item with
    that id when the write is accepted: a favourite stops being one
    under [addToFavorites], and [removeFromFavorites] makes a favourite
    of a query that was not.  A refused write leaves the item as it
    was.  The history keeps its length. *)
Theorem favorites_flip (id' : jsstring) (w : writing) (st : store)
    (item : QueryHistoryItem) :
  find (fun h => eqs (id h) id') (getHistory st) = Some item ->
  find (fun h => eqs (id h) id') (getHistory (addToFavorites id' w st))
    = Some (match w with
            | Accepted => setFavorite (negb (isFavorite item)) item
            | Refused _ => item
            end)
  /\ find (fun h => eqs (id h) id') (getHistory (removeFromFavorites id' w st))
     = Some (match w with
             | Accepted => setFavorite (negb (isFavorite item)) item
             | Refused _ => item
             end)
  /\ length (getHistory (removeFromFavorites id' w st)) = length (getHistory st).
Proof.
  intros Hfind. unfold addToFavorites, removeFromFavorites.
  destruct w as [|message]; [|now rewrite toggleFavorite_refused].
  unfold toggleFavorite.
  pose proof (updateFirst_find (fun h => eqs (id h) id')
                (fun item => setFavorite (negb (isFavorite item)) item)
                (getHistory st) (fun x => eq_refl)) as H.
  rewrite Hfind in H. destruct H as (l1 & -> & Hf & Hl).
  cbn [saveHistory guardedWrite getHistory]. now rewrite Hf, Hl.
Qed.

Lemma filter_fresh (freshId : jsstring) (history : list QueryHistoryItem) :
  Forall (fun item => id item <> freshId) history ->
  filter (fun item => negb (eqs (id item) freshId)) history = history.
Proof.
  intros Hfresh. apply filter_all.
  eapply Forall_impl; [|exact Hfresh]. intros item Hne. cbn beta.
  destruct (eqs (id item) freshId) eqn:E; [|reflexivity].
  apply eqs_true in E. contradiction.
Qed.

(** X10. Deleting the query that [addQuery] has just stored, under an
    id that no stored item has, gives back the history as it was, up
    to the hundredth item: the first ninety-nine items stored before,
    when both writes are accepted.  When the write of [deleteQuery] is
    refused the new query stays, and when that of [addQuery] was
    refused the history is as it was. *)
Theorem addQuery_then_deleteQuery (freshId : jsstring) (now : Z)
    (question' sql' : jsstring) (success' : bool)
    (executionTime' : option Z) (errorMessage' : option jsstring)
    (w w' : writing) (st : store) :
  Forall (fun item => id item <> freshId) (getHistory st) ->
  getHistory (deleteQuery freshId w'
                (fst (addQuery freshId now question' sql' success'
                               executionTime' errorMessage' w st)))
  = match w, w' with
    | Accepted, Accepted => firstn 99 (getHistory st)
    | Accepted, Refused _ =>
        getHistory (fst (addQuery freshId now question' sql' success'
                                  executionTime' errorMessage' Accepted st))
    | Refused _, _ => getHistory st
    end.
Proof.
  intros Hfresh. destruct w as [|m].
  - destruct w' as [|m']; [|reflexivity].
    unfold deleteQuery. cbn [saveHistory guardedWrite getHistory].
    destruct (addQuery_history freshId now question' sql' success'
                executionTime' errorMessage' st) as (newItem & -> & Hid & _).
    cbn [filter]. rewrite Hid, (proj2 (eqs_true freshId freshId) eq_refl). cbn [negb].
    apply filter_fresh. now apply Forall_prefix.
  - rewrite addQuery_refused. cbn [fst]. unfold deleteQuery.
    destruct w' as [|m']; cbn [saveHistory guardedWrite getHistory]; [|reflexivity].
    now apply filter_fresh.
Qed.

(** X11. [searchHistory] with the empty text returns the whole
    history, and for a search text of ASCII characters the letter case
    of the text makes no difference. *)
Theorem searchHistory_query (query : jsstring) (st : store) :
  searchHistory [] st = getHistory st
  /\ (plainText query = true ->
      searchHistory (toUpperCase query) st = searchHistory query st
      /\ searchHistory (toLowerCase query) st = searchHistory query st).
Proof.
  split; [|intros _; split].
  - unfold searchHistory. apply filter_all. apply Forall_forall. intros item _.
    cbn [toLowerCase map]. now rewrite includes_nil.
  - unfold searchHistory. now rewrite toLowerCase_toUpperCase.
  - unfold searchHistory. now rewrite toLowerCase_idem.
Qed.

Lemma addQuery_head (freshId : jsstring) (now : Z)
    (question' sql' : jsstring) (success' : bool)
    (executionTime' : option Z) (errorMessage' : option jsstring) (st : store) :
  exists rest,
    getHistory (fst (addQuery freshId now question' sql' success'
                              executionTime' errorMessage' Accepted st))
    = {| id := freshId; question := question'; sql := sql'; timestamp := now;
         isFavorite := false; category := None;
         tags := Some (extractTags question' sql');
         executionTime := executionTime'; success := success';
         errorMessage := errorMessage' |} :: rest.
Proof.
  unfold addQuery. cbn [fst saveHistory guardedWrite getHistory].
  destruct (100 <? _); [|eexists; reflexivity].
  unfold spliceFrom. change 100 with (S 99). rewrite firstn_cons. eexists; reflexivity.
Qed.

(** X12. After an [addQuery] whose write is accepted, the new query is
    the first item of the history and the first hit of a search for
    its question, for its SQL or for one of its tags. *)
Theorem addQuery_then_searchHistory (freshId : jsstring) (now : Z)
    (question' sql' : jsstring) (success' : bool)
    (executionTime' : option Z) (errorMessage' : option jsstring) (st : store)
    (query : jsstring) :
  query = question' \/ query = sql' \/ In query (extractTags question' sql') ->
  exists item,
    hd_error (searchHistory query
                (fst (addQuery freshId now question' sql' success'
                               executionTime' errorMessage' Accepted st))) = Some item
    /\ hd_error (getHistory
                   (fst (addQuery freshId now question' sql' success'
                                  executionTime' errorMessage' Accepted st))) = Some item
    /\ id item = freshId /\ question item = question' /\ sql item = sql'.
Proof.
  intros Hq.
  destruct (addQuery_head freshId now question' sql' success'
              executionTime' errorMessage' st) as (rest & E).
  unfold searchHistory. rewrite E. eexists. cbn [filter hd_error].
  cbn [question sql tags id].
  assert (Hhit :
    includes (toLowerCase question') (toLowerCase query)
    || includes (toLowerCase sql') (toLowerCase query)
    || existsb (fun tag => includes (toLowerCase tag) (toLowerCase query))
               (extractTags question' sql') = true).
  { destruct Hq as [->|[->|Hin]].
    - now rewrite includes_refl.
    - rewrite includes_refl. now rewrite orb_true_r.
    - apply orb_true_iff. right. apply existsb_exists.
      exists query. split; [exact Hin|apply includes_refl]. }
  rewrite Hhit. cbn [hd_error]. now repeat split.
Qed.

Lemma hasCategory_setCategory_None (c : jsstring) (item : QueryHistoryItem) :
  hasCategory c (setCategory None item) = false.
Proof. reflexivity. Qed.

Lemma deleteCategory_history (categoryId other : jsstring) (wc : writing)
    (cs : categoryStore) (st : store) :
  getHistoryByCategory other (snd (deleteCategory categoryId wc Accepted cs st))
  = if eqs other categoryId then [] else getHistoryByCategory other st.
Proof.
  unfold deleteCategory. cbn [snd].
  unfold getHistoryByCategory, saveHistory. cbn [guardedWrite getHistory].
  generalize (getHistory st). intros history.
  induction history as [|item history IH]; cbn [map filter].
  - now destruct (eqs other categoryId).
  - rewrite IH. clear IH.
    destruct (hasCategory categoryId item) eqn:Hc.
    + rewrite hasCategory_setCategory_None.
      destruct (eqs other categoryId) eqn:E; [reflexivity|].
      unfold hasCategory in *. destruct (category item) as [c|]; [|reflexivity].
      apply eqs_true in Hc. subst c.
      destruct (eqs categoryId other) eqn:E'; [|reflexivity].
      apply eqs_true in E'. subst other.
      now rewrite (proj2 (eqs_true categoryId categoryId) eq_refl) in E.
    + destruct (eqs other categoryId) eqn:E; [|reflexivity].
      apply eqs_true in E. subst other. now rewrite Hc.
Qed.

(** X13. [deleteCategory] makes two writes.  When the write of the
    categories is accepted, no listed category has the id any more;
    when the write of the history is accepted, no query of the history
    is filed under it and the queries filed under any other category
    are the same as before.  A refused write leaves its item as it
    was.  The history keeps its length. *)
Theorem deleteCategory_everywhere (categoryId : jsstring) (wc wh : writing)
    (cs : categoryStore) (st : store) :
  match wc with
  | Accepted =>
      Forall (fun c => cid c <> categoryId)
             (getCategories (fst (deleteCategory categoryId wc wh cs st)))
  | Refused _ => fst (deleteCategory categoryId wc wh cs st) = cs
  end
  /\ match wh with
     | Accepted =>
         forall other,
           getHistoryByCategory other (snd (deleteCategory categoryId wc wh cs st))
           = if eqs other categoryId then []
             else getHistoryByCategory other st
     | Refused _ => snd (deleteCategory categoryId wc wh cs st) = st
     end
  /\ length (getHistory (snd (deleteCategory categoryId wc wh cs st)))
     = length (getHistory st).
Proof.
  split; [|split].
  - destruct wc as [|m]; [|reflexivity].
    unfold deleteCategory. cbn [fst saveCategories guardedWrite getCategories].
    apply Forall_forall. intros c Hc. apply filter_In in Hc. destruct Hc as [_ Hc].
    apply negb_true_iff, eqs_false in Hc. exact Hc.
  - destruct wh as [|m]; [|reflexivity].
    intros other. apply deleteCategory_history.
  - unfold deleteCategory. destruct wh as [|m];
      cbn [snd saveHistory guardedWrite getHistory]; [apply length_map|reflexivity].
Qed.

(** X14. A query filed under a category by an [updateQueryCategory]
    whose write is accepted is listed by [getHistoryByCategory] for
    that category, and no longer once a [deleteCategory] of the
    category has written the history.  An [updateQueryCategory] whose
    write is refused leaves the store as it was. *)
Theorem updateQueryCategory_then_list (queryId categoryId : jsstring) (wc : writing)
    (cs : categoryStore) (st : store) (item : QueryHistoryItem) :
  find (fun h => eqs (id h) queryId) (getHistory st) = Some item ->
  In (setCategory (Some categoryId) item)
     (getHistoryByCategory categoryId
        (updateQueryCategory queryId categoryId Accepted st))
  /\ getHistoryByCategory categoryId
       (snd (deleteCategory categoryId wc Accepted cs
               (updateQueryCategory queryId categoryId Accepted st)))
     = []
  /\ (forall message,
        updateQueryCategory queryId categoryId (Refused message) st = st).
Proof.
  intros Hfind. split; [|split].
  - unfold updateQueryCategory.
    pose proof (updateFirst_find (fun h => eqs (id h) queryId)
                  (setCategory (Some categoryId)) (getHistory st)
                  (fun x => eq_refl)) as H.
    rewrite Hfind in H. destruct H as (l1 & -> & Hf & _).
    cbn [saveHistory guardedWrite]. unfold getHistoryByCategory. cbn [getHistory].
    apply filter_In. split.
    + apply find_some in Hf. tauto.
    + unfold hasCategory. cbn [category setCategory]. now apply eqs_true.
  - rewrite deleteCategory_history.
    now rewrite (proj2 (eqs_true categoryId categoryId) eq_refl).
  - intros message. unfold updateQueryCategory. now destruct (updateFirst _ _ _).
Qed.

Lemma NoDup_filter_app {A} (f : A -> bool) (a b : list A) :
  NoDup (a ++ b) -> NoDup (filter f a ++ filter f b).
Proof. intros H. rewrite <- filter_app. now apply NoDup_filter. Qed.

(** X15. The tags of a query are distinct and each one is a listed
    word that occurs in the question and the SQL put together in small
    letters; for a question and an SQL of ASCII text their letter case
    makes no difference to the tags. *)
Theorem extractTags_tags (question' sql' : jsstring) :
  NoDup (extractTags question' sql')
  /\ Forall (fun tag => includes (toLowerCase (question' ++ str " " ++ sql')) tag = true
                        /\ In tag (sqlKeywords ++ domainTerms))
            (extractTags question' sql')
  /\ (plainText question' = true -> plainText sql' = true ->
      extractTags (toUpperCase question') (toUpperCase sql')
      = extractTags question' sql').
Proof.
  split; [|split].
  - unfold extractTags. apply NoDup_filter_app. distinct_keys.
  - unfold extractTags. apply Forall_forall. intros tag Hin.
    rewrite <- filter_app in Hin. apply filter_In in Hin. tauto.
  - intros _ _. unfold extractTags.
    replace (toLowerCase (toUpperCase question' ++ str " " ++ toUpperCase sql'))
      with (toLowerCase (question' ++ str " " ++ sql')); [reflexivity|].
    unfold toLowerCase, toUpperCase. rewrite !map_app, !map_map.
    f_equal; [|f_equal]; apply map_ext; intros c; now rewrite lower_upper_char.
Qed.

End QueryHistoryMore.

Lemma favorites_flip_witness :
  exists item,
    find (fun h => eqs (QueryHistory.id h) (str "q1"))
         (QueryHistory.getHistory
            (QueryHistory.removeFromFavorites (str "q1") Accepted
               (fst (QueryHistory.addQuery (str "q1") 7 (str "total cost")
                       (str "SELECT 1") true None None Accepted Missing))))
    = Some item /\ QueryHistory.isFavorite item = true.
Proof.
  eexists. split.
  - apply (favorites_flip (str "q1") Accepted
             (fst (QueryHistory.addQuery (str "q1") 7 (str "total cost")
                     (str "SELECT 1") true None None Accepted Missing))).
    vm_compute. reflexivity.
  - reflexivity.
Defined.

Lemma addQuery_then_deleteQuery_witness :
  QueryHistory.getHistory
    (QueryHistory.deleteQuery (str "q2") Accepted
       (fst (QueryHistory.addQuery (str "q2") 9 (str "cost by carrier")
               (str "SELECT carrier FROM freight_data") true None None Accepted
               (fst (QueryHistory.addQuery (str "q1") 7 (str "total cost")
                       (str "SELECT 1") true None None Accepted Missing)))))
  = firstn 99
      (QueryHistory.getHistory
         (fst (QueryHistory.addQuery (str "q1") 7 (str "total cost")
                 (str "SELECT 1") true None None Accepted Missing))).
Proof.
  apply (addQuery_then_deleteQuery (str "q2") 9 (str "cost by carrier")
           (str "SELECT carrier FROM freight_data") true None None Accepted Accepted
           (fst (QueryHistory.addQuery (str "q1") 7 (str "total cost")
                   (str "SELECT 1") true None None Accepted Missing))).
  vm_compute. constructor; [discriminate|constructor].
Defined.

Lemma searchHistory_query_witness :
  plainText (str "Cost") = true
  /\ QueryHistory.searchHistory (toUpperCase (str "Cost"))
       (fst (QueryHistory.addQuery (str "q1") 7 (str "total cost")
               (str "SELECT 1") true None None Accepted Missing))
     = QueryHistory.searchHistory (str "Cost")
         (fst (QueryHistory.addQuery (str "q1") 7 (str "total cost")
                 (str "SELECT 1") true None None Accepted Missing)).
Proof.
  split; [reflexivity|].
  apply (searchHistory_query (str "Cost")
           (fst (QueryHistory.addQuery (str "q1") 7 (str "total cost")
                   (str "SELECT 1") true None None Accepted Missing))).
  reflexivity.
Defined.

Lemma addQuery_then_searchHistory_witness :
  exists item,
    hd_error (QueryHistory.searchHistory (str "carrier")
                (fst (QueryHistory.addQuery (str "q2") 9 (str "cost by carrier")
                        (str "SELECT carrier FROM freight_data") true None None
                        Accepted Missing)))
    = Some item /\ QueryHistory.id item = str "q2".
Proof.
  destruct (addQuery_then_searchHistory (str "q2") 9 (str "cost by carrier")
              (str "SELECT carrier FROM freight_data") true None None Missing
              (str "carrier")) as (item & H1 & _ & H2 & _).
  - right. right. vm_compute. tauto.
  - exists item. split; assumption.
Defined.

Lemma updateQueryCategory_then_list_witness :
  QueryHistory.getHistoryByCategory (str "general")
    (snd (QueryHistory.deleteCategory (str "general") Accepted Accepted Missing
            (QueryHistory.updateQueryCategory (str "q1") (str "general") Accepted
               (fst (QueryHistory.addQuery (str "q1") 7 (str "total cost")
                       (str "SELECT 1") true None None Accepted Missing)))))
  = [].
Proof.
  eapply (updateQueryCategory_then_list (str "q1") (str "general") Accepted Missing
            (fst (QueryHistory.addQuery (str "q1") 7 (str "total cost")
                    (str "SELECT 1") true None None Accepted Missing))).
  vm_compute. reflexivity.
Defined.

Lemma extractTags_tags_witness :
  plainText (str "Cost by Carrier") = true /\ plainText (str "select 1") = true
  /\ QueryHistory.extractTags (toUpperCase (str "Cost by Carrier"))
                              (toUpperCase (str "select 1"))
     = QueryHistory.extractTags (str "Cost by Carrier") (str "select 1").
Proof.
  split; [reflexivity|]. split; [reflexivity|].
  apply (extractTags_tags (str "Cost by Carrier") (str "select 1")); reflexivity.
Defined.

(** ** The schema store, further *)

Section SchemaMore.

Import Schema.

Lemma saveSchemas_refused (schemas : list DatabaseSchema) (message : jsstring)
    (st : store) :
  saveSchemas schemas (Refused message) st = st.
Proof. now destruct st. Qed.

Lemma getSchemas_stored (e : access) (st : store) (schemas : list DatabaseSchema) :
  schemasItem st = Json schemas -> schemas <> [] ->
  getSchemas e st = (st, schemas).
Proof.
  intros H Hne. destruct schemas as [|s l]; [now elim Hne|].
  now apply getSchemas_populated.
Qed.

Lemma getSchemas_after (e : access) (st : store) :
  snd (getSchemas e st) <> []
  /\ defaultSchemaItem (fst (getSchemas e st)) = defaultSchemaItem st
  /\ (persisted e st = true ->
      schemasItem (fst (getSchemas e st)) = Json (snd (getSchemas e st)))
  /\ (persisted e st = false ->
      fst (getSchemas e st) = st
      /\ forall e', snd (getSchemas e' st)
                    = [createDefaultSchema (createdNow e') (updatedNow e')]).
Proof.
  destruct st as [item d]. unfold getSchemas, persisted, saveSchemas.
  cbn [schemasItem defaultSchemaItem].
  destruct item as [| |[|s l]]; destruct (saving e);
    cbn [fst snd schemasItem defaultSchemaItem guardedWrite];
    repeat split; try discriminate; try reflexivity.
Qed.

Lemma getSchemas_again (e e' : access) (st : store) :
  persisted e st = true ->
  getSchemas e' (fst (getSchemas e st)) = getSchemas e st.
Proof.
  intros Hst. destruct (getSchemas_after e st) as (Hne & _ & Hjson & _).
  specialize (Hjson Hst).
  rewrite (getSchemas_stored e' _ _ Hjson Hne).
  now destruct (getSchemas e st).
Qed.

Lemma getSchemas_item (e : access) (st st' : store) :
  schemasItem st = schemasItem st' ->
  snd (getSchemas e st) = snd (getSchemas e st').
Proof.
  unfold getSchemas. intros <-. now destruct (schemasItem st) as [| |[|s l]].
Qed.

(** X16. When the store holds schemas, or holds none and the write of
    the built-in schema is accepted, a second [getSchemas] returns what
    the first one returned and writes nothing, also at a later time:
    the built-in schema that the first call stores keeps its
    timestamps.  Otherwise, when the stored text does not parse or the
    write is refused, the first call leaves the store as it was and
    each call returns the built-in schema with the timestamps of its
    own clock readings. *)
Theorem getSchemas_twice (e e' : access) (st : store) :
  if persisted e st
  then getSchemas e' (fst (getSchemas e st)) = getSchemas e st
       /\ fst (getSchemas e' (fst (getSchemas e st))) = fst (getSchemas e st)
  else fst (getSchemas e st) = st
       /\ snd (getSchemas e st)
          = [createDefaultSchema (createdNow e) (updatedNow e)]
       /\ snd (getSchemas e' (fst (getSchemas e st)))
          = [createDefaultSchema (createdNow e') (updatedNow e')].
Proof.
  destruct (persisted e st) eqn:Hst.
  - rewrite (getSchemas_again e e' st Hst). now split.
  - destruct (getSchemas_after e st) as (_ & _ & _ & Hno).
    destruct (Hno Hst) as [Hfst Hsnd]. rewrite Hfst. repeat split; apply Hsnd.
Qed.

Lemma find_app_fresh {A} (f : A -> bool) (l : list A) (x : A) :
  Forall (fun y => f y = false) l -> f x = true -> find f (l ++ [x]) = Some x.
Proof.
  induction 1 as [|y l Hy _ IH]; intros Hx; cbn [app find].
  - now rewrite Hx.
  - rewrite Hy. now apply IH.
Qed.

Lemma app_not_nil {A} (l : list A) (x : A) : l ++ [x] <> [].
Proof. now destruct l. Qed.

Lemma createSchema_store (freshId : jsstring) (e : access) (created updated : Z)
    (w : writing) (schema : SchemaDraft) (st : store) :
  fst (createSchema freshId e created updated w schema st)
  = saveSchemas
      (snd (getSchemas e st) ++
       [{| id := freshId; name := draftName schema;
           description := draftDescription schema; tables := draftTables schema;
           createdAt := created; updatedAt := updated;
           isDefault := draftIsDefault schema; version := str "1.0" |}])
      w (fst (getSchemas e st))
  /\ snd (createSchema freshId e created updated w schema st) = freshId.
Proof.
  unfold createSchema. now destruct (getSchemas e st) as [st1 schemas].
Qed.

(** X17. [createSchema] returns the fresh id.  When its write is
    accepted it appends the new schema to the list that [getSchemas]
    returns, whatever the store held, and when no listed schema has
    that id already, [getSchema] finds the new schema under it, with
    the draft's fields, the two timestamps and version 1.0.  When the
    write is refused the store is as [getSchemas] left it. *)
Theorem createSchema_then_getSchema (freshId : jsstring) (e : access)
    (created updated : Z) (w : writing) (later : access)
    (schema : SchemaDraft) (st : store) :
  ~ In freshId (map id (snd (getSchemas e st))) ->
  let newSchema :=
    {| id := freshId; name := draftName schema;
       description := draftDescription schema; tables := draftTables schema;
       createdAt := created; updatedAt := updated;
       isDefault := draftIsDefault schema; version := str "1.0" |} in
  let st' := fst (createSchema freshId e created updated w schema st) in
  snd (createSchema freshId e created updated w schema st) = freshId
  /\ match w with
     | Accepted =>
         getSchemas later st' = (st', snd (getSchemas e st) ++ [newSchema])
         /\ getSchema later freshId st' = (st', Some newSchema)
     | Refused _ => st' = fst (getSchemas e st)
     end.
Proof.
  intros Hfresh newSchema st'.
  destruct (createSchema_store freshId e created updated w schema st) as (Hs & Hid).
  fold newSchema in Hs. fold st' in Hs.
  split; [exact Hid|]. destruct w as [|message].
  - assert (G : getSchemas later st' = (st', snd (getSchemas e st) ++ [newSchema])).
    { apply getSchemas_stored; [now rewrite Hs|apply app_not_nil]. }
    split; [exact G|].
    unfold getSchema. rewrite G. f_equal. apply find_app_fresh.
    + apply Forall_forall. intros s Hin.
      destruct (eqs (id s) freshId) eqn:E; [|reflexivity].
      apply eqs_true in E. elim Hfresh. rewrite <- E. now apply in_map.
    + now apply eqs_true.
  - rewrite Hs. apply saveSchemas_refused.
Qed.

Lemma find_filter_none (id' : jsstring) (schemas : list DatabaseSchema) :
  find (fun s => eqs (id s) id') (filter (fun s => negb (eqs (id s) id')) schemas) = None.
Proof.
  induction schemas as [|s l IH]; [reflexivity|]. cbn [filter].
  destruct (eqs (id s) id') eqn:E; cbn [negb]; [exact IH|].
  cbn [find]. now rewrite E.
Qed.

Lemma getDefaultSchema_stored (e e' : access) (st : store)
    (schemas : list DatabaseSchema) :
  schemasItem st = Json schemas -> schemas <> [] ->
  In (snd (getDefaultSchema e e' st)) schemas.
Proof.
  intros Hs Hne. unfold getDefaultSchema, getSchema.
  rewrite (getSchemas_stored e st schemas Hs Hne).
  assert (Hhd : forall d, In (hd d schemas) schemas).
  { intros d. destruct schemas; [now elim Hne|now left]. }
  destruct (defaultSchemaItem st) as [[|c defaultId]|]; try apply Hhd.
  destruct (find _ schemas) as [schema|] eqn:F.
  - cbn [snd]. apply find_some in F. tauto.
  - rewrite (getSchemas_stored e' st schemas Hs Hne). apply Hhd.
Qed.

Lemma deleteSchema_item (e : access) (w wd : writing) (id' : jsstring) (st : store) :
  schemasItem (fst (deleteSchema e w wd id' st))
  = match filter (fun s => negb (eqs (id s) id')) (snd (getSchemas e st)) with
    | [] => schemasItem (fst (getSchemas e st))
    | filtered => guardedWrite w filtered (schemasItem (fst (getSchemas e st)))
    end.
Proof.
  unfold deleteSchema. destruct (getSchemas e st) as [st1 schemas]. cbn [fst snd].
  destruct (filter _ schemas) as [|first rest]; [reflexivity|].
  cbn [saveSchemas defaultSchemaItem].
  destruct (defaultSchemaItem st1) as [d|]; [destruct (eqs d id')|]; try reflexivity.
  now destruct wd.
Qed.

(** X18. After a [deleteSchema] that did not throw and whose write of
    the schemas was accepted, [getSchema] no longer finds a schema of
    that id, and the default schema is one with another id, also when
    the deleted one was the default.  When that write is refused,
    [getSchema] finds what it would have found without the deletion. *)
Theorem deleteSchema_then_getSchema (e later later' : access) (wd : writing)
    (id' : jsstring) (st : store) :
  snd (deleteSchema e Accepted wd id' st) = Ok tt ->
  snd (getSchema later id' (fst (deleteSchema e Accepted wd id' st))) = None
  /\ id (snd (getDefaultSchema later later' (fst (deleteSchema e Accepted wd id' st))))
     <> id'
  /\ (forall message,
        snd (getSchema later id' (fst (deleteSchema e (Refused message) wd id' st)))
        = snd (getSchema later id' (fst (getSchemas e st)))).
Proof.
  intros Hok.
  assert (Hs : exists filtered,
             filtered = filter (fun s => negb (eqs (id s) id')) (snd (getSchemas e st))
             /\ filtered <> []
             /\ schemasItem (fst (deleteSchema e Accepted wd id' st)) = Json filtered).
  { rewrite deleteSchema_item. revert Hok. unfold deleteSchema.
    destruct (getSchemas e st) as [st1 schemas]. cbn [fst snd].
    destruct (filter _ schemas) as [|first rest] eqn:F; [discriminate|].
    intros _. eexists. split; [reflexivity|]. split; [discriminate|reflexivity]. }
  destruct Hs as (filtered & Hf & Hne & Hs). split; [|split].
  - unfold getSchema. rewrite (getSchemas_stored later _ _ Hs Hne). cbn [snd].
    rewrite Hf. apply find_filter_none.
  - pose proof (getDefaultSchema_stored later later' _ _ Hs Hne) as Hin.
    rewrite Hf in Hin. apply filter_In in Hin. destruct Hin as [_ Hin].
    apply negb_true_iff, eqs_false in Hin. exact Hin.
  - intros message. unfold getSchema.
    assert (Hitem : schemasItem (fst (deleteSchema e (Refused message) wd id' st))
                    = schemasItem (fst (getSchemas e st))).
    { rewrite deleteSchema_item. now destruct (filter _ _). }
    pose proof (getSchemas_item later _ _ Hitem) as Hsame.
    destruct (getSchemas later (fst (deleteSchema _ _ _ _ _))) as [sa la].
    destruct (getSchemas later (fst (getSchemas e st))) as [sb lb].
    cbn [snd] in *. now rewrite Hsame.
Qed.

(** X19. The default schema is the first listed schema with the stored
    default id when there is one; else it is the first schema of the
    list, which [getSchemas] is then asked for again.  That second list
    is the first one when the store keeps it, and else the built-in
    schema with the timestamps of the second call.  So the default
    schema is always one of the listed schemas, or the built-in schema
    made by the second call when the store did not keep the list; with
    the same clock readings in both calls it is one of the listed
    schemas in every case. *)
Theorem getDefaultSchema_listed (e e' : access) (st : store) :
  let schemas := snd (getSchemas e st) in
  let again := snd (getSchemas e' (fst (getSchemas e st))) in
  let schema := snd (getDefaultSchema e e' st) in
  match defaultSchemaItem st with
  | Some (c :: defaultId) =>
      match find (fun s => eqs (id s) (c :: defaultId)) schemas with
      | Some found => schema = found
      | None => Some schema = hd_error again
      end
  | _ => Some schema = hd_error schemas
  end
  /\ again = (if persisted e st then schemas
              else [createDefaultSchema (createdNow e') (updatedNow e')])
  /\ (In schema schemas
      \/ persisted e st = false
         /\ schema = createDefaultSchema (createdNow e') (updatedNow e'))
  /\ (persisted e st = true
      \/ createdNow e' = createdNow e /\ updatedNow e' = updatedNow e ->
      In schema schemas).
Proof.
  intros schemas again schema.
  destruct (getSchemas_after e st) as (Hne & Hdef & Hjson & Hno).
  assert (Hagain : again = if persisted e st then schemas
                           else [createDefaultSchema (createdNow e') (updatedNow e')]).
  { subst again schemas. destruct (persisted e st) eqn:P.
    - now rewrite getSchemas_again.
    - destruct (Hno eq_refl) as [-> Hsnd]. apply Hsnd. }
  assert (Hfirst : schemas =
            (if persisted e st then schemas
             else [createDefaultSchema (createdNow e) (updatedNow e)])).
  { subst schemas. destruct (persisted e st) eqn:P; [reflexivity|].
    destruct (Hno eq_refl) as [_ Hsnd]. apply Hsnd. }
  assert (Hhd : forall (d : DatabaseSchema) l,
             l <> [] -> Some (hd d l) = hd_error l /\ In (hd d l) l).
  { intros d [|x l] H; [now elim H|]. split; [reflexivity|now left]. }
  assert (Hvalue :
    match defaultSchemaItem st with
    | Some (c :: defaultId) =>
        match find (fun s => eqs (id s) (c :: defaultId)) schemas with
        | Some found => schema = found /\ In schema schemas
        | None => Some schema = hd_error again /\ In schema again
        end
    | _ => Some schema = hd_error schemas /\ In schema schemas
    end).
  { assert (Hne' : again <> []).
    { rewrite Hagain. destruct (persisted e st); [exact Hne|discriminate]. }
    subst schema again schemas. unfold getDefaultSchema, getSchema.
    destruct (getSchemas e st) as [st1 l]. cbn [fst snd] in *.
    destruct (defaultSchemaItem st) as [[|c defaultId]|]; cbn [snd];
      try now apply Hhd.
    destruct (find _ l) as [found|] eqn:F; cbn [snd].
    - split; [reflexivity|]. apply find_some in F. tauto.
    - destruct (getSchemas e' st1) as [st2 l2]. cbn [snd] in *. now apply Hhd. }
  assert (Hin : In schema schemas
                \/ persisted e st = false
                   /\ schema = createDefaultSchema (createdNow e') (updatedNow e')).
  { destruct (defaultSchemaItem st) as [[|c defaultId]|]; try (left; tauto).
    destruct (find _ schemas) as [found|]; [left; tauto|].
    destruct Hvalue as [_ Hin]. rewrite Hagain in Hin.
    destruct (persisted e st); [now left|].
    right. split; [reflexivity|]. destruct Hin as [<-|[]]. reflexivity. }
  split; [|split; [exact Hagain|split; [exact Hin|]]].
  - destruct (defaultSchemaItem st) as [[|c defaultId]|]; try tauto.
    destruct (find _ schemas); tauto.
  - intros [P|[Hc Hu]]; destruct Hin as [Hin|[P' Hs]]; try assumption.
    + congruence.
    + rewrite Hfirst, P', Hs, Hc, Hu. now left.
Qed.

(** *** [validateSchema] *)

Lemma existsb_eqs_false (x : jsstring) (l : list jsstring) :
  existsb (eqs x) l = false <-> ~ In x l.
Proof.
  induction l as [|y l IH]; cbn [existsb In]; [tauto|].
  rewrite orb_false_iff, IH, eqs_false. intuition congruence.
Qed.

Lemma app_nil_iff {A} (a b : list A) : a ++ b = [] <-> a = [] /\ b = [].
Proof.
  split; [apply app_eq_nil|]. now intros [-> ->].
Qed.

Lemma columnErrors_none (tableName : jsstring) (cols : list DatabaseColumn) :
  forall columnNames,
    columnErrors tableName columnNames cols = [] <->
    Forall wellFormedColumn cols
    /\ NoDup (map cname cols)
    /\ (forall n, In n (map cname cols) -> ~ In n columnNames).
Proof.
  induction cols as [|c rest IH]; intros seen; cbn [columnErrors map].
  - split; [intros _|reflexivity]. repeat split; [constructor|constructor|intros n []].
  - rewrite !app_nil_iff.
    destruct (blank (cname c)) eqn:Bn.
    { split; [intros [H _]; discriminate|].
      intros (Hc & _). inversion Hc as [|? ? [Hb _] _]; subst. congruence. }
    destruct (existsb (eqs (cname c)) seen) eqn:Ex.
    { split; [intros [H _]; discriminate|].
      intros (_ & _ & Hseen). exfalso.
      assert (Hnot : ~ In (cname c) seen) by (apply Hseen; now left).
      apply existsb_eqs_false in Hnot. congruence. }
    cbn [orb]. apply existsb_eqs_false in Ex.
    destruct (blank (ctype c)) eqn:Bt.
    { split; [intros (_ & H & _); discriminate|].
      intros (Hc & _). inversion Hc as [|? ? [_ Hb] _]; subst. congruence. }
    rewrite IH. split.
    + intros (_ & _ & Hrest & Hnd & Hseen). split; [|split].
      * constructor; [now split|exact Hrest].
      * constructor; [|exact Hnd]. intros Hin. apply (Hseen _ Hin). now left.
      * intros n [<-|Hin]; [exact Ex|]. intros Hn. apply (Hseen _ Hin). now right.
    + intros (Hc & Hnd & Hseen). inversion Hc; subst. inversion Hnd; subst.
      repeat split; try assumption.
      intros n Hin [<-|Hn]; [contradiction|]. apply (Hseen n); [now right|exact Hn].
Qed.

Lemma tableErrors_none (ts : list DatabaseTable) :
  forall tableNames,
    tableErrors tableNames ts = [] <->
    Forall wellFormedTable ts
    /\ NoDup (map tname ts)
    /\ (forall n, In n (map tname ts) -> ~ In n tableNames).
Proof.
  induction ts as [|t rest IH]; intros seen; cbn [tableErrors map].
  - split; [intros _|reflexivity]. repeat split; [constructor|constructor|intros n []].
  - rewrite !app_nil_iff.
    destruct (blank (tname t)) eqn:Bn.
    { split; [intros [H _]; discriminate|].
      intros (Ht & _). inversion Ht as [|? ? [Hb _] _]; subst. congruence. }
    destruct (existsb (eqs (tname t)) seen) eqn:Ex.
    { split; [intros [H _]; discriminate|].
      intros (_ & _ & Hseen). exfalso.
      assert (Hnot : ~ In (tname t) seen) by (apply Hseen; now left).
      apply existsb_eqs_false in Hnot. congruence. }
    cbn [orb]. apply existsb_eqs_false in Ex.
    rewrite IH, columnErrors_none.
    destruct (columns t) as [|c cols] eqn:Hcols.
    { split; [intros (_ & H & _); discriminate|].
      intros (Ht & _). inversion Ht as [|? ? (_ & Hne & _) _]; subst. congruence. }
    split.
    + intros (_ & _ & (Hcs & Hcnd & _) & Hrest & Hnd & Hseen). split; [|split].
      * constructor; [|exact Hrest]. unfold wellFormedTable. rewrite Hcols.
        repeat split; try assumption. discriminate.
      * constructor; [|exact Hnd]. intros Hin. apply (Hseen _ Hin). now left.
      * intros n [<-|Hin]; [exact Ex|]. intros Hn. apply (Hseen _ Hin). now right.
    + intros (Ht & Hnd & Hseen). inversion Ht as [|? ? Hwf Hrest]; subst.
      inversion Hnd; subst. unfold wellFormedTable in Hwf. rewrite Hcols in Hwf.
      destruct Hwf as (_ & _ & Hcnd & Hcs).
      repeat split; try assumption.
      * intros n _ [].
      * intros n Hin [<-|Hn]; [contradiction|]. apply (Hseen n); [now right|exact Hn].
Qed.

(** X20. [validateSchema] accepts a schema exactly when its name is not
    blank, it has a table, the table names are not blank and distinct,
    and every table has a column, column names that are not blank and
    distinct within the table, and no blank column type. *)
Theorem validateSchema_valid_iff (schema : DatabaseSchema) :
  isValid (validateSchema schema) = true <-> wellFormed schema.
Proof.
  unfold validateSchema, wellFormed. cbn [isValid].
  rewrite Nat.eqb_eq, length_zero_iff_nil, !app_nil_iff, tableErrors_none.
  destruct (blank (name schema)); [split; [intros [H _]|intros [H _]]; discriminate|].
  destruct (tables schema) as [|t ts] eqn:Ht.
  - split; [intros (_ & H & _); discriminate|]. intros (_ & H & _). now elim H.
  - split.
    + intros (_ & _ & Hwf & Hnd & _). repeat split; try assumption. discriminate.
    + intros (_ & _ & Hnd & Hwf). repeat split; try assumption. intros n _ [].
Qed.

(** *** Copies *)

(** X21. [duplicateSchema] throws [Schema not found] exactly when
    [getSchema] does not find the id, and then stores no more than
    [getSchemas] does.  Otherwise it returns the fresh id, and when its
    write is accepted it appends one schema to the listed ones: a
    schema with that id, the new name and the tables of the original,
    which is not marked as default.  When the write is refused the
    store is as the two calls of [getSchemas] left it. *)
Theorem duplicateSchema_copies (freshId : jsstring) (e e' : access)
    (created updated : Z) (w : writing) (later : access)
    (id' newName : jsstring) (st : store) :
  match snd (getSchema e id' st) with
  | None =>
      duplicateSchema freshId e e' created updated w id' newName st
      = (fst (getSchemas e st), Throw notFoundMessage)
  | Some original =>
      snd (duplicateSchema freshId e e' created updated w id' newName st) = Ok freshId
      /\ match w with
         | Accepted =>
             exists copy,
               snd (getSchemas later
                      (fst (duplicateSchema freshId e e' created updated w
                              id' newName st)))
               = snd (getSchemas e' (fst (getSchemas e st))) ++ [copy]
               /\ id copy = freshId /\ name copy = newName
               /\ tables copy = tables original /\ isDefault copy = None
               /\ description copy
                  = Some (descriptionText (description original) ++ str " (Copy)")
         | Refused _ =>
             fst (duplicateSchema freshId e e' created updated w id' newName st)
             = fst (getSchemas e' (fst (getSchemas e st)))
         end
  end.
Proof.
  unfold duplicateSchema, getSchema.
  destruct (getSchemas e st) as [st1 schemas]. cbn [fst snd].
  destruct (find _ schemas) as [original|]; [|reflexivity].
  match goal with
  | |- context [createSchema freshId e' created updated w ?d st1] =>
      pose proof (createSchema_store freshId e' created updated w d st1) as (Hs & Hid);
      destruct (createSchema freshId e' created updated w d st1) as [st2 newId]
  end.
  cbn [fst snd] in *. split; [now rewrite Hid|]. destruct w as [|message].
  - eexists. split.
    + rewrite (getSchemas_stored later st2 _ (f_equal schemasItem Hs) (app_not_nil _ _)).
      reflexivity.
    + now repeat split.
  - rewrite Hs. apply saveSchemas_refused.
Qed.

(** *** Tables *)

Lemma find_some_not_nil {A} (f : A -> bool) (l : list A) (x : A) :
  find f l = Some x -> l <> [].
Proof. destruct l; [discriminate|discriminate]. Qed.

Lemma filter_app_fresh (tableName : jsstring) (ts : list DatabaseTable) (table : DatabaseTable) :
  tname table = tableName ->
  Forall (fun t => tname t <> tableName) ts ->
  filter (fun t => negb (eqs (tname t) tableName)) (ts ++ [table]) = ts.
Proof.
  intros Hn Hts. rewrite filter_app. cbn [filter].
  rewrite (proj2 (eqs_true _ _) Hn). cbn [negb]. rewrite app_nil_r.
  apply filter_all. eapply Forall_impl; [|exact Hts]. intros t Ht. cbn beta.
  apply negb_true_iff. now apply eqs_false.
Qed.

(** X22. For a listed schema that has no table of that name, [addTable]
    followed by [deleteTable] of the table's name, both with their
    writes accepted, gives the schema its tables back; [getSchema]
    shows the table at the end of the tables in between, and
    [updatedAt] follows the clock of each call.  An [addTable] whose
    write is refused returns as well and leaves the store as
    [getSchemas] left it. *)
Theorem addTable_then_deleteTable (e : access) (updated : Z) (e' : access)
    (updated' : Z) (later : access)
    (schemaId : jsstring) (table : DatabaseTable) (st : store) (s : DatabaseSchema) :
  snd (getSchema e schemaId st) = Some s ->
  Forall (fun t => tname t <> tname table) (tables s) ->
  snd (addTable e updated Accepted schemaId table st) = Ok tt
  /\ snd (getSchema later schemaId (fst (addTable e updated Accepted schemaId table st)))
     = Some (setTables (tables s ++ [table]) updated s)
  /\ snd (deleteTable e' updated' Accepted schemaId (tname table)
            (fst (addTable e updated Accepted schemaId table st))) = Ok tt
  /\ snd (getSchema later schemaId
            (fst (deleteTable e' updated' Accepted schemaId (tname table)
                    (fst (addTable e updated Accepted schemaId table st)))))
     = Some (setTables (tables s) updated' s)
  /\ (forall message,
        addTable e updated (Refused message) schemaId table st
        = (fst (getSchemas e st), Ok tt)).
Proof.
  intros Hfind Hfresh. unfold getSchema in Hfind.
  unfold addTable. destruct (getSchemas e st) as [st0 schemas]. cbn [snd] in Hfind.
  pose proof (updateFirst_find (fun x => eqs (id x) schemaId)
                (fun x => setTables (tables x ++ [table]) updated x)
                schemas (fun x => eq_refl)) as H1.
  rewrite Hfind in H1. destruct H1 as (l1 & -> & Hf1 & _).
  cbn [fst snd]. split; [reflexivity|].
  assert (G1 : forall t, getSchemas t (saveSchemas l1 Accepted st0)
                         = (saveSchemas l1 Accepted st0, l1)).
  { intros t. apply getSchemas_stored; [reflexivity|].
    exact (find_some_not_nil _ _ _ Hf1). }
  split; [unfold getSchema; now rewrite G1|].
  unfold deleteTable. rewrite G1.
  pose proof (updateFirst_find (fun x => eqs (id x) schemaId)
                (fun x => setTables
                            (filter (fun t => negb (eqs (tname t) (tname table))) (tables x))
                            updated' x)
                l1 (fun x => eq_refl)) as H2.
  rewrite Hf1 in H2. destruct H2 as (l2 & -> & Hf2 & _).
  cbn [fst snd]. split; [reflexivity|]. split.
  - unfold getSchema.
    rewrite (getSchemas_stored later
               (saveSchemas l2 Accepted (saveSchemas l1 Accepted st0)) l2 eq_refl
               (find_some_not_nil _ _ _ Hf2)).
    cbn [snd]. rewrite Hf2.
    cbn [setTables tables id name description createdAt isDefault version].
    now rewrite (filter_app_fresh (tname table) (tables s) table eq_refl Hfresh).
  - intros message. now rewrite saveSchemas_refused.
Qed.

End SchemaMore.

Lemma createSchema_then_getSchema_witness :
  let st := {| Schema.schemasItem := Missing; Schema.defaultSchemaItem := None |} in
  let e := {| Schema.createdNow := 5; Schema.updatedNow := 5;
              Schema.saving := Accepted |} in
  let draft := {| Schema.draftName := str "Mine"; Schema.draftDescription := None;
                  Schema.draftTables := []; Schema.draftIsDefault := None |} in
  snd (Schema.createSchema (str "s1") e 6 7 Accepted draft st) = str "s1".
Proof.
  intros st e draft.
  apply (createSchema_then_getSchema (str "s1") e 6 7 Accepted e draft st).
  vm_compute. intros [H|[]]. discriminate H.
Defined.

Lemma deleteSchema_then_getSchema_witness :
  let st := {| Schema.schemasItem := Missing; Schema.defaultSchemaItem := None |} in
  let e := {| Schema.createdNow := 5; Schema.updatedNow := 5;
              Schema.saving := Accepted |} in
  let draft := {| Schema.draftName := str "Mine"; Schema.draftDescription := None;
                  Schema.draftTables := []; Schema.draftIsDefault := None |} in
  snd (Schema.getSchema e (str "default-freight-schema")
         (fst (Schema.deleteSchema e Accepted Accepted (str "default-freight-schema")
                 (fst (Schema.createSchema (str "s1") e 6 7 Accepted draft st)))))
  = None.
Proof.
  intros st e draft.
  apply (deleteSchema_then_getSchema e e e Accepted (str "default-freight-schema")
           (fst (Schema.createSchema (str "s1") e 6 7 Accepted draft st))).
  vm_compute. reflexivity.
Defined.

Lemma getDefaultSchema_listed_witness :
  let st := {| Schema.schemasItem := Corrupt;
               Schema.defaultSchemaItem := Some (str "s1") |} in
  let e := {| Schema.createdNow := 5; Schema.updatedNow := 6;
              Schema.saving := Accepted |} in
  In (snd (Schema.getDefaultSchema e e st)) (snd (Schema.getSchemas e st)).
Proof.
  intros st e.
  apply (getDefaultSchema_listed e e st).
  right. split; reflexivity.
Defined.

Lemma addTable_then_deleteTable_witness :
  let st := {| Schema.schemasItem := Missing; Schema.defaultSchemaItem := None |} in
  let e := {| Schema.createdNow := 5; Schema.updatedNow := 5;
              Schema.saving := Accepted |} in
  let ports := Schema.table "ports" "Ports" [Schema.col "id" "INT" false "Primary key"] in
  snd (Schema.getSchema e (str "default-freight-schema")
         (fst (Schema.deleteTable e 8 Accepted (str "default-freight-schema") (str "ports")
                 (fst (Schema.addTable e 6 Accepted (str "default-freight-schema")
                         ports st)))))
  = Some (Schema.setTables (Schema.tables (Schema.createDefaultSchema 5 5)) 8
            (Schema.createDefaultSchema 5 5)).
Proof.
  intros st e ports.
  apply (addTable_then_deleteTable e 6 e 8 e (str "default-freight-schema") ports st
           (Schema.createDefaultSchema 5 5)).
  - vm_compute. reflexivity.
  - vm_compute. repeat constructor; discriminate.
Defined.

Lemma validateSchema_valid_iff_witness :
  Schema.wellFormed (Schema.createDefaultSchema 5 5).
Proof.
  apply (proj1 (validateSchema_valid_iff (Schema.createDefaultSchema 5 5))).
  vm_compute. reflexivity.
Defined.
(** ** The validator, further *)

Section ValidatorMore.

Import SQLValidator.

(** *** Text without whitespace *)

Lemma solid_app (a b : jsstring) : solid (a ++ b) = solid a ++ solid b.
Proof. apply filter_app. Qed.

Lemma solid_dropWhile (s : jsstring) : solid (dropWhile isSpace s) = solid s.
Proof.
  induction s as [|c s IH]; [reflexivity|]. cbn [dropWhile].
  destruct (isSpace c) eqn:E; [|reflexivity].
  rewrite IH. unfold solid. cbn [filter]. now rewrite E.
Qed.

Lemma solid_rev (s : jsstring) : solid (rev s) = rev (solid s).
Proof.
  unfold solid. induction s as [|c s IH]; [reflexivity|].
  cbn [rev filter]. rewrite filter_app, IH. cbn [filter].
  destruct (negb (isSpace c)); cbn [rev]; [reflexivity|now rewrite app_nil_r].
Qed.

Lemma solid_trim (s : jsstring) : solid (trim s) = solid s.
Proof.
  unfold trim, trimStart, trimEnd.
  now rewrite solid_rev, solid_dropWhile, solid_rev, rev_involutive, solid_dropWhile.
Qed.

Lemma solid_idem (s : jsstring) : solid (solid s) = solid s.
Proof.
  unfold solid. induction s as [|c s IH]; [reflexivity|]. cbn [filter].
  destruct (negb (isSpace c)) eqn:E; [|exact IH]. cbn [filter]. now rewrite E, IH.
Qed.

Lemma indent_spaces (n : nat) : forallb isSpace (indent n) = true.
Proof. induction n as [|n IH]; [reflexivity|]. cbn [indent forallb]. now rewrite IH. Qed.

(** *** Lines *)

Lemma splitLines_app (l s cur : jsstring) :
  ~ In LF l -> splitLines (l ++ s) cur = splitLines s (rev l ++ cur).
Proof.
  revert cur. induction l as [|c l IH]; intros cur H; [reflexivity|].
  cbn [app splitLines rev].
  destruct (Ascii.eqb c LF) eqn:E.
  - apply Ascii.eqb_eq in E. elim H. now left.
  - rewrite IH; [|intros Hin; apply H; now right]. now rewrite <- app_assoc.
Qed.

Lemma splitLines_join (l : jsstring) (ls : list jsstring) (cur : jsstring) :
  Forall (fun x => ~ In LF x) (l :: ls) ->
  splitLines (join [LF] (l :: ls)) cur = (rev cur ++ l) :: ls.
Proof.
  revert l cur. induction ls as [|l2 ls IH]; intros l cur H.
  - cbn [join]. rewrite <- (app_nil_r l) at 1.
    inversion H; subst. rewrite splitLines_app by assumption.
    cbn [splitLines]. now rewrite rev_app_distr, rev_involutive.
  - inversion H as [|? ? Hl Hrest]; subst.
    change (join [LF] (l :: l2 :: ls)) with (l ++ [LF] ++ join [LF] (l2 :: ls)).
    rewrite splitLines_app by assumption. cbn [app splitLines].
    change (Ascii.eqb LF LF) with true. cbv iota. rewrite (IH l2 [] Hrest).
    now rewrite rev_app_distr, rev_involutive.
Qed.

Lemma splitLines_cons (s cur : jsstring) :
  exists l ls, splitLines s cur = l :: ls.
Proof.
  revert cur. induction s as [|c s IH]; intros cur; cbn [splitLines].
  - now eexists _, _.
  - destruct (Ascii.eqb c LF); [now eexists _, _|apply IH].
Qed.

Lemma splitLines_noLF (s cur : jsstring) :
  ~ In LF cur -> Forall (fun x => ~ In LF x) (splitLines s cur).
Proof.
  revert cur. induction s as [|c s IH]; intros cur H; cbn [splitLines].
  - constructor; [|constructor]. now rewrite <- in_rev.
  - destruct (Ascii.eqb c LF) eqn:E.
    + constructor; [now rewrite <- in_rev|]. apply IH. intros [].
    + apply IH. intros [Hc|Hin]; [|contradiction].
      apply Ascii.eqb_neq in E. congruence.
Qed.

Lemma formatLines_noLF (lines : list jsstring) :
  Forall (fun x => ~ In LF x) lines ->
  forall n, Forall (fun x => ~ In LF x) (formatLines lines n).
Proof.
  induction 1 as [|l lines Hl _ IH]; intros n; cbn [formatLines]; [constructor|].
  assert (Hline : forall k, ~ In LF (indent k ++ trim l)).
  { intros k Hin. apply in_app_or in Hin as [Hin|Hin].
    - induction k as [|k IHk]; [exact Hin|].
      cbn [indent In] in Hin. destruct Hin as [Hin|[Hin|Hin]]; try discriminate.
      now apply IHk.
    - apply Hl. now apply trim_In. }
  destruct (negb (nonEmpty (trim l))); [constructor; [intros []|apply IH]|].
  destruct (startsWith (trim l) (str "--")); constructor; auto.
Qed.

Lemma formatLines_cons (lines : list jsstring) (l : jsstring) (n : nat) :
  exists l' ls', formatLines (l :: lines) n = l' :: ls'.
Proof.
  cbn [formatLines]. destruct (negb _); [now eexists _, _|].
  destruct (startsWith _ _); now eexists _, _.
Qed.

Lemma formatLines_trim (lines : list jsstring) :
  forall n, map trim (formatLines lines n) = map trim lines.
Proof.
  induction lines as [|l lines IH]; intros n; cbn [formatLines map]; [reflexivity|].
  destruct (nonEmpty (trim l)) eqn:E; cbn [negb].
  - destruct (startsWith (trim l) (str "--")); cbn [map];
      now rewrite IH, (trim_after_spaces _ _ (indent_spaces _)), trim_idem.
  - cbn [map]. rewrite IH. f_equal. destruct (trim l); [reflexivity|discriminate].
Qed.

Lemma formatLines_idem (lines : list jsstring) :
  forall n, formatLines (formatLines lines n) n = formatLines lines n.
Proof.
  induction lines as [|l lines IH]; intros n; [reflexivity|].
  cbn [formatLines].
  destruct (nonEmpty (trim l)) eqn:E; cbn [negb].
  - destruct (startsWith (trim l) (str "--")) eqn:C.
    + cbn [formatLines].
      rewrite (trim_after_spaces _ _ (indent_spaces _)), trim_idem, E, C. cbn [negb].
      now rewrite IH.
    + cbn [formatLines].
      rewrite (trim_after_spaces _ _ (indent_spaces _)), trim_idem, E, C. cbn [negb].
      now rewrite IH.
  - cbn [formatLines]. cbn [trim trimStart trimEnd dropWhile rev nonEmpty negb].
    now rewrite IH.
Qed.

(** X23. The formatter changes nothing but the whitespace at the two
    ends of each line: the lines of its output, trimmed, are the lines
    of its input, trimmed, one for one; and formatting its output
    again gives the same text. *)
Theorem formatSQL_lines (sql : jsstring) :
  map trim (splitLines (formatSQL sql) []) = map trim (splitLines sql [])
  /\ formatSQL (formatSQL sql) = formatSQL sql.
Proof.
  assert (Hlines : splitLines (formatSQL sql) [] = formatLines (splitLines sql []) 0).
  { unfold formatSQL.
    pose proof (formatLines_noLF _ (splitLines_noLF sql [] (fun H => H)) 0) as Hno.
    destruct (splitLines_cons sql []) as (l & ls & E). rewrite E in *.
    destruct (formatLines_cons ls l 0) as (l' & ls' & E'). rewrite E' in *.
    now rewrite splitLines_join. }
  split.
  - rewrite Hlines. apply formatLines_trim.
  - unfold formatSQL at 1. rewrite Hlines, formatLines_idem. reflexivity.
Qed.

(** *** Tokens *)

Lemma splitSpaces_words (s cur : jsstring) (inGap : bool) :
  solid cur = cur ->
  Forall (fun w => solid w = w) (splitSpaces s cur inGap).
Proof.
  revert cur inGap. induction s as [|c s IH]; intros cur inGap Hcur; cbn [splitSpaces].
  - constructor; [|constructor]. now rewrite solid_rev, Hcur.
  - destruct (isSpace c) eqn:E.
    + destruct inGap; [now apply IH|].
      constructor; [now rewrite solid_rev, Hcur|now apply IH].
    + apply IH. unfold solid in *. cbn [filter]. rewrite E. cbn [negb]. now rewrite Hcur.
Qed.

Lemma splitSpaces_concat (s cur : jsstring) (inGap : bool) :
  (inGap = true -> cur = []) ->
  concat (splitSpaces s cur inGap) = rev cur ++ solid s.
Proof.
  revert cur inGap. induction s as [|c s IH]; intros cur inGap Hgap; cbn [splitSpaces].
  - cbn. now rewrite app_nil_r.
  - unfold solid at 1. cbn [filter]. fold (solid s). destruct (isSpace c) eqn:E; cbn [negb].
    + destruct inGap.
      * rewrite (Hgap eq_refl). now apply IH.
      * cbn [concat]. now rewrite IH.
    + rewrite IH by discriminate. cbn [rev]. now rewrite <- app_assoc.
Qed.

Lemma tokenizeWords_concat (words : list jsstring) (lineNum column : nat) :
  concat (map value (tokenizeWords words lineNum column)) = concat words.
Proof.
  revert column. induction words as [|w words IH]; intros column; [reflexivity|].
  cbn [tokenizeWords]. destruct w as [|c w]; cbn [nonEmpty]; [apply IH|].
  cbn [map concat value]. now rewrite IH.
Qed.

Lemma classify_not_comment (word : jsstring) : classify word <> comment.
Proof.
  unfold classify.
  repeat match goal with |- context [if ?b then _ else _] => destruct b end;
    discriminate.
Qed.

Lemma tokenizeWords_ok (words : list jsstring) (lineNum : nat) :
  Forall (fun w => solid w = w) words ->
  forall start, 1 <= start -> Forall tokenOk (tokenizeWords words lineNum start).
Proof.
  induction 1 as [|w words Hw _ IH]; intros start Hc; cbn [tokenizeWords]; [constructor|].
  destruct (nonEmpty w) eqn:E; [|now apply IH].
  constructor; [|apply IH; lia].
  unfold tokenOk. cbn [value line column type].
  split; [now destruct w|]. split; [lia|]. split; [exact Hc|].
  pose proof (classify_not_comment w) as Hn.
  destruct (classify w) eqn:K; try (split; [exact Hw|reflexivity]). now elim Hn.
Qed.

Lemma tokenizeLines_ok (lines : list jsstring) (lineNum : nat) :
  Forall tokenOk (tokenizeLines lines lineNum).
Proof.
  revert lineNum. induction lines as [|l lines IH]; intros lineNum; cbn [tokenizeLines];
    [constructor|].
  destruct (nonEmpty (trim l)) eqn:E; cbn [negb]; [|apply IH].
  destruct (startsWith (trim l) (str "--")) eqn:C.
  - constructor; [|apply IH]. unfold tokenOk. cbn [value line column type].
    split; [now destruct (trim l)|]. split; [lia|]. split; [lia|].
    split; [exact C|apply trim_idem].
  - apply Forall_app. split; [|apply IH].
    apply tokenizeWords_ok; [|lia]. now apply splitSpaces_words.
Qed.

Lemma tokenizeLines_solid (lines : list jsstring) (lineNum : nat) :
  solid (concat (map value (tokenizeLines lines lineNum))) = solid (concat lines).
Proof.
  revert lineNum. induction lines as [|l lines IH]; intros lineNum; [reflexivity|].
  cbn [tokenizeLines concat]. rewrite solid_app, <- (solid_trim l).
  destruct (nonEmpty (trim l)) eqn:E; cbn [negb].
  - destruct (startsWith (trim l) (str "--")).
    + cbn [map concat value]. now rewrite solid_app, IH.
    + rewrite map_app, concat_app, solid_app, IH, tokenizeWords_concat.
      rewrite splitSpaces_concat by discriminate. cbn [rev app].
      now rewrite solid_idem.
  - rewrite IH. now destruct (trim l).
Qed.

Lemma splitLines_solid (s cur : jsstring) :
  solid (concat (splitLines s cur)) = solid (rev cur ++ s).
Proof.
  revert cur. induction s as [|c s IH]; intros cur; cbn [splitLines].
  - cbn [concat]. reflexivity.
  - destruct (Ascii.eqb c LF) eqn:E.
    + apply Ascii.eqb_eq in E. subst c. cbn [concat].
      rewrite !solid_app, IH. reflexivity.
    + rewrite IH. cbn [rev]. now rewrite <- app_assoc.
Qed.

(** X24. The tokens of a text, put end to end, are the text without
    its whitespace: the tokenizer drops nothing else.  Every token has
    a value that is not empty and a line and a column from 1 up; a
    comment token is a trimmed line that starts with two dashes, any
    other token holds no whitespace and has the type that its word
    gets from the chain of tests. *)
Theorem tokenize_keeps_text (sql : jsstring) :
  solid (concat (map value (tokenize sql))) = solid sql
  /\ Forall (fun t =>
               value t <> [] /\ 1 <= line t /\ 1 <= column t
               /\ match type t with
                  | comment =>
                      startsWith (value t) (str "--") = true /\ trim (value t) = value t
                  | other => solid (value t) = value t /\ other = classify (value t)
                  end)
            (tokenize sql).
Proof.
  split.
  - unfold tokenize. now rewrite tokenizeLines_solid, splitLines_solid.
  - apply tokenizeLines_ok.
Qed.

(** *** The structure check *)

Lemma startsWith_In (s p : jsstring) (c : ascii) :
  startsWith s p = true -> In c p -> In c s.
Proof.
  revert s. induction p as [|a p IH]; intros s H Hin; [destruct Hin|].
  destruct s as [|b s]; cbn [startsWith] in H; [discriminate|].
  apply andb_true_iff in H as [Hab H]. apply Ascii.eqb_eq in Hab. subst b.
  destruct Hin as [<-|Hin]; [now left|right; now apply IH].
Qed.

Lemma includes_In (s p : jsstring) (c : ascii) :
  includes s p = true -> In c p -> In c s.
Proof.
  induction s as [|b s IH]; cbn [includes]; intros H Hin.
  - rewrite orb_false_r in H. now apply (startsWith_In [] p).
  - apply orb_true_iff in H as [H|H]; [now apply (startsWith_In _ p)|].
    right. now apply IH.
Qed.

Lemma join_In (sep : jsstring) (parts : list jsstring) (c : ascii) :
  In c (join sep parts) -> In c sep \/ exists p, In p parts /\ In c p.
Proof.
  induction parts as [|p parts IH]; [intros []|].
  destruct parts as [|p2 parts].
  - cbn [join]. intros H. right. exists p. split; [now left|exact H].
  - change (join sep (p :: p2 :: parts)) with (p ++ sep ++ join sep (p2 :: parts)).
    intros H. apply in_app_or in H as [H|H].
    + right. exists p. split; [now left|exact H].
    + apply in_app_or in H as [H|H]; [now left|].
      destruct (IH H) as [Hs|(q & Hq & Hc)]; [now left|].
      right. exists q. split; [now right|exact Hc].
Qed.

(** A text without the separator does not straddle it. *)
Lemma startsWith_before_sep (sp : ascii) (k rest p : jsstring) :
  ~ In sp p -> p <> [] ->
  startsWith (k ++ sp :: rest) p = startsWith k p.
Proof.
  revert k. induction p as [|a p IH]; intros k Hsp Hne; [now elim Hne|].
  destruct k as [|c k]; cbn [app startsWith].
  - destruct (Ascii.eqb a sp) eqn:E; [|reflexivity].
    apply Ascii.eqb_eq in E. elim Hsp. now left.
  - destruct p as [|a2 p].
    + now rewrite !startsWith_nil.
    + f_equal. apply IH; [|discriminate]. intros H. apply Hsp. now right.
Qed.

Lemma includes_across_sep (sp : ascii) (k rest p : jsstring) :
  ~ In sp p -> p <> [] ->
  includes (k ++ sp :: rest) p = includes k p || includes rest p.
Proof.
  intros Hsp Hne. induction k as [|c k IH].
  - pose proof (startsWith_before_sep sp [] rest p Hsp Hne) as E.
    cbn [app] in *. cbn [includes]. rewrite E.
    destruct p; [now elim Hne|reflexivity].
  - pose proof (startsWith_before_sep sp (c :: k) rest p Hsp Hne) as E.
    cbn [app] in *. cbn [includes]. rewrite IH, E.
    now rewrite orb_assoc.
Qed.

Lemma includes_join (sp : ascii) (parts : list jsstring) (p : jsstring) :
  ~ In sp p -> p <> [] ->
  includes (join [sp] parts) p = existsb (fun k => includes k p) parts.
Proof.
  intros Hsp Hne. induction parts as [|k parts IH].
  - destruct p; [now elim Hne|reflexivity].
  - destruct parts as [|k2 parts].
    + cbn [join existsb]. now rewrite orb_false_r.
    + change (join [sp] (k :: k2 :: parts)) with (k ++ sp :: join [sp] (k2 :: parts)).
      rewrite (includes_across_sep sp k _ p Hsp Hne), IH. reflexivity.
Qed.

Lemma upper_space (c : ascii) : toUpperChar c = " "%char -> c = " "%char.
Proof. destruct c as [[] [] [] [] [] [] [] []]; cbn; congruence. Qed.

Lemma upper_isSpace (c : ascii) : isSpace (toUpperChar c) = isSpace c.
Proof. destruct c as [[] [] [] [] [] [] [] []]; reflexivity. Qed.

Lemma solid_no_space (w : jsstring) : solid w = w -> ~ In " "%char (toUpperCase w).
Proof.
  intros Hw Hin. unfold toUpperCase in Hin. apply in_map_iff in Hin as (c & Hc & Hin).
  apply upper_space in Hc. subst c. rewrite <- Hw in Hin.
  apply filter_In in Hin as [_ Hin]. discriminate Hin.
Qed.

(** The keywords of one word hold no Y, and only HAVING holds HAVING. *)
Lemma SQL_KEYWORDS_words :
  forallb (fun k =>
             existsb (Ascii.eqb " "%char) k
             || (negb (existsb (Ascii.eqb "Y"%char) k)
                 && (negb (includes k (str "HAVING")) || eqs k (str "HAVING"))))
          SQL_KEYWORDS = true.
Proof. vm_compute. reflexivity. Qed.

Lemma existsb_char (c : ascii) (k : jsstring) :
  existsb (Ascii.eqb c) k = true <-> In c k.
Proof.
  rewrite existsb_exists. split.
  - intros (x & Hx & E). apply Ascii.eqb_eq in E. now subst.
  - intros H. exists c. split; [exact H|apply Ascii.eqb_refl].
Qed.

Lemma keyword_word (t : SQLToken) :
  tokenOk t -> type t = keyword ->
  ~ In "Y"%char (toUpperCase (value t))
  /\ includes (toUpperCase (value t)) (str "HAVING")
     = eqs (toUpperCase (value t)) (str "HAVING").
Proof.
  intros (_ & _ & _ & Hok) Ht. rewrite Ht in Hok. destruct Hok as [Hsolid Hclass].
  assert (Hin : In (toUpperCase (value t)) SQL_KEYWORDS).
  { unfold classify in Hclass.
    destruct (arrayIncludes SQL_KEYWORDS (toUpperCase (value t))) eqn:E.
    - unfold arrayIncludes in E. apply existsb_exists in E as (k & Hk & E).
      apply eqs_true in E. now subst.
    - repeat match type of Hclass with
             | _ = (if ?b then _ else _) => destruct b
             end; discriminate. }
  pose proof SQL_KEYWORDS_words as Hall. rewrite forallb_forall in Hall.
  specialize (Hall _ Hin). apply orb_true_iff in Hall as [Hall|Hall].
  - apply existsb_char in Hall. now apply solid_no_space in Hall.
  - apply andb_true_iff in Hall as [Hy Hh]. split.
    + intros HY. apply existsb_char in HY. now rewrite HY in Hy.
    + destruct (eqs (toUpperCase (value t)) (str "HAVING")) eqn:E.
      * apply eqs_true in E. rewrite E. apply includes_refl.
      * rewrite orb_false_r in Hh. now apply negb_true_iff in Hh.
Qed.

Lemma keywordSequence_having (tokens : list SQLToken) :
  Forall tokenOk tokens ->
  existsb (fun k => includes k (str "HAVING"))
          (map (fun t => toUpperCase (value t))
               (filter (fun t => tokenType_eqb (type t) keyword) tokens))
  = existsb (isKeywordToken (str "HAVING")) tokens.
Proof.
  induction 1 as [|t tokens Ht _ IH]; [reflexivity|].
  cbn [filter existsb]. unfold isKeywordToken at 1.
  destruct (tokenType_eqb (type t) keyword) eqn:E; cbn [andb orb map existsb].
  - rewrite IH. f_equal. apply keyword_word; [exact Ht|].
    now destruct (type t).
  - exact IH.
Qed.

Lemma keywordSequence_no_Y (tokens : list SQLToken) :
  Forall tokenOk tokens ->
  ~ In "Y"%char (join (str " ")
                   (map (fun t => toUpperCase (value t))
                        (filter (fun t => tokenType_eqb (type t) keyword) tokens))).
Proof.
  intros Hok Hin. apply join_In in Hin as [Hin|(k & Hk & Hin)].
  - cbn in Hin. destruct Hin as [Hin|[]]. discriminate Hin.
  - apply in_map_iff in Hk as (t & <- & Ht). apply filter_In in Ht as [Ht Hkw].
    rewrite Forall_forall in Hok.
    apply (keyword_word t (Hok t Ht)); [now destruct (type t)|exact Hin].
Qed.

Lemma validateSQLStructure_tokens (tokens : list SQLToken) (errors' : list ValidationError) :
  Forall tokenOk tokens ->
  validateSQLStructure tokens errors'
  = errors' ++ (if existsb (isKeywordToken (str "HAVING")) tokens
                then [havingWithoutGroupBy] else []).
Proof.
  intros Hok. unfold validateSQLStructure.
  set (sequence := join (str " ") _).
  assert (Hg : includes sequence (str "GROUP BY") = false).
  { destruct (includes sequence (str "GROUP BY")) eqn:E; [|reflexivity].
    elim (keywordSequence_no_Y tokens Hok). apply (includes_In _ _ _ E).
    cbn. tauto. }
  assert (Ho : includes sequence (str "ORDER BY") = false).
  { destruct (includes sequence (str "ORDER BY")) eqn:E; [|reflexivity].
    elim (keywordSequence_no_Y tokens Hok). apply (includes_In _ _ _ E).
    cbn. tauto. }
  assert (Hh : includes sequence (str "HAVING")
               = existsb (isKeywordToken (str "HAVING")) tokens).
  { subst sequence. change (str " ") with [" "%char].
    rewrite includes_join, keywordSequence_having; [reflexivity|exact Hok| |discriminate].
    cbn. intros H. repeat (destruct H as [H|H]; [discriminate H|]). exact H. }
  rewrite Hg, Ho, Hh. cbn [andb negb app]. rewrite andb_true_r.
  now rewrite app_nil_r.
Qed.

(** X25. Of the three structure checks only one ever reports: a token
    is a single word, so the words GROUP BY and ORDER BY never reach
    the keyword sequence.  The errors of [validateSQL] are those of the
    basic syntax check, followed by [HAVING without GROUP BY] exactly
    when some keyword token is HAVING, whether the query has a GROUP BY
    or not; a query with the keyword HAVING is never valid. *)
Theorem validateSQL_having (sql : jsstring) :
  errors (validateSQL sql)
  = validateBasicSyntax (tokenize sql) []
    ++ (if existsb (isKeywordToken (str "HAVING")) (tokenize sql)
        then [havingWithoutGroupBy] else [])
  /\ isValid (validateSQL sql) && existsb (isKeywordToken (str "HAVING")) (tokenize sql)
     = false.
Proof.
  assert (H : errors (validateSQL sql)
              = validateBasicSyntax (tokenize sql) []
                ++ (if existsb (isKeywordToken (str "HAVING")) (tokenize sql)
                    then [havingWithoutGroupBy] else [])).
  { unfold validateSQL. cbn [errors].
    apply validateSQLStructure_tokens. apply tokenizeLines_ok. }
  split; [exact H|].
  unfold validateSQL in *. cbn [errors isValid] in *. rewrite H.
  destruct (existsb _ (tokenize sql)); [|apply andb_false_r].
  rewrite length_app. cbn [length]. rewrite andb_true_r.
  apply Nat.eqb_neq. lia.
Qed.

End ValidatorMore.
(** ** The OpenAI service, further *)

Section OpenAIMore.

Import OpenAIService.

Lemma afterBlank_rest (s rest : jsstring) :
  afterBlank s = Some rest -> afterBlank rest = None.
Proof.
  revert rest. induction s as [|c s IH]; intros rest; cbn [afterBlank]; [discriminate|].
  destruct (isSpace c); [|discriminate].
  destruct (afterBlank s) as [r|] eqn:E.
  - intros [= <-]. now apply IH.
  - destruct (Ascii.eqb c LF); [|discriminate]. now intros [= <-].
Qed.

Lemma afterBlank_collapse (s : jsstring) :
  afterBlank s = None -> afterBlank (collapseBlankLines s) = None.
Proof.
  induction s as [|c s IH]; rewrite collapseBlankLines_eq; [reflexivity|].
  cbn [afterBlank]. destruct (isSpace c) eqn:Sp.
  - destruct (afterBlank s) as [r|] eqn:E; [discriminate|].
    destruct (Ascii.eqb c LF) eqn:L; [discriminate|]. intros _.
    cbn [afterBlank]. now rewrite Sp, (IH eq_refl), L.
  - intros _. destruct (Ascii.eqb c LF) eqn:L.
    + apply Ascii.eqb_eq in L. subst c. discriminate Sp.
    + cbn [afterBlank]. now rewrite Sp.
Qed.

Lemma collapseBlankLines_no_blank (s : jsstring) :
  hasBlankLine (collapseBlankLines s) = false.
Proof.
  induction s as [s IH] using length_ind.
  rewrite collapseBlankLines_eq. destruct s as [|c s]; [reflexivity|].
  assert (Hcopy : afterBlank s = None ->
                  hasBlankLine (c :: collapseBlankLines s) = false).
  { intros E. cbn [hasBlankLine]. rewrite (afterBlank_collapse s E), andb_false_r.
    apply IH. cbn. lia. }
  destruct (Ascii.eqb c LF) eqn:L.
  - destruct (afterBlank s) as [rest|] eqn:E; [|now apply Hcopy].
    cbn [hasBlankLine].
    rewrite (afterBlank_collapse rest (afterBlank_rest _ _ E)), andb_false_r.
    apply IH. apply afterBlank_shorter in E. cbn. lia.
  - cbn [hasBlankLine]. rewrite L. apply IH. cbn. lia.
Qed.

Lemma hasBlankLine_suffix (m s : jsstring) :
  hasBlankLine (m ++ s) = false -> hasBlankLine s = false.
Proof.
  induction m as [|c m IH]; [easy|]. cbn [app hasBlankLine].
  intros H. apply orb_false_iff in H as [_ H]. now apply IH.
Qed.

Lemma afterBlank_app (s m : jsstring) :
  afterBlank (s ++ m) = None -> afterBlank s = None.
Proof.
  induction s as [|c s IH]; [reflexivity|]. cbn [app afterBlank].
  destruct (isSpace c); [|reflexivity].
  destruct (afterBlank (s ++ m)) as [r|]; [discriminate|].
  rewrite (IH eq_refl). now destruct (Ascii.eqb c LF).
Qed.

Lemma hasBlankLine_prefix (s m : jsstring) :
  hasBlankLine (s ++ m) = false -> hasBlankLine s = false.
Proof.
  induction s as [|c s IH]; [reflexivity|]. cbn [app hasBlankLine].
  intros H. apply orb_false_iff in H as [H1 H2]. rewrite (IH H2), orb_false_r.
  destruct (Ascii.eqb c LF); [|reflexivity]. cbn [andb] in *.
  destruct (afterBlank (s ++ m)) eqn:E; [discriminate|].
  now rewrite (afterBlank_app _ _ E).
Qed.

Lemma trim_no_blank (s : jsstring) :
  hasBlankLine s = false -> hasBlankLine (trim s) = false.
Proof.
  intros H. unfold trim, trimStart.
  destruct (dropWhile_suffix isSpace s) as [m E]. rewrite E in H.
  apply hasBlankLine_suffix in H.
  destruct (trimEnd_prefix (dropWhile isSpace s)) as [m' E']. rewrite E' in H.
  now apply hasBlankLine_prefix in H.
Qed.

Lemma formatSQL_tidy (sql : jsstring) :
  hasBlankLine (formatSQL sql) = false /\ trim (formatSQL sql) = formatSQL sql.
Proof.
  unfold formatSQL. split; [|apply trim_idem].
  apply trim_no_blank, collapseBlankLines_no_blank.
Qed.

(** X26. The text that [formatSQL] returns, hence the one that
    [postProcessSQL] returns and every SQL that [generateSQL] hands
    back, has no whitespace at its two ends and no empty or blank line
    between two lines. *)
Theorem postProcessSQL_tidy (sql : jsstring) (options : SQLGenerationOptions)
    (c : call) (st : state) :
  (hasBlankLine (formatSQL sql) = false /\ trim (formatSQL sql) = formatSQL sql)
  /\ (hasBlankLine (postProcessSQL sql options) = false
      /\ trim (postProcessSQL sql options) = postProcessSQL sql options)
  /\ match snd (generateSQL c options st) with
     | Ok generated => hasBlankLine generated = false /\ trim generated = generated
     | Throw _ => True
     end.
Proof.
  split; [apply formatSQL_tidy|]. split; [apply formatSQL_tidy|].
  unfold generateSQL. destruct (outcome c) as [message|content]; [exact I|].
  destruct (option_map trim content) as [[|ch reply]|]; cbn [snd]; try exact I.
  apply formatSQL_tidy.
Qed.

(** X27. Over a session the request counter grows by the number of
    calls that the endpoint answered, the answers without content
    included, for which [generateSQL] throws; a call that the endpoint
    fails leaves the counter and the time of the last request alone. *)
Theorem requestCount_counts_replies (calls : list (call * SQLGenerationOptions))
    (st : state) :
  requestCount (after st calls)
  = requestCount st + length (filter (fun entry => replied (fst entry)) calls)
  /\ (forallb (fun entry => negb (replied (fst entry))) calls = true ->
      after st calls = st).
Proof.
  revert st. induction calls as [|[c options] calls IH]; intros st; cbn [after].
  - split; [cbn; lia|reflexivity].
  - destruct (IH (fst (generateSQL c options st))) as [IH1 IH2].
    cbn [filter forallb fst].
    destruct (outcome c) as [message|content] eqn:E.
    + assert (Hst : fst (generateSQL c options st) = st).
      { unfold generateSQL. now rewrite E. }
      assert (R : replied c = false) by (unfold replied; now rewrite E).
      rewrite Hst in *. rewrite R. cbn [negb andb]. now split.
    + assert (R : replied c = true) by (unfold replied; now rewrite E).
      rewrite (generateSQL_reply c options st content E) in *. rewrite R.
      split; [|discriminate]. rewrite IH1. cbn [requestCount length]. lia.
Qed.

End OpenAIMore.

Lemma requestCount_counts_replies_witness :
  OpenAIService.after OpenAIService.initial
    [({| OpenAIService.calledAt := 5; OpenAIService.timerSlack := 0;
         OpenAIService.latency := 3;
         OpenAIService.outcome := OpenAIService.ApiError (str "timeout") |},
      OpenAIService.options None)]
  = OpenAIService.initial.
Proof.
  apply (requestCount_counts_replies
           [({| OpenAIService.calledAt := 5; OpenAIService.timerSlack := 0;
                OpenAIService.latency := 3;
                OpenAIService.outcome := OpenAIService.ApiError (str "timeout") |},
             OpenAIService.options None)]
           OpenAIService.initial).
  reflexivity.
Defined.
(** ** The fallback path of the task pane *)

Section AppFacts.

Import App.

Variable entropy : nat -> N.

(** X28. Whatever the question, the SQL of the fallback generator
    passes the validator without an error, and the mock data generator
    answers it with the carrier analysis dataset or with the time
    series dataset, never with one of the other five. *)
Theorem generateMockSQL_pipeline (question : jsstring) :
  SQLValidator.errors (SQLValidator.validateSQL (generateMockSQL question)) = []
  /\ SQLValidator.isValid (SQLValidator.validateSQL (generateMockSQL question)) = true
  /\ (MockData.generateDataFromSQL entropy (generateMockSQL question)
      = MockData.generateCarrierAnalysisData entropy
      \/ MockData.generateDataFromSQL entropy (generateMockSQL question)
         = MockData.generateTimeSeriesData entropy).
Proof.
  unfold generateMockSQL.
  repeat match goal with
         | |- context [if ?b then _ else _] => destruct b
         end.
  all: split; [vm_compute; reflexivity|split; [vm_compute; reflexivity|]].
  all: unfold MockData.generateDataFromSQL.
  all: match goal with
       | |- context [MockData.isCarrierAnalysisQuery ?s] =>
           let b := eval vm_compute in (MockData.isCarrierAnalysisQuery s) in
           replace (MockData.isCarrierAnalysisQuery s) with b by (vm_compute; reflexivity)
       end.
  all: try (left; reflexivity).
  all: match goal with
       | |- context [MockData.isTimeSeriesQuery ?s] =>
           let b := eval vm_compute in (MockData.isTimeSeriesQuery s) in
           replace (MockData.isTimeSeriesQuery s) with b by (vm_compute; reflexivity)
       end.
  all: right; reflexivity.
Qed.

End AppFacts.
